(** * fetchSSE: a Server-Sent-Events client over fetch

    A shallow embedding of [src/index.js] (the function [fetchSSE]) and the
    properties of its frame parser, retry policy, connection state machine
    and event dispatcher.

    Conventions of the embedding.
    - A JavaScript string is a [string]; each [ascii] is one UTF-16 code unit
      below 256, so the embedding covers text in the Latin-1 range.
    - JavaScript numbers that count or measure (retry count, delays, HTTP
      statuses) are integers of [Z]; [Infinity] is [None] in an [option Z].
    - [null] is [None] in an [option].
    - The closure variables of [fetchSSE] and the fields of the [sse] object
      are the fields of one record [State]; the promise continuations
      ([fetch(..).then], [reader.read().then], [setTimeout]) are the
      transitions of a step function driven by what the transport, the timer
      and the caller do next. *)

From Stdlib Require Import Ascii String List ZArith Lia Bool DecimalString.
From stdpp Require Import gmap strings.

Import ListNotations.
Local Open Scope Z_scope.

(* String concatenation unfolds on a constructor, as list concatenation does. *)
#[local] Arguments String.append !_ _ : simpl nomatch.

(** ** Strings: the JavaScript string operations the source uses *)

Module Str.

(** The line feed, ['\n']. *)
Definition LF : ascii := "010"%char.
Definition nl : string := String LF EmptyString.

(** Code units below 256 that [String.prototype.trim] and [parseInt] treat
    as white space: TAB, LF, VT, FF, CR, SPACE and NO-BREAK SPACE. *)
Definition is_ws (c : ascii) : bool :=
  let n := nat_of_ascii c in
  (Nat.leb 9 n && Nat.leb n 13) || Nat.eqb n 32 || Nat.eqb n 160.

(** Truthiness of a string: a string is falsy exactly when it is empty. *)
Definition truthy (s : string) : bool :=
  match s with EmptyString => false | String _ _ => true end.

Fixpoint trimStart (s : string) : string :=
  match s with
  | EmptyString => EmptyString
  | String c s' => if is_ws c then trimStart s' else s
  end.

Fixpoint trimEnd (s : string) : string :=
  match s with
  | EmptyString => EmptyString
  | String c s' =>
      match trimEnd s' with
      | EmptyString => if is_ws c then EmptyString else String c EmptyString
      | t => String c t
      end
  end.

(** [s.trim()] *)
Definition trim (s : string) : string := trimEnd (trimStart s).

(** [s.indexOf(pat)], with [None] for [-1]. *)
Definition indexOf (pat s : string) : option nat := String.index 0 pat s.

(** [s.slice(0, j)] for [0 <= j]. *)
Definition slice_to (j : nat) (s : string) : string := String.substring 0 j s.

(** [s.slice(i)] for [0 <= i]. *)
Definition slice_from (i : nat) (s : string) : string :=
  String.substring i (String.length s - i) s.

(** [s.split(sep)] for a separator of one code unit. The result is never
    empty: the empty string splits into one empty part. *)
Fixpoint split (sep : ascii) (s : string) : list string :=
  match s with
  | EmptyString => [EmptyString]
  | String c s' =>
      if Ascii.eqb c sep then EmptyString :: split sep s'
      else match split sep s' with
           | part :: parts => String c part :: parts
           | [] => [String c EmptyString]
           end
  end.

(** [s.includes(pat)] *)
Definition includes (pat s : string) : bool :=
  match indexOf pat s with Some _ => true | None => false end.

(** The value of a decimal digit, if the code unit is one. *)
Definition digit (c : ascii) : option Z :=
  let n := nat_of_ascii c in
  if Nat.leb 48 n && Nat.leb n 57 then Some (Z.of_nat (n - 48)) else None.

(** Reads the longest prefix of decimal digits, most significant first;
    [seen] tells whether a digit has been read and [acc] is their value. *)
Fixpoint digits (seen : bool) (acc : Z) (s : string) : option Z :=
  match s with
  | EmptyString => if seen then Some acc else None
  | String c s' =>
      match digit c with
      | Some d => digits true (10 * acc + d) s'
      | None => if seen then Some acc else None
      end
  end.

(** [parseInt(s, 10)], with [None] for [NaN]: leading white space is
    skipped, one sign is accepted, then the longest run of digits is read
    and whatever follows is ignored. The result is the integer itself; the
    source holds it in a double, which is the same number up to 2^53. *)
Definition parseInt (s : string) : option Z :=
  match trimStart s with
  | String "-"%char r => option_map Z.opp (digits false 0 r)
  | String "+"%char r => digits false 0 r
  | r => digits false 0 r
  end.

(** ASCII upper-casing. On code units below 256 the comparison of
    [s.toUpperCase()] with a word of ASCII capitals is decided by it. *)
Definition upper (c : ascii) : ascii :=
  let n := nat_of_ascii c in
  if Nat.leb 97 n && Nat.leb n 122 then ascii_of_nat (n - 32) else c.

Fixpoint toUpperCase (s : string) : string :=
  match s with
  | EmptyString => EmptyString
  | String c s' => String (upper c) (toUpperCase s')
  end.

(** Decimal numeral of a non-negative integer, as in a template literal. *)
Definition of_Z (n : Z) : string :=
  DecimalString.NilZero.string_of_int (Z.to_int n).

End Str.

(** ** The frame parser: [parseSSEEvent] *)

(** The record [parseSSEEvent] returns. *)
Record ParsedEvent := {
  eventName : string;
  eventDataString : string;
  eventId : option string;
  retry : option Z
}.

(** The body of the [forEach] callback: one line of the frame. *)
Definition parsePart (acc : ParsedEvent) (part : string) : ParsedEvent :=
  match Str.indexOf ":" part with
  | None => acc
  | Some colonIndex =>
      let key := Str.trim (Str.slice_to colonIndex part) in
      let value := Str.trim (Str.slice_from (colonIndex + 1) part) in
      if String.eqb key "event" then
        {| eventName := value; eventDataString := eventDataString acc;
           eventId := eventId acc; retry := retry acc |}
      else if String.eqb key "data" then
        {| eventName := eventName acc;
           eventDataString :=
             eventDataString acc
             +:+ (if Str.truthy (eventDataString acc) then Str.nl else "")
             +:+ value;
           eventId := eventId acc; retry := retry acc |}
      else if String.eqb key "id" then
        {| eventName := eventName acc; eventDataString := eventDataString acc;
           eventId := Some value; retry := retry acc |}
      else if String.eqb key "retry" then
        match Str.parseInt value with
        | Some retryValue =>
            {| eventName := eventName acc;
               eventDataString := eventDataString acc;
               eventId := eventId acc; retry := Some retryValue |}
        | None => acc
        end
      else acc
  end.

Definition parseSSEEvent (eventData : string) : ParsedEvent :=
  fold_left parsePart (Str.split Str.LF eventData)
    {| eventName := "message"; eventDataString := "";
       eventId := None; retry := None |}.

(** ** Data model of the connection *)

(** Faults raised by the JavaScript engine itself. The wording of their
    messages is engine-defined, so a message is kept as the fault. *)
Inductive EngineFault :=
| InvalidURL      (* [new URL(url)] on a string that is not an absolute URL *)
| NotIterable     (* [for .. of] over a value that is no array *)
| NotAFunction    (* a call of a property that is [undefined] *)
| NullBody.       (* [response.body.getReader()] on a response without body *)

(** A thrown value: an [Error] with its message and the [status] property the
    source attaches to HTTP failures, or a [TypeError] of the engine. *)
Inductive Thrown :=
| Error (message : string) (status : option Z)
| TypeError (fault : EngineFault).

(** The [data] of a dispatched event: [null], a string, or the message of an
    engine fault. [error.message] is the latter two. *)
Inductive EventData :=
| DataNull
| DataText (text : string)
| DataFault (fault : EngineFault).

Definition message_of (error : Thrown) : EventData :=
  match error with
  | Error message _ => DataText message
  | TypeError fault => DataFault fault
  end.

(** The [eventObject] of [dispatchEvent]. Its [target] is the [sse] object
    itself, of which there is one. *)
Module Event.
Record t := {
  type : string;
  data : EventData;
  lastEventId : option string;
  origin : string
}.
End Event.

(** A callback: a function value with its identity ([!==] compares function
    references) and what a call of it does with the event, returning or
    throwing. Callbacks observe the event; they do not call back into the
    connection while it dispatches. *)
Record Listener := {
  ident : nat;
  call : Event.t -> option Thrown
}.

(** The object [scheduleReconnect] hands to [shouldRetry]; [status] is
    [None] when the object has no such property. *)
Module Failure.
Record t := {
  status : option Z;
  retryCount : Z;
  lastError : string
}.
End Failure.

(** The request body option: [null], a plain object (with the text
    [JSON.stringify] gives for it), or a string, [FormData],
    [URLSearchParams] or [ReadableStream] that is passed on as it is. *)
Inductive Body :=
| BodyNull
| BodyObject (json : string)
| BodyRaw (payload : string).

(** The object [buildFetchOptions] returns; the [signal] is that of the
    abort controller made for the attempt. *)
Module Fetch.
Record t := {
  method : string;
  headers : gmap string string;
  credentials : string;
  mode : string;
  cache : string;
  redirect : string;
  referrer : option string;
  referrerPolicy : option string;
  integrity : option string;
  keepalive : option bool;
  body : option string
}.
End Fetch.

(** The arguments of [fetchSSE]: the url, what [new URL(url).origin] is
    ([None] when the constructor throws), and the destructured options. *)
Record Options := {
  url : string;
  url_origin : option string;
  method : string;
  headers : gmap string string;
  body : Body;
  credentials : string;
  mode : string;
  retryDelay : Z;
  maxRetries : option Z;
  customRetryLogic : option (Failure.t -> Z -> bool);
  cache : string;
  redirect : string;
  referrer : option string;
  referrerPolicy : option string;
  integrity : option string;
  keepalive : option bool
}.

(** The options [fetchSSE] uses when the caller passes none. *)
Definition default_options (url : string) (url_origin : option string)
  : Options :=
  {| url := url; url_origin := url_origin;
     method := "GET"; headers := ∅; body := BodyNull;
     credentials := "include"; mode := "cors";
     retryDelay := 3000; maxRetries := None; customRetryLogic := None;
     cache := "no-cache"; redirect := "follow";
     referrer := None; referrerPolicy := None; integrity := None;
     keepalive := None |}.

(** What the connection is waiting for: nothing, the promise of [fetch], or
    the promise of [reader.read()] together with the local [buffer] of the
    callback that will receive the chunk. *)
Inductive Pending :=
| NoRequest
| AwaitingResponse
| AwaitingChunk (buffer : string).

(** The closure variables of [fetchSSE] and the fields of [sse].
    [abortController] and [reader] tell whether the variable holds an object;
    [retryTimeout] is the delay of the timer that is set and has not fired. *)
Record State := {
  abortController : bool;
  reader : bool;
  isClosed : bool;
  retryTimeout : option Z;
  retryCount : Z;
  lastEventId : option string;
  currentRetryDelay : Z;
  listeners : gmap string (list Listener);
  onmessage : option Listener;
  onerror : option Listener;
  onopen : option Listener;
  readyState : Z;
  pending : Pending
}.

Definition CONNECTING : Z := 0.
Definition OPEN : Z := 1.
Definition CLOSED : Z := 2.

(** Lines the source writes to the console. *)
Inductive LogEntry :=
| WarnNotEventStream (contentType : option string)
| InfoEstablished
| ErrorConnection (error : Thrown)
| WarnNoRetry
| InfoScheduling (attempt : Z) (delay : Z).

(** What a transition does to the outside world, in order. [Built] records
    the event object a call of [dispatchEvent] constructs and [Called] a call
    of a callback with it. *)
Inductive Effect :=
| DoFetch (url : string) (fetchOptions : Fetch.t)
| SetTimeout (delay : Z)
| ClearTimeout
| Abort
| CancelReader
| Built (eventObject : Event.t)
| Called (callback : nat) (eventObject : Event.t)
| Console (entry : LogEntry)
| UnhandledRejection (error : Thrown)
| ThrownToCaller (error : Thrown).

(** The response [fetch] resolves with. *)
Record Response := {
  status : Z;
  statusText : string;
  contentType : option string;
  hasBody : bool
}.

(** [response.ok] *)
Definition ok (response : Response) : bool :=
  (200 <=? status response) && (status response <=? 299).

(** ** Actions: state, effects and exceptions

    A piece of the source runs from a state, ends in a state, has done some
    effects in order, and has either returned a value or thrown. *)

Inductive Outcome (A : Type) :=
| Returned (a : A)
| Threw (error : Thrown).
Arguments Returned {A} a.
Arguments Threw {A} error.

Definition Act (A : Type) : Type := State -> Outcome A * State * list Effect.

Definition ret {A} (a : A) : Act A := fun s => (Returned a, s, []).

Definition bind {A B} (c : Act A) (k : A -> Act B) : Act B :=
  fun s =>
    match c s with
    | (Returned a, s1, out1) =>
        match k a s1 with
        | (r, s2, out2) => (r, s2, out1 ++ out2)
        end
    | (Threw error, s1, out1) => (Threw error, s1, out1)
    end.

(** [throw error] *)
Definition throw {A} (error : Thrown) : Act A := fun s => (Threw error, s, []).

(** [try { c } catch (error) { handler(error) }], and likewise a promise
    chain [p.then(c).catch(handler)]. *)
Definition catch {A} (c : Act A) (handler : Thrown -> Act A) : Act A :=
  fun s =>
    match c s with
    | (Returned a, s1, out1) => (Returned a, s1, out1)
    | (Threw error, s1, out1) =>
        match handler error s1 with
        | (r, s2, out2) => (r, s2, out1 ++ out2)
        end
    end.

Definition get : Act State := fun s => (Returned s, s, []).
Definition modify (f : State -> State) : Act unit :=
  fun s => (Returned tt, f s, []).
Definition emit (e : Effect) : Act unit := fun s => (Returned tt, s, [e]).

Declare Scope act_scope.
Delimit Scope act_scope with act.
Notation "'let*' x ':=' c 'in' k" := (bind c (fun x => k))
  (at level 10, x name, c at level 100, k at level 200) : act_scope.
Notation "c '>>' k" := (bind c (fun _ => k))
  (at level 70, right associativity) : act_scope.
Local Open Scope act_scope.

(** Assignments to the variables of the closure and of [sse]. *)
Definition set_abortController (v : bool) (s : State) : State :=
  {| abortController := v; reader := reader s; isClosed := isClosed s;
     retryTimeout := retryTimeout s; retryCount := retryCount s;
     lastEventId := lastEventId s; currentRetryDelay := currentRetryDelay s;
     listeners := listeners s; onmessage := onmessage s;
     onerror := onerror s; onopen := onopen s; readyState := readyState s;
     pending := pending s |}.

Definition set_reader (v : bool) (s : State) : State :=
  {| abortController := abortController s; reader := v;
     isClosed := isClosed s;
     retryTimeout := retryTimeout s; retryCount := retryCount s;
     lastEventId := lastEventId s; currentRetryDelay := currentRetryDelay s;
     listeners := listeners s; onmessage := onmessage s;
     onerror := onerror s; onopen := onopen s; readyState := readyState s;
     pending := pending s |}.

Definition set_isClosed (v : bool) (s : State) : State :=
  {| abortController := abortController s; reader := reader s;
     isClosed := v;
     retryTimeout := retryTimeout s; retryCount := retryCount s;
     lastEventId := lastEventId s; currentRetryDelay := currentRetryDelay s;
     listeners := listeners s; onmessage := onmessage s;
     onerror := onerror s; onopen := onopen s; readyState := readyState s;
     pending := pending s |}.

Definition set_retryTimeout (v : option Z) (s : State) : State :=
  {| abortController := abortController s; reader := reader s;
     isClosed := isClosed s;
     retryTimeout := v; retryCount := retryCount s;
     lastEventId := lastEventId s; currentRetryDelay := currentRetryDelay s;
     listeners := listeners s; onmessage := onmessage s;
     onerror := onerror s; onopen := onopen s; readyState := readyState s;
     pending := pending s |}.

Definition set_retryCount (v : Z) (s : State) : State :=
  {| abortController := abortController s; reader := reader s;
     isClosed := isClosed s;
     retryTimeout := retryTimeout s; retryCount := v;
     lastEventId := lastEventId s; currentRetryDelay := currentRetryDelay s;
     listeners := listeners s; onmessage := onmessage s;
     onerror := onerror s; onopen := onopen s; readyState := readyState s;
     pending := pending s |}.

Definition set_lastEventId (v : option string) (s : State) : State :=
  {| abortController := abortController s; reader := reader s;
     isClosed := isClosed s;
     retryTimeout := retryTimeout s; retryCount := retryCount s;
     lastEventId := v; currentRetryDelay := currentRetryDelay s;
     listeners := listeners s; onmessage := onmessage s;
     onerror := onerror s; onopen := onopen s; readyState := readyState s;
     pending := pending s |}.

Definition set_currentRetryDelay (v : Z) (s : State) : State :=
  {| abortController := abortController s; reader := reader s;
     isClosed := isClosed s;
     retryTimeout := retryTimeout s; retryCount := retryCount s;
     lastEventId := lastEventId s; currentRetryDelay := v;
     listeners := listeners s; onmessage := onmessage s;
     onerror := onerror s; onopen := onopen s; readyState := readyState s;
     pending := pending s |}.

Definition set_listeners (v : gmap string (list Listener)) (s : State)
  : State :=
  {| abortController := abortController s; reader := reader s;
     isClosed := isClosed s;
     retryTimeout := retryTimeout s; retryCount := retryCount s;
     lastEventId := lastEventId s; currentRetryDelay := currentRetryDelay s;
     listeners := v; onmessage := onmessage s;
     onerror := onerror s; onopen := onopen s; readyState := readyState s;
     pending := pending s |}.

Definition set_onmessage (v : option Listener) (s : State) : State :=
  {| abortController := abortController s; reader := reader s;
     isClosed := isClosed s;
     retryTimeout := retryTimeout s; retryCount := retryCount s;
     lastEventId := lastEventId s; currentRetryDelay := currentRetryDelay s;
     listeners := listeners s; onmessage := v;
     onerror := onerror s; onopen := onopen s; readyState := readyState s;
     pending := pending s |}.

Definition set_onerror (v : option Listener) (s : State) : State :=
  {| abortController := abortController s; reader := reader s;
     isClosed := isClosed s;
     retryTimeout := retryTimeout s; retryCount := retryCount s;
     lastEventId := lastEventId s; currentRetryDelay := currentRetryDelay s;
     listeners := listeners s; onmessage := onmessage s;
     onerror := v; onopen := onopen s; readyState := readyState s;
     pending := pending s |}.

Definition set_onopen (v : option Listener) (s : State) : State :=
  {| abortController := abortController s; reader := reader s;
     isClosed := isClosed s;
     retryTimeout := retryTimeout s; retryCount := retryCount s;
     lastEventId := lastEventId s; currentRetryDelay := currentRetryDelay s;
     listeners := listeners s; onmessage := onmessage s;
     onerror := onerror s; onopen := v; readyState := readyState s;
     pending := pending s |}.

Definition set_readyState (v : Z) (s : State) : State :=
  {| abortController := abortController s; reader := reader s;
     isClosed := isClosed s;
     retryTimeout := retryTimeout s; retryCount := retryCount s;
     lastEventId := lastEventId s; currentRetryDelay := currentRetryDelay s;
     listeners := listeners s; onmessage := onmessage s;
     onerror := onerror s; onopen := onopen s; readyState := v;
     pending := pending s |}.

Definition set_pending (v : Pending) (s : State) : State :=
  {| abortController := abortController s; reader := reader s;
     isClosed := isClosed s;
     retryTimeout := retryTimeout s; retryCount := retryCount s;
     lastEventId := lastEventId s; currentRetryDelay := currentRetryDelay s;
     listeners := listeners s; onmessage := onmessage s;
     onerror := onerror s; onopen := onopen s; readyState := readyState s;
     pending := v |}.

(** ** The connection: [fetchSSE(url, options)] *)

(** Property names every plain object inherits from [Object.prototype]:
    [this.listeners[event]] finds a function (or the prototype itself) under
    them, which is truthy and is neither an array nor iterable. *)
Definition inherited (key : string) : bool :=
  existsb (String.eqb key)
    ["constructor"; "hasOwnProperty"; "isPrototypeOf";
     "propertyIsEnumerable"; "toLocaleString"; "toString"; "valueOf";
     "__proto__"; "__defineGetter__"; "__defineSetter__";
     "__lookupGetter__"; "__lookupSetter__"].

(** Truthiness of a number that is an integer. *)
Definition truthy_number (n : Z) : bool := negb (n =? 0).

(** [!h[key]] on the headers object of the request. *)
Definition header_falsy (h : gmap string string) (key : string) : bool :=
  match h !! key with
  | None => true
  | Some v => negb (Str.truthy v)
  end.

Section Connection.

Variable options : Options.

(** *** The [sse] object *)

(** [cb(eventObject)] *)
Definition invoke (cb : Listener) (eventObject : Event.t) : Act unit :=
  emit (Called (ident cb) eventObject) >>
  match call cb eventObject with
  | None => ret tt
  | Some error => throw error
  end.

(** [for (const cb of callbacks) cb(eventObject)] *)
Fixpoint for_of (callbacks : list Listener) (eventObject : Event.t)
  : Act unit :=
  match callbacks with
  | [] => ret tt
  | cb :: rest => invoke cb eventObject >> for_of rest eventObject
  end.

(** [typeof handler === 'function'] and then [handler(eventObject)] *)
Definition invoke_handler (handler : option Listener)
    (eventObject : Event.t) : Act unit :=
  match handler with
  | Some h => invoke h eventObject
  | None => ret tt
  end.

Definition addEventListener (event : string) (callback : Listener)
  : Act unit :=
  if inherited event then throw (TypeError NotAFunction)
  else
    modify (fun s =>
      set_listeners
        (<[event := default [] (listeners s !! event) ++ [callback]]>
           (listeners s)) s).

Definition removeEventListener (event : string) (callback : Listener)
  : Act unit :=
  if inherited event then throw (TypeError NotAFunction)
  else
    modify (fun s =>
      match listeners s !! event with
      | None => s
      | Some registered =>
          let kept :=
            List.filter
              (fun cb => negb (Nat.eqb (ident cb) (ident callback)))
              registered in
          match kept with
          | [] => set_listeners (delete event (listeners s)) s
          | _ => set_listeners (<[event := kept]> (listeners s)) s
          end
      end).

Definition dispatchEvent (event : string) (data : EventData)
    (eventId : option string) : Act unit :=
  match url_origin options with
  | None => throw (TypeError InvalidURL)
  | Some origin =>
      let eventObject :=
        {| Event.type := event; Event.data := data;
           Event.lastEventId := eventId; Event.origin := origin |} in
      emit (Built eventObject) >>
      let* s := get in
      (if inherited event then throw (TypeError NotIterable)
       else for_of (default [] (listeners s !! event)) eventObject) >>
      let* s := get in
      if String.eqb event "message" then
        invoke_handler (onmessage s) eventObject
      else if String.eqb event "error" then
        invoke_handler (onerror s) eventObject
      else if String.eqb event "open" then
        invoke_handler (onopen s) eventObject
      else ret tt
  end.

(** [clearTimeout(retryTimeout)]: the timer, if one is set, will not fire. *)
Definition clearTimeout : Act unit :=
  emit ClearTimeout >> modify (set_retryTimeout None).

Definition close : Act unit :=
  modify (set_isClosed true) >>
  modify (set_readyState CLOSED) >>
  clearTimeout >>
  let* s := get in
  (if abortController s then emit Abort else ret tt) >>
  (if reader s then emit CancelReader else ret tt) >>
  modify (set_listeners ∅).

Definition getLastEventId (s : State) : option string := lastEventId s.

Definition setLastEventId (id : option string) : Act unit :=
  modify (set_lastEventId id).

(** *** Building the request *)

Definition sends_body (m : string) : bool :=
  existsb (String.eqb (Str.toUpperCase m)) ["POST"; "PUT"; "PATCH"].

Definition buildFetchOptions (s : State) : Fetch.t :=
  let fetchHeaders : gmap string string :=
    headers options
    ∪ <["Accept" := "text/event-stream"]>
        (<["Cache-Control" := "no-cache"]> ∅) in
  let fetchHeaders :=
    match lastEventId s with
    | Some id => <["Last-Event-ID" := id]> fetchHeaders
    | None => fetchHeaders
    end in
  let with_body (h : gmap string string) (b : option string) :=
    {| Fetch.method := method options;
       Fetch.headers := h;
       Fetch.credentials := credentials options;
       Fetch.mode := mode options;
       Fetch.cache := cache options;
       Fetch.redirect := redirect options;
       Fetch.referrer := referrer options;
       Fetch.referrerPolicy := referrerPolicy options;
       Fetch.integrity := integrity options;
       Fetch.keepalive := keepalive options;
       Fetch.body := b |} in
  if sends_body (method options) then
    match body options with
    | BodyNull => with_body fetchHeaders None
    | BodyObject json =>
        if header_falsy fetchHeaders "Content-Type"
           && header_falsy fetchHeaders "content-type"
        then with_body (<["Content-Type" := "application/json"]> fetchHeaders)
               (Some json)
        else with_body fetchHeaders (Some json)
    | BodyRaw payload => with_body fetchHeaders (Some payload)
    end
  else with_body fetchHeaders None.

(** *** The retry policy *)

Definition shouldRetry (error : Failure.t) (s : State) : bool :=
  match customRetryLogic options with
  | Some custom => custom error (retryCount s)
  | None =>
      if match maxRetries options with
         | Some m => m <=? retryCount s
         | None => false
         end
      then false
      else if match Failure.status error with
              | Some st =>
                  truthy_number st
                  && existsb (Z.eqb st) [400; 401; 403; 404; 410]
              | None => false
              end
      then false
      else true
  end.

(** *** Connecting and reconnecting *)

Definition connect : Act unit :=
  modify (set_readyState CONNECTING) >>
  modify (set_abortController true) >>
  let* s := get in
  emit (DoFetch (url options) (buildFetchOptions s)) >>
  modify (set_pending AwaitingResponse).

Definition scheduleReconnect : Act unit :=
  let* s := get in
  if isClosed s then ret tt
  else
    clearTimeout >>
    let retryError :=
      {| Failure.status := None;
         Failure.retryCount := retryCount s;
         Failure.lastError := "Connection lost" |} in
    if negb (shouldRetry retryError s) then
      emit (Console WarnNoRetry) >> close
    else
      modify (set_retryCount (retryCount s + 1)) >>
      let* s := get in
      emit (Console (InfoScheduling (retryCount s) (currentRetryDelay s))) >>
      emit (SetTimeout (currentRetryDelay s)) >>
      modify (set_retryTimeout (Some (currentRetryDelay s))).

(** The callback of [setTimeout]. *)
Definition onTimer : Act unit :=
  let* s := get in
  if isClosed s then ret tt else connect.

(** *** Reading the stream *)

(** The body of the [while] loop for one frame, from the test
    [eventData.trim()] on. *)
Definition processFrame (eventData : string) : Act unit :=
  if Str.truthy (Str.trim eventData) then
    let parsed := parseSSEEvent eventData in
    match eventId parsed with
    | Some id => modify (set_lastEventId (Some id))
    | None => ret tt
    end >>
    match retry parsed with
    | Some delay => modify (set_currentRetryDelay delay)
    | None => ret tt
    end >>
    if Str.truthy (eventDataString parsed) then
      dispatchEvent (eventName parsed) (DataText (eventDataString parsed))
        (eventId parsed)
    else ret tt
  else ret tt.

(** The [while (boundary !== -1)] loop; the result is the buffer it leaves.
    Every turn removes at least two code units from the buffer, so
    [String.length buffer] turns always suffice ([drain_enough]). *)
Fixpoint drain (turns : nat) (buffer : string) : Act string :=
  match turns with
  | O => ret buffer
  | S turns' =>
      match Str.indexOf (Str.nl +:+ Str.nl) buffer with
      | None => ret buffer
      | Some boundary =>
          let eventData := Str.slice_to boundary buffer in
          let buffer' := Str.slice_from (boundary + 2) buffer in
          processFrame eventData >> drain turns' buffer'
      end
  end.

(** [read()]: the next chunk is awaited with the buffer as it stands. *)
Definition read (buffer : string) : Act unit :=
  modify (set_pending (AwaitingChunk buffer)).

(** The callback of [reader.read().then]: [None] is [done], and [Some text]
    is a chunk, already decoded by the stream decoder. *)
Definition onRead (buffer : string) (result : option string) : Act unit :=
  match result with
  | None =>
      let* s := get in
      if isClosed s then ret tt else scheduleReconnect
  | Some text =>
      let buffer := buffer +:+ text in
      let* buffer := drain (String.length buffer) buffer in
      read buffer
  end.

(** The callback of the [catch] on [reader.read().then(..)]. *)
Definition onReadError (error : Thrown) : Act unit :=
  let* s := get in
  if isClosed s then ret tt
  else dispatchEvent "error" (message_of error) None >> scheduleReconnect.

(** The callback of [fetch(..).then]. *)
Definition onResponse (response : Response) : Act unit :=
  if negb (ok response) then
    throw (Error ("HTTP " +:+ Str.of_Z (status response) +:+ ": "
                  +:+ statusText response)
             (Some (status response)))
  else
    (if match contentType response with
        | None => true
        | Some ct =>
            negb (Str.truthy ct) || negb (Str.includes "text/event-stream" ct)
        end
     then emit (Console (WarnNotEventStream (contentType response)))
     else ret tt) >>
    modify (set_readyState OPEN) >>
    modify (set_retryCount 0) >>
    emit (Console InfoEstablished) >>
    dispatchEvent "open" DataNull None >>
    (if hasBody response then modify (set_reader true)
     else throw (TypeError NullBody)) >>
    read "".

(** The callback of the [catch] on [fetch(..).then(..)]. *)
Definition onConnectError (error : Thrown) : Act unit :=
  let* s := get in
  if isClosed s then ret tt
  else
    emit (Console (ErrorConnection error)) >>
    dispatchEvent "error" (message_of error) None >>
    scheduleReconnect.

(** *** The event loop *)

(** What happens next: the transport settles a promise, the timer fires,
    or the caller uses the [sse] object. *)
Inductive Input :=
| FetchResolved (response : Response)
| FetchRejected (error : Thrown)
| ReadResolved (result : option string)
| ReadRejected (error : Thrown)
| TimerFired
| CallAddEventListener (event : string) (callback : Listener)
| CallRemoveEventListener (event : string) (callback : Listener)
| CallClose
| CallSetLastEventId (id : option string)
| AssignOnmessage (handler : option Listener)
| AssignOnerror (handler : option Listener)
| AssignOnopen (handler : option Listener).

(** Runs a promise callback; what it throws is an unhandled rejection. *)
Definition settle (c : Act unit) (s : State) : State * list Effect :=
  match c s with
  | (Returned _, s', out) => (s', out)
  | (Threw error, s', out) => (s', out ++ [UnhandledRejection error])
  end.

(** Runs a method the caller calls; what it throws reaches the caller. *)
Definition called (c : Act unit) (s : State) : State * list Effect :=
  match c s with
  | (Returned _, s', out) => (s', out)
  | (Threw error, s', out) => (s', out ++ [ThrownToCaller error])
  end.

(** One turn of the event loop. A promise that is not pending cannot
    settle and a timer that is not set cannot fire: such an input leaves
    the connection as it is. *)
Definition step (s : State) (i : Input) : State * list Effect :=
  match i with
  | FetchResolved response =>
      match pending s with
      | AwaitingResponse =>
          settle (modify (set_pending NoRequest) >>
                  catch (onResponse response) onConnectError) s
      | _ => (s, [])
      end
  | FetchRejected error =>
      match pending s with
      | AwaitingResponse =>
          settle (modify (set_pending NoRequest) >> onConnectError error) s
      | _ => (s, [])
      end
  | ReadResolved result =>
      match pending s with
      | AwaitingChunk buffer =>
          settle (modify (set_pending NoRequest) >>
                  catch (onRead buffer result) onReadError) s
      | _ => (s, [])
      end
  | ReadRejected error =>
      match pending s with
      | AwaitingChunk buffer =>
          settle (modify (set_pending NoRequest) >> onReadError error) s
      | _ => (s, [])
      end
  | TimerFired =>
      match retryTimeout s with
      | Some _ => settle (modify (set_retryTimeout None) >> onTimer) s
      | None => (s, [])
      end
  | CallAddEventListener event callback =>
      called (addEventListener event callback) s
  | CallRemoveEventListener event callback =>
      called (removeEventListener event callback) s
  | CallClose => called close s
  | CallSetLastEventId id => called (setLastEventId id) s
  | AssignOnmessage handler => (set_onmessage handler s, [])
  | AssignOnerror handler => (set_onerror handler s, [])
  | AssignOnopen handler => (set_onopen handler s, [])
  end.

(** A run of the event loop over the inputs, in order. *)
Fixpoint run (s : State) (inputs : list Input) : State * list Effect :=
  match inputs with
  | [] => (s, [])
  | i :: rest =>
      let '(s1, out1) := step s i in
      let '(s2, out2) := run s1 rest in
      (s2, out1 ++ out2)
  end.

(** The variables as [fetchSSE] declares them. *)
Definition initial : State :=
  {| abortController := false; reader := false; isClosed := false;
     retryTimeout := None; retryCount := 0; lastEventId := None;
     currentRetryDelay := retryDelay options;
     listeners := ∅; onmessage := None; onerror := None; onopen := None;
     readyState := CONNECTING; pending := NoRequest |}.

(** [fetchSSE(url, options)]: the first [connect()], and the [sse] object
    the caller gets. *)
Definition fetchSSE : State * list Effect := settle connect initial.

End Connection.

(** ** Notions the properties are stated with *)

(** The field a line holds, as [parsePart] computes it: nothing for a line
    without colon, else the key and the value. *)
Definition field (part : string) : option (string * string) :=
  match Str.indexOf ":" part with
  | None => None
  | Some colonIndex =>
      Some (Str.trim (Str.slice_to colonIndex part),
            Str.trim (Str.slice_from (colonIndex + 1) part))
  end.

(** The values of the lines whose key is [key], in order. *)
Definition values (key : string) (parts : list string) : list string :=
  omap (fun part =>
          match field part with
          | Some (k, v) => if String.eqb k key then Some v else None
          | None => None
          end) parts.

Definition field_values (key eventData : string) : list string :=
  values key (Str.split Str.LF eventData).

(** The values without the empty ones at the front. *)
Fixpoint drop_empty (vs : list string) : list string :=
  match vs with
  | EmptyString :: rest => drop_empty rest
  | _ => vs
  end.

(** The values joined by single line breaks, the empty ones at the front
    left out. *)
Definition join_data (vs : list string) : string :=
  String.concat Str.nl (drop_empty vs).

(** What [parseSSEEvent] starts from. *)
Definition no_fields : ParsedEvent :=
  {| eventName := "message"; eventDataString := "";
     eventId := None; retry := None |}.

(** The retry directive of a list of [retry] values: the last that
    [parseInt] reads as a number. *)
Definition directive (vs : list string) : option Z :=
  last (omap Str.parseInt vs).

(** All code units of the string satisfy [P]. *)
Fixpoint all_chars (P : ascii -> bool) (s : string) : bool :=
  match s with
  | EmptyString => true
  | String c s' => P c && all_chars P s'
  end.

Definition no_colon (s : string) : bool :=
  all_chars (fun c => negb (Ascii.eqb c ":"%char)) s.

Definition no_LF (s : string) : bool :=
  all_chars (fun c => negb (Ascii.eqb c Str.LF)) s.

(** The first and the last code unit are no white space. *)
Definition tight (s : string) : bool :=
  match s with
  | EmptyString => true
  | String c _ => negb (Str.is_ws c)
  end
  && String.eqb (Str.trimEnd s) s.

(** The frame whose lines are the [data] fields with the given raw values. *)
Definition data_frame (raw : list string) : string :=
  String.concat Str.nl (map (fun v => "data:" +:+ v) raw).

(** The frame with these lines. *)
Definition lines_frame (lines : list string) : string :=
  String.concat Str.nl lines.





(** The reading of a line in the wire format the specification describes:
    the name is what stands before the first colon, and the value what
    stands after it, less one leading space if there is one. *)
Module Wire.

Definition strip_one_space (s : string) : string :=
  match s with
  | String " "%char rest => rest
  | _ => s
  end.

Definition field (part : string) : option (string * string) :=
  match Str.indexOf ":" part with
  | None => None
  | Some colonIndex =>
      Some (Str.slice_to colonIndex part,
            strip_one_space (Str.slice_from (colonIndex + 1) part))
  end.

Definition data_values (parts : list string) : list string :=
  omap (fun part =>
          match field part with
          | Some (k, v) => if String.eqb k "data" then Some v else None
          | None => None
          end) parts.

(** The payload of a frame: its data values joined by a line break. *)
Definition payload (eventData : string) : string :=
  String.concat Str.nl (data_values (Str.split Str.LF eventData)).

End Wire.

(** The parts of what an action gives. *)
Definition outcome_of {A} (r : Outcome A * State * list Effect) : Outcome A :=
  fst (fst r).
Definition state_of {A} (r : Outcome A * State * list Effect) : State :=
  snd (fst r).
Definition effects_of {A} (r : Outcome A * State * list Effect)
  : list Effect := snd r.

(** The event objects constructed, in order. *)
Definition built (out : list Effect) : list Event.t :=
  omap (fun e => match e with Built ev => Some ev | _ => None end) out.

(** The delays of the timers set, in order. *)
Definition timeouts (out : list Effect) : list Z :=
  omap (fun e => match e with SetTimeout d => Some d | _ => None end) out.

(** The requests issued, in order. *)
Definition requests (out : list Effect) : list Fetch.t :=
  omap (fun e => match e with DoFetch _ req => Some req | _ => None end) out.

(** The callback with this identity was called. *)
Definition invoked (callback : nat) (out : list Effect) : bool :=
  existsb (fun e => match e with
                    | Called c _ => Nat.eqb c callback
                    | _ => false
                    end) out.

(** The calls of the callbacks with one event object. *)
Definition calls (callbacks : list Listener) (ev : Event.t) : list Effect :=
  map (fun cb => Called (ident cb) ev) callbacks.

Definition returns (ev : Event.t) (cb : Listener) : bool :=
  match call cb ev with None => true | Some _ => false end.

(** The callbacks a loop over [callbacks] reaches: those up to and with the
    first that throws. *)
Fixpoint reached (callbacks : list Listener) (ev : Event.t) : list Listener :=
  match callbacks with
  | [] => []
  | cb :: rest => cb :: (if returns ev cb then reached rest ev else [])
  end.

(** What the first callback that throws has thrown. *)
Fixpoint first_thrown (callbacks : list Listener) (ev : Event.t)
  : option Thrown :=
  match callbacks with
  | [] => None
  | cb :: rest =>
      match call cb ev with
      | Some error => Some error
      | None => first_thrown rest ev
      end
  end.

Definition outcome_for (thrown : option Thrown) : Outcome unit :=
  match thrown with
  | None => Returned tt
  | Some error => Threw error
  end.

(** The handler property [dispatchEvent] looks at for the event name. *)
Definition handler_for (s : State) (event : string) : option Listener :=
  if String.eqb event "message" then onmessage s
  else if String.eqb event "error" then onerror s
  else if String.eqb event "open" then onopen s
  else None.

(** The callbacks registered for the event name, in registration order. *)
Definition registered (s : State) (event : string) : list Listener :=
  default [] (listeners s !! event).

(** Every callback [dispatchEvent] would call for the event: the registered
    ones and then the handler. *)
Definition targets (s : State) (event : string) : list Listener :=
  registered s event ++ option_list (handler_for s event).

(** The event object [dispatchEvent] builds. *)
Definition event_object (origin event : string) (data : EventData)
    (eventId : option string) : Event.t :=
  {| Event.type := event; Event.data := data;
     Event.lastEventId := eventId; Event.origin := origin |}.

(** The event object of a parsed frame. *)
Definition frame_event (origin : string) (parsed : ParsedEvent) : Event.t :=
  event_object origin (eventName parsed)
    (DataText (eventDataString parsed)) (eventId parsed).

(** The assignments the read loop makes for a parsed frame before it
    dispatches: the id and the retry delay, each if the frame has one. *)
Definition bookkeeping (parsed : ParsedEvent) (s : State) : State :=
  let s1 := match eventId parsed with
            | Some id => set_lastEventId (Some id) s
            | None => s
            end in
  match retry parsed with
  | Some delay => set_currentRetryDelay delay s1
  | None => s1
  end.

(** The complete frames the read loop takes off a buffer, in order: the
    splitting of [drain] without the processing. *)
Fixpoint frames (turns : nat) (buffer : string) : list string :=
  match turns with
  | O => []
  | S turns' =>
      match Str.indexOf (Str.nl +:+ Str.nl) buffer with
      | None => []
      | Some boundary =>
          Str.slice_to boundary buffer
          :: frames turns' (Str.slice_from (boundary + 2) buffer)
      end
  end.

(** What is left of the buffer when the read loop ends. *)
Fixpoint remainder (turns : nat) (buffer : string) : string :=
  match turns with
  | O => buffer
  | S turns' =>
      match Str.indexOf (Str.nl +:+ Str.nl) buffer with
      | None => buffer
      | Some boundary =>
          remainder turns' (Str.slice_from (boundary + 2) buffer)
      end
  end.

(** The loop body for each of the frames, in order. *)
Fixpoint process_all (options : Options) (eventDatas : list string)
  : Act unit :=
  match eventDatas with
  | [] => ret tt
  | eventData :: rest =>
      processFrame options eventData >> process_all options rest
  end.

(** The complete frames a chunk brings: those of the buffer the pending
    read holds with the chunk added. *)
Definition chunk_frames (s : State) (text : string) : list string :=
  match pending s with
  | AwaitingChunk buffer =>
      frames (String.length (buffer +:+ text)) (buffer +:+ text)
  | _ => []
  end.

Definition no_directive (eventData : string) : bool :=
  match retry (parseSSEEvent eventData) with
  | None => true
  | Some _ => false
  end.

(** The turn brings no frame with a retry directive. *)
Definition silent (s : State) (i : Input) : bool :=
  match i with
  | ReadResolved (Some text) => forallb no_directive (chunk_frames s text)
  | _ => true
  end.

(** No turn of the run brings a frame with a retry directive. *)
Fixpoint undirected (options : Options) (s : State) (inputs : list Input)
  : bool :=
  match inputs with
  | [] => true
  | i :: rest =>
      silent s i && undirected options (fst (step options s i)) rest
  end.

(** The id after the frames, in order, when it was [id] before: each frame
    with an id field overwrites it. *)
Definition last_write (id : option string) (eventDatas : list string)
  : option string :=
  fold_left (fun held eventData =>
               match eventId (parseSSEEvent eventData) with
               | Some id' => Some id'
               | None => held
               end) eventDatas id.

(** *** Relations between the state before, the state after and the
    effects of an action *)

Definition Rel : Type := State -> State -> list Effect -> Prop.

(** The action, run from [s], is within the relation. *)
Definition sat {A} (R : Rel) (c : Act A) (s : State) : Prop :=
  R s (state_of (c s)) (effects_of (c s)).

(** An action in [R1] followed by one in [R2] is in [R3]. *)
Definition composes (R1 R2 R3 : Rel) : Prop :=
  forall s s1 s2 out1 out2,
    R1 s s1 out1 -> R2 s1 s2 out2 -> R3 s s2 (out1 ++ out2).

Definition included (R1 R3 : Rel) : Prop :=
  forall s s1 out1, R1 s s1 out1 -> R3 s s1 out1.

(** The connection is not closed and stays so. *)
Definition stays_open : Rel :=
  fun s s' _ =>
    isClosed s = false -> readyState s <> CLOSED ->
    isClosed s' = false /\ readyState s' <> CLOSED.

(** No timer is set. *)
Definition sets_no_timer : Rel := fun _ _ out => timeouts out = [].

(** The retry delay ends as [d]. *)
Definition delay_is (d : Z) : Rel :=
  fun _ s' _ => currentRetryDelay s' = d.

(** The retry delay is kept, and it is the delay of every timer set. *)
Definition keeps_delay : Rel :=
  fun s s' out =>
    currentRetryDelay s' = currentRetryDelay s
    /\ Forall (fun delay => delay = currentRetryDelay s) (timeouts out).

(** Every timer set has the retry delay the state ends with. *)
Definition timers_use_delay : Rel :=
  fun _ s' out =>
    Forall (fun delay => delay = currentRetryDelay s') (timeouts out).

(** The turn can write the last event id: it brings a chunk, or it is a
    call of [setLastEventId]. *)
Definition writes (i : Input) : bool :=
  match i with
  | ReadResolved (Some _) | CallSetLastEventId _ => true
  | _ => false
  end.

(** What the [Last-Event-ID] header of a request is to be when the
    connection holds [id]: the id, or else what the caller's own headers
    have under that name, if anything. *)
Definition resumption (options : Options) (id : option string)
  : option string :=
  match id with
  | Some held => Some held
  | None => headers options !! "Last-Event-ID"
  end.

(** The last event id is kept, and every request carries it. *)
Definition resumes (options : Options) : Rel :=
  fun s s' out =>
    lastEventId s' = lastEventId s
    /\ Forall
         (fun request =>
            Fetch.headers request !! "Last-Event-ID"
            = resumption options (lastEventId s))
         (requests out).

(** The last event id is kept. *)
Definition keeps_id : Rel :=
  fun s s' _ => lastEventId s' = lastEventId s.

(** No request is issued. *)
Definition no_request : Rel := fun _ _ out => requests out = [].

(** The last event id is what the frames processed, some first frames of
    [eventDatas], have made of it. *)
Definition writes_id (eventDatas : list string) : Rel :=
  fun s s' _ =>
    exists processed rest,
      eventDatas = processed ++ rest
      /\ lastEventId s' = last_write (lastEventId s) processed.







(** The input is a call of [close] by the caller. *)
Definition is_close (i : Input) : bool :=
  match i with CallClose => true | _ => false end.

(** The object [scheduleReconnect] makes for the retry policy. *)
Definition retry_context (s : State) : Failure.t :=
  {| Failure.status := None;
     Failure.retryCount := retryCount s;
     Failure.lastError := "Connection lost" |}.

(** The frames of a chunk the read loop runs its body for: all of them, or
    those up to and with the first for which the body throws. *)
Fixpoint attempted (options : Options) (eventDatas : list string) (s : State)
  : list string :=
  match eventDatas with
  | [] => []
  | eventData :: rest =>
      match processFrame options eventData s with
      | (Returned _, s1, _) => eventData :: attempted options rest s1
      | (Threw _, _, _) => [eventData]
      end
  end.

(** The retry delay after the frames, in order, when it was [delay]
    before: each frame with a retry directive overwrites it. *)
Definition last_delay (delay : Z) (eventDatas : list string) : Z :=
  fold_left (fun held eventData =>
               match retry (parseSSEEvent eventData) with
               | Some d => d
               | None => held
               end) eventDatas delay.

(** The turn is a failure of the connection: a response with a status
    outside 200..299, a request that is rejected, or a stream that ends or
    breaks. *)
Definition fails (s : State) (i : Input) : bool :=
  match i, pending s with
  | FetchResolved response, AwaitingResponse => negb (ok response)
  | FetchRejected _, AwaitingResponse => true
  | ReadResolved None, AwaitingChunk _ => true
  | ReadRejected _, AwaitingChunk _ => true
  | _, _ => false
  end.

(** What a failure turn from [s] comes to when the custom policy decides
    on the context [scheduleReconnect] makes: a timer with the current
    delay for a yes, the closed connection for a no. *)
Definition follows (custom : Failure.t -> Z -> bool) (s after : State)
    (out : list Effect) : Prop :=
  if custom (retry_context s) (retryCount s)
  then isClosed after = false
       /\ retryCount after = retryCount s + 1
       /\ retryTimeout after = Some (currentRetryDelay s)
       /\ timeouts out = [currentRetryDelay s]
  else isClosed after = true
       /\ readyState after = CLOSED
       /\ retryTimeout after = None
       /\ timeouts out = [].

(** *** The claims that fail, as they are stated *)


(** C2 as stated: when a callback registered for the event throws, every
    callback registered after it is called all the same. *)
Definition C2_as_stated (options : Options) (s : State) (event : string)
    (data : EventData) (eventId : option string) : Prop :=
  forall origin before cb after later,
    url_origin options = Some origin ->
    registered s event = before ++ cb :: after ->
    returns (event_object origin event data eventId) cb = false ->
    In later after ->
    invoked (ident later)
      (effects_of (dispatchEvent options event data eventId s)) = true.


(** *** Sample data *)

Module Sample.

Definition options : Options :=
  default_options "https://api.example.com/stream"
    (Some "https://api.example.com").

Definition quiet (n : nat) : Listener :=
  {| ident := n; call := fun _ => None |}.

Definition thrower (n : nat) : Listener :=
  {| ident := n; call := fun _ => Some (Error "boom" None) |}.

Definition response (code : Z) : Response :=
  {| status := code; statusText := "status text";
     contentType := Some "text/event-stream"; hasBody := true |}.

(** The connection once the first response has arrived with status 200. *)
Definition opened : State :=
  fst (step options (fst (fetchSSE options)) (FetchResolved (response 200))).

(** An open connection with two callbacks for [message], the first of
    which throws. *)
Definition two_listeners : State :=
  fst (run options opened
         [CallAddEventListener "message" (thrower 1);
          CallAddEventListener "message" (quiet 2)]).

(** An open connection with one callback for [message]. *)
Definition listening : State :=
  fst (step options opened (CallAddEventListener "message" (quiet 2))).

(** The options with a custom retry policy that always says yes. *)
Definition always_retry : Options :=
  {| url := url options; url_origin := url_origin options;
     method := "GET"; headers := ∅; body := BodyNull;
     credentials := "include"; mode := "cors";
     retryDelay := 3000; maxRetries := Some 2;
     customRetryLogic := Some (fun _ _ => true);
     cache := "no-cache"; redirect := "follow";
     referrer := None; referrerPolicy := None; integrity := None;
     keepalive := None |}.

(** The retry policy of the README's example: no retry on a 4xx status,
    and else up to five. *)
Definition refuse_4xx (error : Failure.t) (retryCount : Z) : bool :=
  match Failure.status error with
  | Some st => if (400 <=? st) && (st <? 500) then false else retryCount <? 5
  | None => retryCount <? 5
  end.

(** The options with that policy. *)
Definition refusing : Options :=
  {| url := url options; url_origin := url_origin options;
     method := "GET"; headers := ∅; body := BodyNull;
     credentials := "include"; mode := "cors";
     retryDelay := 3000; maxRetries := None;
     customRetryLogic := Some refuse_4xx;
     cache := "no-cache"; redirect := "follow";
     referrer := None; referrerPolicy := None; integrity := None;
     keepalive := None |}.

(** The options with a configured delay of 5000 ms and two retries. *)
Definition configured : Options :=
  {| url := url options; url_origin := url_origin options;
     method := "GET"; headers := ∅; body := BodyNull;
     credentials := "include"; mode := "cors";
     retryDelay := 5000; maxRetries := Some 2;
     customRetryLogic := None;
     cache := "no-cache"; redirect := "follow";
     referrer := None; referrerPolicy := None; integrity := None;
     keepalive := None |}.

(** The connection with these options once it is open. *)
Definition configured_open : State :=
  fst (step configured (fst (fetchSSE configured))
         (FetchResolved (response 200))).


Definition notice_frame : string :=
  "event: notice" +:+ Str.nl +:+ "data: hello" +:+ Str.nl +:+ "id: 1"
  +:+ Str.nl +:+ Str.nl.

Definition ab_frame : string :=
  "data: a" +:+ Str.nl +:+ "data: b" +:+ Str.nl +:+ Str.nl.

(** A chunk of three frames: a comment, a retry directive and a message. *)
Definition keep_alive_chunk : string :=
  ": keep-alive" +:+ Str.nl +:+ Str.nl +:+ "retry: 1500" +:+ Str.nl +:+ Str.nl
  +:+ "data: y" +:+ Str.nl +:+ Str.nl.

(** The listening connection once it has read [notice_frame]. *)
Definition after_notice : State :=
  fst (step options listening (ReadResolved (Some notice_frame))).

End Sample.

(** ** Further notions *)

(** The blank line that ends a frame, ['\n\n']. *)
Definition blank_line : string := Str.nl +:+ Str.nl.

(** All complete frames of a buffer, and what the read loop leaves of it. *)
Definition all_frames (buffer : string) : list string :=
  frames (String.length buffer) buffer.

Definition leftover (buffer : string) : string :=
  remainder (String.length buffer) buffer.

(** The frames written back, each with the blank line that ended it. *)
Definition framed (eventDatas : list string) : string :=
  String.concat "" (map (fun eventData => eventData +:+ blank_line) eventDatas).

(** The pending promise is kept. *)
Definition keeps_pending : Rel := fun s s' _ => pending s' = pending s.

(** The line sets something: it has a field the parser knows, and if that
    is [retry], its value reads as a number. *)
Definition significant (part : string) : bool :=
  match field part with
  | Some (key, value) =>
      String.eqb key "event" || String.eqb key "data" || String.eqb key "id"
      || (String.eqb key "retry"
          && match Str.parseInt value with Some _ => true | None => false end)
  | None => false
  end.

(** Another callback than [callback]: [cb !== callback]. *)
Definition other_than (callback cb : Listener) : bool :=
  negb (Nat.eqb (ident cb) (ident callback)).

(** No event name has an empty array of callbacks. *)
Definition no_empty_entry (s : State) : Prop :=
  forall event, listeners s !! event <> Some [].

Definition keeps_entries : Rel :=
  fun s s' _ => no_empty_entry s -> no_empty_entry s'.

(** A closed connection stays closed, issues no request and sets no
    timer. *)
Definition stays_closed : Rel :=
  fun s s' out =>
    isClosed s = true ->
    isClosed s' = true /\ requests out = [] /\ timeouts out = [].

(** The turn brings a response with a status from 200 to 299. *)
Definition succeeds (i : Input) : bool :=
  match i with
  | FetchResolved response => ok response
  | _ => false
  end.

(** The requests a connection can still issue under the default policy with
    at most [m] retries, as long as no response succeeds: one for each
    retry left, and one for the timer that is set. *)
Definition budget (m : Z) (s : State) : Z :=
  Z.max 0 (m - retryCount s)
  + (match retryTimeout s with Some _ => 1 | None => 0 end).

(** Every request issued is paid from the budget. *)
Definition spends (m : Z) : Rel :=
  fun s s' out =>
    Z.of_nat (length (requests out)) + budget m s' <= budget m s.


(** The request the options give when the connection holds the id. *)
Definition request_with (options : Options) (id : option string) : Fetch.t :=
  buildFetchOptions options (set_lastEventId id (initial options)).



(** A closed connection whose [readyState] says so stays so. *)
Definition stays_shut : Rel :=
  fun s s' _ =>
    isClosed s = true /\ readyState s = CLOSED ->
    isClosed s' = true /\ readyState s' = CLOSED.

(** *** Further sample data *)

Module MoreSample.

(** The end of a frame whose beginning came with the chunk before. *)
Definition seam_rest : string := "llo" +:+ Str.nl +:+ Str.nl.

(** The lines of a frame, most of which set nothing. *)
Definition noisy_lines : list string :=
  [": keep-alive"; "data: x"; "comment"; "foo: bar"; "retry: soon"; "id: 4"].

(** A server that is down: every attempt fails, and every timer fires. *)
Definition failures : list Input :=
  [FetchRejected (Error "network" None); TimerFired;
   FetchResolved (Sample.response 503); TimerFired;
   FetchResolved (Sample.response 404); TimerFired;
   FetchRejected (Error "network" None); TimerFired].

(** A connection with one callback for [message], before any response. *)
Definition registered_once : State :=
  fst (run Sample.options (fst (fetchSSE Sample.options))
         [CallAddEventListener "message" (Sample.quiet 2)]).

(** A caller that posts a JSON body with a token and an own [Accept]. *)
Definition posting : Options :=
  {| url := url Sample.options; url_origin := url_origin Sample.options;
     method := "post";
     headers := <["Authorization" := "Bearer t"]>
                  (<["Accept" := "application/x-ndjson"]> ∅);
     body := BodyObject "{}";
     credentials := "include"; mode := "cors";
     retryDelay := 3000; maxRetries := None; customRetryLogic := None;
     cache := "no-cache"; redirect := "follow";
     referrer := None; referrerPolicy := None; integrity := None;
     keepalive := None |}.

(** A complete frame and the beginning of the next. *)
Definition frame_and_a_half : string := Sample.notice_frame +:+ "data: par".

End MoreSample.

(** ** Facts about the string operations *)

Section Strings.

Lemma append_empty_r (s : string) : s +:+ "" = s.
Proof. induction s as [|c s IH]; simpl; [reflexivity | now rewrite IH]. Qed.

Lemma append_assoc (a b c : string) : (a +:+ b) +:+ c = a +:+ (b +:+ c).
Proof. induction a as [|x a IH]; simpl; [reflexivity | now rewrite IH]. Qed.

Lemma length_append (a b : string) :
  String.length (a +:+ b) = (String.length a + String.length b)%nat.
Proof. induction a as [|x a IH]; simpl; [reflexivity | now rewrite IH]. Qed.

Lemma substring_all (s : string) : String.substring 0 (String.length s) s = s.
Proof. induction s as [|c s IH]; simpl; [reflexivity | now rewrite IH]. Qed.

Lemma substring_length_le (s : string) (n m : nat) :
  (String.length (String.substring n m s) <= m)%nat.
Proof.
  revert n m. induction s as [|c s IH]; intros [|n] [|m]; simpl; try lia.
  - specialize (IH 0%nat m). lia.
  - apply (IH n 0%nat).
  - apply (IH n (S m)).
Qed.

Lemma substring_length_left (s : string) (n m : nat) :
  (String.length (String.substring n m s) <= String.length s - n)%nat.
Proof.
  revert n m. induction s as [|c s IH]; intros [|n] [|m]; simpl; try lia.
  - specialize (IH 0%nat m). lia.
  - apply (IH n 0%nat).
  - apply (IH n (S m)).
Qed.

(** Taking a frame and its blank line off the buffer makes it shorter. *)
Lemma boundary_shrinks (buffer : string) (boundary : nat) :
  Str.indexOf (Str.nl +:+ Str.nl) buffer = Some boundary ->
  (String.length (Str.slice_from (boundary + 2) buffer) + 2
   <= String.length buffer)%nat.
Proof.
  unfold Str.indexOf, Str.slice_from. intros Hindex.
  apply String.index_correct1 in Hindex.
  pose proof (substring_length_left buffer boundary
                (String.length (Str.nl +:+ Str.nl))) as Hfound.
  rewrite Hindex in Hfound. cbn in Hfound.
  pose proof (substring_length_le buffer (boundary + 2)
                (String.length buffer - (boundary + 2))).
  lia.
Qed.

Lemma slice_to_append (a b : string) :
  Str.slice_to (String.length a) (a +:+ b) = a.
Proof.
  unfold Str.slice_to. induction a as [|x a IH]; simpl.
  - destruct b; reflexivity.
  - now rewrite IH.
Qed.

Lemma slice_from_append (a b : string) :
  Str.slice_from (String.length a) (a +:+ b) = b.
Proof.
  unfold Str.slice_from. rewrite length_append.
  replace (String.length a + String.length b - String.length a)%nat
    with (String.length b) by lia.
  induction a as [|x a IH]; simpl; [apply substring_all | exact IH].
Qed.

Lemma slice_from_append_char (a b : string) (c : ascii) :
  Str.slice_from (String.length a + 1) (a +:+ String c b) = b.
Proof.
  replace (a +:+ String c b) with ((a +:+ String c "") +:+ b)
    by (rewrite append_assoc; reflexivity).
  replace (String.length a + 1)%nat with (String.length (a +:+ String c ""))
    by (rewrite length_append; reflexivity).
  apply slice_from_append.
Qed.

(** [indexOf] of a pattern of one code unit, one code unit at a time. *)
Lemma index_char_cons (d c : ascii) (s : string) :
  String.index 0 (String d "") (String c s)
  = if Ascii.eqb c d then Some 0%nat
    else match String.index 0 (String d "") s with
         | Some n => Some (S n)
         | None => None
         end.
Proof.
  cbn [String.index String.prefix].
  destruct (ascii_dec d c) as [->|Hne].
  - rewrite Ascii.eqb_refl. destruct s; reflexivity.
  - destruct (Ascii.eqb_spec c d) as [->|_]; [contradiction | reflexivity].
Qed.

(** The first colon of a line is where the colon-free text before it ends. *)
Lemma indexOf_first_colon (before after : string) :
  no_colon before = true ->
  Str.indexOf ":" (before +:+ String ":" after)
  = Some (String.length before).
Proof.
  unfold Str.indexOf, no_colon.
  induction before as [|c before IH]; intros H.
  - cbn [String.append String.length]. now rewrite index_char_cons.
  - cbn [String.append String.length all_chars] in *.
    apply andb_true_iff in H as [Hc H]. apply negb_true_iff in Hc.
    now rewrite index_char_cons, Hc, (IH H).
Qed.

Lemma indexOf_colon_none (s : string) :
  no_colon s = true -> Str.indexOf ":" s = None.
Proof.
  unfold Str.indexOf, no_colon.
  induction s as [|c s IH]; intros H; [reflexivity |].
  cbn [all_chars] in H.
  apply andb_true_iff in H as [Hc H]. apply negb_true_iff in Hc.
  now rewrite index_char_cons, Hc, (IH H).
Qed.

Lemma all_chars_append (P : ascii -> bool) (a b : string) :
  all_chars P (a +:+ b) = all_chars P a && all_chars P b.
Proof.
  induction a as [|c a IH]; simpl; [reflexivity |].
  now rewrite IH, andb_assoc.
Qed.

Lemma all_chars_weaken (P Q : ascii -> bool) (s : string) :
  (forall c, P c = true -> Q c = true) ->
  all_chars P s = true -> all_chars Q s = true.
Proof.
  intros HPQ. induction s as [|c s IH]; simpl; [reflexivity |].
  intros H. apply andb_true_iff in H as [Hc H].
  now rewrite (HPQ _ Hc), (IH H).
Qed.

(** *** [split] *)

Lemma split_not_nil (sep : ascii) (s : string) : Str.split sep s <> [].
Proof.
  destruct s as [|c s]; simpl; [discriminate |].
  destruct (Ascii.eqb c sep); [discriminate |].
  destruct (Str.split sep s); discriminate.
Qed.

Lemma split_chars (P : ascii -> bool) (sep : ascii) (s : string) :
  all_chars P s = true ->
  Forall (fun part => all_chars P part = true) (Str.split sep s).
Proof.
  induction s as [|c s IH]; simpl; intros H.
  - constructor; [reflexivity | constructor].
  - apply andb_true_iff in H as [Hc H]. specialize (IH H).
    destruct (Ascii.eqb c sep).
    + constructor; [reflexivity | exact IH].
    + destruct (Str.split sep s) as [|part parts].
      * constructor; [simpl; now rewrite Hc | constructor].
      * inversion IH as [|? ? Hpart Hparts]; subst.
        constructor; [simpl; now rewrite Hc, Hpart | exact Hparts].
Qed.

Lemma split_line (a : string) :
  no_LF a = true -> Str.split Str.LF a = [a].
Proof.
  unfold no_LF. induction a as [|c a IH]; simpl; intros H; [reflexivity |].
  apply andb_true_iff in H as [Hc H].
  apply negb_true_iff in Hc. rewrite Hc, (IH H). reflexivity.
Qed.

Lemma split_line_break (a rest : string) :
  no_LF a = true ->
  Str.split Str.LF (a +:+ String Str.LF rest) = a :: Str.split Str.LF rest.
Proof.
  unfold no_LF. induction a as [|c a IH]; simpl; intros H; [reflexivity |].
  apply andb_true_iff in H as [Hc H].
  apply negb_true_iff in Hc. rewrite Hc, (IH H). reflexivity.
Qed.

(** Splitting at line breaks undoes joining lines with line breaks. *)
Lemma split_concat (lines : list string) :
  lines <> [] ->
  Forall (fun l => no_LF l = true) lines ->
  Str.split Str.LF (String.concat Str.nl lines) = lines.
Proof.
  induction lines as [|l lines IH]; intros Hne Hall; [contradiction |].
  inversion Hall as [|? ? Hl Hlines]; subst.
  destruct lines as [|l' lines].
  - simpl. now apply split_line.
  - change (String.concat Str.nl (l :: l' :: lines))
      with (l +:+ String Str.LF (String.concat Str.nl (l' :: lines))).
    rewrite (split_line_break _ _ Hl), IH; [reflexivity | discriminate | assumption].
Qed.

(** *** [trim] *)

Lemma trimStart_spec (s : string) :
  exists pre, s = pre +:+ Str.trimStart s
              /\ all_chars Str.is_ws pre = true
              /\ match Str.trimStart s with
                 | EmptyString => True
                 | String c _ => Str.is_ws c = false
                 end.
Proof.
  induction s as [|c s (pre & Heq & Hpre & Hhead)]; simpl.
  - exists ""; auto.
  - destruct (Str.is_ws c) eqn:Hc.
    + exists (String c pre). simpl. rewrite Hc, Hpre. rewrite <- Heq. auto.
    + exists "". simpl. auto.
Qed.

Lemma trimEnd_spec (s : string) :
  exists post, s = Str.trimEnd s +:+ post
               /\ all_chars Str.is_ws post = true.
Proof.
  induction s as [|c s (post & Heq & Hpost)]; simpl.
  - exists ""; auto.
  - destruct (Str.trimEnd s) as [|d t] eqn:Ht.
    + destruct (Str.is_ws c) eqn:Hc.
      * exists (String c s). simpl in *. subst post. rewrite Hc. auto.
      * exists post. simpl in *. subst post. auto.
    + exists post. simpl in *. rewrite <- Heq. auto.
Qed.

Lemma trimEnd_idempotent (s : string) :
  Str.trimEnd (Str.trimEnd s) = Str.trimEnd s.
Proof.
  induction s as [|c s IH]; simpl; [reflexivity |].
  destruct (Str.trimEnd s) as [|d t] eqn:Ht.
  - destruct (Str.is_ws c) eqn:Hc; simpl; [reflexivity | now rewrite Hc].
  - simpl in *. rewrite IH. reflexivity.
Qed.

Lemma trimEnd_head (c : ascii) (s : string) :
  Str.is_ws c = false -> exists t, Str.trimEnd (String c s) = String c t.
Proof.
  intros Hc. simpl. destruct (Str.trimEnd s); rewrite ?Hc; eauto.
Qed.

(** [trim] takes white space away at both ends, and only white space; what
    is left neither starts nor ends with white space. *)
Lemma trim_spec (s : string) :
  tight (Str.trim s) = true
  /\ exists pre post,
       s = pre +:+ Str.trim s +:+ post
       /\ all_chars Str.is_ws pre = true
       /\ all_chars Str.is_ws post = true.
Proof.
  unfold Str.trim, tight.
  destruct (trimStart_spec s) as (pre & Heq & Hpre & Hhead).
  destruct (trimEnd_spec (Str.trimStart s)) as (post & Heq' & Hpost).
  split.
  - rewrite trimEnd_idempotent, String.eqb_refl, andb_true_r.
    destruct (Str.trimStart s) as [|c t]; [reflexivity |].
    destruct (trimEnd_head c t Hhead) as (t' & ->). now rewrite Hhead.
  - exists pre, post. rewrite <- Heq', <- Heq. auto.
Qed.

Lemma trim_blank (s : string) :
  Str.truthy (Str.trim s) = false -> all_chars Str.is_ws s = true.
Proof.
  intros H. destruct (trim_spec s) as (_ & pre & post & Heq & Hpre & Hpost).
  destruct (Str.trim s); [| discriminate].
  rewrite Heq, all_chars_append, Hpre. simpl. exact Hpost.
Qed.

End Strings.

(** ** Facts about the frame parser *)

Section Parser.

(** [parsePart] by the field of the line. *)
Lemma parsePart_field (acc : ParsedEvent) (part : string) :
  parsePart acc part
  = match field part with
    | None => acc
    | Some (key, value) =>
        if String.eqb key "event" then
          {| eventName := value; eventDataString := eventDataString acc;
             eventId := eventId acc; retry := retry acc |}
        else if String.eqb key "data" then
          {| eventName := eventName acc;
             eventDataString :=
               eventDataString acc
               +:+ (if Str.truthy (eventDataString acc) then Str.nl else "")
               +:+ value;
             eventId := eventId acc; retry := retry acc |}
        else if String.eqb key "id" then
          {| eventName := eventName acc;
             eventDataString := eventDataString acc;
             eventId := Some value; retry := retry acc |}
        else if String.eqb key "retry" then
          match Str.parseInt value with
          | Some retryValue =>
              {| eventName := eventName acc;
                 eventDataString := eventDataString acc;
                 eventId := eventId acc; retry := Some retryValue |}
          | None => acc
          end
        else acc
    end.
Proof. unfold parsePart, field. destruct (Str.indexOf ":" part); reflexivity. Qed.

(** A line is split at its first colon; the name and the value are what
    stands before and after it, trimmed. *)
Lemma field_at_first_colon (before after : string) :
  no_colon before = true ->
  field (before +:+ String ":" after)
  = Some (Str.trim before, Str.trim after).
Proof.
  intros H. unfold field. rewrite (indexOf_first_colon _ _ H).
  now rewrite slice_to_append, slice_from_append_char.
Qed.

Lemma field_without_colon (part : string) :
  no_colon part = true -> field part = None.
Proof. intros H. unfold field. now rewrite (indexOf_colon_none _ H). Qed.

Lemma field_data (raw : string) :
  field ("data:" +:+ raw) = Some ("data", Str.trim raw).
Proof. exact (field_at_first_colon "data" raw eq_refl). Qed.

Lemma values_snoc (key : string) (parts : list string) (part : string) :
  values key (parts ++ [part])
  = values key parts
    ++ match field part with
       | Some (k, v) => if String.eqb k key then [v] else []
       | None => []
       end.
Proof.
  unfold values. rewrite omap_app. f_equal. simpl.
  destruct (field part) as [[k v]|]; [| reflexivity].
  destruct (String.eqb k key); reflexivity.
Qed.

(** *** Joining the data values *)

Lemma concat_snoc (x v : string) (xs : list string) :
  String.concat Str.nl ((x :: xs) ++ [v])
  = String.concat Str.nl (x :: xs) +:+ Str.nl +:+ v.
Proof.
  revert x. induction xs as [|y xs IH]; intros x; [reflexivity |].
  change (String.concat Str.nl ((x :: y :: xs) ++ [v]))
    with (x +:+ Str.nl +:+ String.concat Str.nl ((y :: xs) ++ [v])).
  rewrite IH.
  change (String.concat Str.nl (x :: y :: xs))
    with (x +:+ Str.nl +:+ String.concat Str.nl (y :: xs)).
  now rewrite !append_assoc.
Qed.

Lemma concat_truthy (c : ascii) (x : string) (xs : list string) :
  Str.truthy (String.concat Str.nl (String c x :: xs)) = true.
Proof. destruct xs; reflexivity. Qed.

Lemma join_data_snoc (vs : list string) (v : string) :
  join_data (vs ++ [v])
  = join_data vs
    +:+ (if Str.truthy (join_data vs) then Str.nl else "") +:+ v.
Proof.
  unfold join_data. induction vs as [|x vs IH].
  - destruct v; reflexivity.
  - destruct x as [|c x]; [exact IH |].
    change (drop_empty ((String c x :: vs) ++ [v]))
      with ((String c x :: vs) ++ [v]).
    change (drop_empty (String c x :: vs)) with (String c x :: vs).
    now rewrite concat_snoc, concat_truthy.
Qed.

(** *** What [parseSSEEvent] returns, by the fields of the lines *)

Lemma parse_lines (parts : list string) :
  let parsed := fold_left parsePart parts no_fields in
  eventName parsed = default "message" (last (values "event" parts))
  /\ eventDataString parsed = join_data (values "data" parts)
  /\ eventId parsed = last (values "id" parts)
  /\ retry parsed = directive (values "retry" parts).
Proof.
  induction parts as [|part parts IH] using rev_ind; [now cbn |].
  cbn zeta in *. destruct IH as (Hname & Hdata & Hid & Hretry).
  rewrite fold_left_app. cbn [fold_left].
  rewrite parsePart_field, !values_snoc.
  destruct (field part) as [[key value]|].
  2: { rewrite !app_nil_r. auto. }
  destruct (String.eqb_spec key "event") as [->|Hevent].
  { cbn. rewrite !app_nil_r, last_snoc. auto. }
  destruct (String.eqb_spec key "data") as [->|Hdata'].
  { cbn. rewrite !app_nil_r, join_data_snoc, <- Hdata. auto. }
  destruct (String.eqb_spec key "id") as [->|Hid'].
  { cbn. rewrite !app_nil_r, last_snoc. auto. }
  destruct (String.eqb_spec key "retry") as [->|Hretry'].
  { unfold directive in *. rewrite omap_app. cbn.
    rewrite !app_nil_r.
    destruct (Str.parseInt value) as [d|]; cbn.
    - rewrite last_snoc. auto.
    - rewrite app_nil_r. auto. }
  rewrite !app_nil_r. auto.
Qed.

Lemma parseSSEEvent_spec (eventData : string) :
  let parsed := parseSSEEvent eventData in
  eventName parsed
  = default "message" (last (field_values "event" eventData))
  /\ eventDataString parsed = join_data (field_values "data" eventData)
  /\ eventId parsed = last (field_values "id" eventData)
  /\ retry parsed = directive (field_values "retry" eventData).
Proof. exact (parse_lines (Str.split Str.LF eventData)). Qed.

(** A frame of white space only has no field. *)
Lemma blank_frame (eventData : string) :
  Str.truthy (Str.trim eventData) = false ->
  parseSSEEvent eventData = no_fields.
Proof.
  intros H. apply trim_blank in H.
  pose proof (split_chars _ Str.LF _ H) as Hparts.
  unfold parseSSEEvent. fold no_fields.
  induction Hparts as [|part parts Hpart _ IH]; [reflexivity |].
  cbn [fold_left]. rewrite parsePart_field, field_without_colon; [exact IH |].
  revert Hpart. apply all_chars_weaken.
  intros c Hc. destruct (Ascii.eqb_spec c ":"%char) as [->|]; [discriminate Hc | reflexivity].
Qed.

(** The parse of a frame given by its lines. *)
Lemma parse_lines_frame (lines : list string) :
  Forall (fun l => no_LF l = true) lines ->
  parseSSEEvent (lines_frame lines) = fold_left parsePart lines no_fields.
Proof.
  intros Hlines. unfold parseSSEEvent, lines_frame. fold no_fields.
  destruct lines as [|l lines]; [reflexivity |].
  rewrite split_concat; [reflexivity | discriminate | exact Hlines].
Qed.

End Parser.

(** ** Facts about the dispatcher *)

Section Dispatcher.

Variable options : Options.

(** The loop over the callbacks calls them in order up to the first that
    throws, and throws what that one threw. *)
Lemma for_of_run (callbacks : list Listener) (ev : Event.t) (s : State) :
  for_of callbacks ev s
  = (outcome_for (first_thrown callbacks ev), s,
     calls (reached callbacks ev) ev).
Proof.
  induction callbacks as [|cb rest IH]; [reflexivity |].
  cbn [for_of first_thrown reached calls map].
  unfold bind, invoke, emit, returns at 1. cbn.
  destruct (call cb ev) as [error|]; cbn; [reflexivity |].
  rewrite IH. reflexivity.
Qed.

Lemma first_thrown_app (l1 l2 : list Listener) (ev : Event.t) :
  first_thrown (l1 ++ l2) ev
  = match first_thrown l1 ev with
    | Some error => Some error
    | None => first_thrown l2 ev
    end.
Proof.
  induction l1 as [|cb l1 IH]; [reflexivity |].
  cbn. destruct (call cb ev); [reflexivity | exact IH].
Qed.

Lemma reached_app (l1 l2 : list Listener) (ev : Event.t) :
  reached (l1 ++ l2) ev
  = match first_thrown l1 ev with
    | Some _ => reached l1 ev
    | None => l1 ++ reached l2 ev
    end.
Proof.
  induction l1 as [|cb l1 IH]; [reflexivity |].
  cbn. unfold returns. destruct (call cb ev); [reflexivity |].
  rewrite IH. destruct (first_thrown l1 ev); reflexivity.
Qed.

Lemma first_thrown_quiet (l : list Listener) (ev : Event.t) :
  forallb (returns ev) l = true -> first_thrown l ev = None.
Proof.
  induction l as [|cb l IH]; [reflexivity |]. cbn. unfold returns at 1.
  destruct (call cb ev); [discriminate | exact IH].
Qed.

Lemma reached_quiet (l : list Listener) (ev : Event.t) :
  forallb (returns ev) l = true -> reached l ev = l.
Proof.
  induction l as [|cb l IH]; [reflexivity |]. cbn.
  destruct (returns ev cb); [| discriminate].
  intros H. now rewrite (IH H).
Qed.

Lemma reached_no_throw (l : list Listener) (ev : Event.t) :
  first_thrown l ev = None -> reached l ev = l.
Proof.
  induction l as [|cb l IH]; [reflexivity |]. cbn. unfold returns.
  destruct (call cb ev); [discriminate |]. intros H. now rewrite (IH H).
Qed.

(** [dispatchEvent], when the url is absolute and the event name is no
    inherited property name: it builds the event object, calls the
    registered callbacks and then the handler, in order, up to the first
    that throws, and leaves the state as it is. *)
Lemma dispatchEvent_run (origin event : string) (data : EventData)
    (eventId : option string) (s : State) :
  url_origin options = Some origin ->
  inherited event = false ->
  let ev := event_object origin event data eventId in
  dispatchEvent options event data eventId s
  = (outcome_for (first_thrown (targets s event) ev), s,
     Built ev :: calls (reached (targets s event) ev) ev).
Proof.
  intros Horigin Hevent ev. unfold dispatchEvent. rewrite Horigin.
  fold (event_object origin event data eventId). fold ev.
  unfold bind at 1. cbn [emit]. unfold bind at 1. cbn [get].
  unfold bind at 1. rewrite Hevent, for_of_run.
  unfold targets. rewrite first_thrown_app, reached_app.
  fold (registered s event).
  destruct (first_thrown (registered s event) ev) as [error|] eqn:Hquiet;
    [reflexivity |].
  rewrite (reached_no_throw _ _ Hquiet).
  cbn [outcome_for]. unfold bind. cbn [get].
  unfold calls. rewrite map_app. fold (calls (registered s event) ev).
  unfold handler_for.
  assert (Hh : forall h : option Listener,
             invoke_handler h ev s
             = (outcome_for (first_thrown (option_list h) ev), s,
                map (fun cb => Called (ident cb) ev)
                    (reached (option_list h) ev))).
  { intros [h|]; [| reflexivity]. cbn. unfold invoke, bind, emit, returns.
    cbn. destruct (call h ev); reflexivity. }
  destruct (String.eqb event "message"); [now rewrite Hh |].
  destruct (String.eqb event "error"); [now rewrite Hh |].
  destruct (String.eqb event "open"); [now rewrite Hh |].
  reflexivity.
Qed.

(** In every case [dispatchEvent] leaves the state as it is, and builds at
    most the one event object. *)
Lemma dispatchEvent_state (event : string) (data : EventData)
    (eventId : option string) (s : State) :
  state_of (dispatchEvent options event data eventId s) = s.
Proof.
  unfold dispatchEvent.
  destruct (url_origin options) as [origin|]; [| reflexivity].
  unfold bind at 1. cbn [emit]. unfold bind at 1. cbn [get].
  unfold bind at 1.
  destruct (inherited event); [reflexivity |].
  rewrite for_of_run.
  destruct (first_thrown _ _); [reflexivity |]. cbn [outcome_for].
  unfold bind. cbn [get].
  assert (Hh : forall (h : option Listener) ev,
             state_of (invoke_handler h ev s) = s).
  { intros [h|] ev; [| reflexivity]. cbn. unfold invoke, bind, emit. cbn.
    destruct (call h ev); reflexivity. }
  unfold state_of in *.
  repeat match goal with
         | |- context [if ?b then _ else _] => destruct b
         end;
    try match goal with
        | |- context [invoke_handler ?h ?ev s] =>
            specialize (Hh h ev); destruct (invoke_handler h ev s) as [[? ?] ?]
        end; cbn in *; congruence.
Qed.

Lemma built_calls (l : list Listener) (ev : Event.t) :
  built (calls l ev) = [].
Proof. induction l as [|cb l IH]; [reflexivity | exact IH]. Qed.

Lemma timeouts_calls (l : list Listener) (ev : Event.t) :
  timeouts (calls l ev) = [].
Proof. induction l as [|cb l IH]; [reflexivity | exact IH]. Qed.

Lemma requests_calls (l : list Listener) (ev : Event.t) :
  requests (calls l ev) = [].
Proof. induction l as [|cb l IH]; [reflexivity | exact IH]. Qed.

End Dispatcher.

(** ** Facts about the processing of a frame *)

Section Frames.

Variable options : Options.

(** The loop body for one frame: the bookkeeping for the parsed frame, and
    then the dispatch if the payload is not empty. The test
    [eventData.trim()] changes nothing, as a blank frame has no field. *)
Lemma processFrame_run (eventData : string) (s : State) :
  let parsed := parseSSEEvent eventData in
  processFrame options eventData s
  = if Str.truthy (eventDataString parsed)
    then dispatchEvent options (eventName parsed)
           (DataText (eventDataString parsed)) (eventId parsed)
           (bookkeeping parsed s)
    else (Returned tt, bookkeeping parsed s, []).
Proof.
  cbn zeta. unfold processFrame.
  destruct (Str.truthy (Str.trim eventData)) eqn:Hblank.
  - unfold bookkeeping.
    destruct (eventId (parseSSEEvent eventData)) as [id|];
      destruct (retry (parseSSEEvent eventData)) as [delay|];
      destruct (Str.truthy (eventDataString (parseSSEEvent eventData)));
      unfold bind, modify, ret; cbn;
      try reflexivity;
      match goal with
      | |- context [dispatchEvent ?o ?e ?d ?i ?st] =>
          destruct (dispatchEvent o e d i st) as [[r s'] out]
      end; reflexivity.
  - rewrite (blank_frame _ Hblank). reflexivity.
Qed.

Lemma processFrame_state (eventData : string) (s : State) :
  state_of (processFrame options eventData s)
  = bookkeeping (parseSSEEvent eventData) s.
Proof.
  rewrite processFrame_run.
  destruct (Str.truthy _); [apply dispatchEvent_state | reflexivity].
Qed.

Lemma bookkeeping_lastEventId (parsed : ParsedEvent) (s : State) :
  lastEventId (bookkeeping parsed s)
  = match eventId parsed with
    | Some id => Some id
    | None => lastEventId s
    end.
Proof.
  unfold bookkeeping.
  destruct (eventId parsed), (retry parsed); reflexivity.
Qed.

Lemma bookkeeping_currentRetryDelay (parsed : ParsedEvent) (s : State) :
  currentRetryDelay (bookkeeping parsed s)
  = match retry parsed with
    | Some delay => delay
    | None => currentRetryDelay s
    end.
Proof.
  unfold bookkeeping.
  destruct (eventId parsed), (retry parsed); reflexivity.
Qed.

(** What [dispatchEvent] does, whatever the url and the event name: it
    builds at most the one event object, and calls callbacks with it. *)
Lemma dispatchEvent_effects (event : string) (data : EventData)
    (eventId : option string) (s : State) :
  effects_of (dispatchEvent options event data eventId s) = []
  \/ exists origin callbacks,
       url_origin options = Some origin
       /\ effects_of (dispatchEvent options event data eventId s)
          = Built (event_object origin event data eventId)
            :: calls callbacks (event_object origin event data eventId).
Proof.
  destruct (url_origin options) as [origin|] eqn:Horigin.
  2: { left. unfold dispatchEvent. now rewrite Horigin. }
  right. exists origin.
  destruct (inherited event) eqn:Hevent.
  - exists []. unfold dispatchEvent. rewrite Horigin.
    unfold bind at 1. cbn [emit]. unfold bind at 1. cbn [get].
    unfold bind at 1. rewrite Hevent. auto.
  - eexists. split; [reflexivity |].
    rewrite (dispatchEvent_run options origin event data eventId s Horigin Hevent).
    reflexivity.
Qed.

(** The read loop is the loop body for each complete frame of the buffer. *)
Lemma drain_frames (turns : nat) (buffer : string) (s : State) :
  drain options turns buffer s
  = (process_all options (frames turns buffer)
     >> ret (remainder turns buffer)) s.
Proof.
  revert buffer s. induction turns as [|turns IH]; intros buffer s.
  - reflexivity.
  - cbn [drain frames remainder].
    destruct (Str.indexOf (Str.nl +:+ Str.nl) buffer) as [boundary|];
      [| reflexivity].
    cbn [process_all]. unfold bind.
    destruct (processFrame options (Str.slice_to boundary buffer) s)
      as [[[[]|error] s1] out1]; [| reflexivity].
    rewrite IH. unfold bind.
    destruct (process_all options _ s1) as [[[[]|error] s2] out2];
      cbn; rewrite ?app_nil_r, ?app_assoc; reflexivity.
Qed.

(** The turns given to the read loop suffice: with as many turns as the
    buffer has code units, the loop ends because no blank line is left, and
    more turns change nothing. *)
Lemma frames_enough (turns : nat) (buffer : string) :
  (String.length buffer <= turns)%nat ->
  frames turns buffer = frames (String.length buffer) buffer
  /\ remainder turns buffer = remainder (String.length buffer) buffer
  /\ Str.indexOf (Str.nl +:+ Str.nl) (remainder turns buffer) = None.
Proof.
  assert (Hany : forall n m b,
             (String.length b <= n)%nat -> (String.length b <= m)%nat ->
             frames n b = frames m b
             /\ remainder n b = remainder m b
             /\ Str.indexOf (Str.nl +:+ Str.nl) (remainder n b) = None).
  { induction n as [|n IH]; intros m b Hn Hm.
    - destruct b; [| cbn in Hn; lia]. destruct m; cbn; auto.
    - destruct m as [|m].
      + destruct b; [| cbn in Hm; lia]. cbn. auto.
      + cbn [frames remainder].
        destruct (Str.indexOf (Str.nl +:+ Str.nl) b) as [boundary|] eqn:Hb;
          [| auto].
        pose proof (boundary_shrinks b boundary Hb) as Hshort.
        destruct (IH m (Str.slice_from (boundary + 2) b)) as (-> & -> & Hend);
          try lia.
        assert (Hagain := IH m (Str.slice_from (boundary + 2) b)).
        destruct Hagain as (_ & Hrem & Hend'); try lia.
        rewrite <- Hrem. auto. }
  intros Hturns. apply Hany; lia.
Qed.

Lemma drain_enough (turns : nat) (buffer : string) (s : State) :
  (String.length buffer <= turns)%nat ->
  drain options turns buffer s
  = drain options (String.length buffer) buffer s.
Proof.
  intros Hturns. rewrite !drain_frames.
  destruct (frames_enough turns buffer Hturns) as (-> & -> & _).
  reflexivity.
Qed.

(** When the read loop returns, no complete frame is left in the buffer. *)
Lemma drain_exit (buffer rest : string) (s : State) :
  outcome_of (drain options (String.length buffer) buffer s) = Returned rest ->
  Str.indexOf (Str.nl +:+ Str.nl) rest = None.
Proof.
  rewrite drain_frames. unfold outcome_of, bind.
  destruct (process_all options _ s) as [[[[]|error] s1] out1]; cbn;
    [| discriminate].
  intros [= <-]. apply frames_enough. lia.
Qed.

Lemma targets_bookkeeping (parsed : ParsedEvent) (s : State)
    (event : string) :
  targets (bookkeeping parsed s) event = targets s event.
Proof.
  unfold bookkeeping.
  destruct (eventId parsed), (retry parsed); reflexivity.
Qed.

(** A chunk is read: the loop body runs for each complete frame of the
    buffer with the chunk added, and the rest is kept for the next chunk;
    what is thrown on the way goes to the [catch] of the read. *)
Lemma step_chunk (s : State) (buffer text : string) :
  pending s = AwaitingChunk buffer ->
  step options s (ReadResolved (Some text))
  = settle
      (modify (set_pending NoRequest) >>
       catch
         (process_all options
            (frames (String.length (buffer +:+ text)) (buffer +:+ text)) >>
          read (remainder (String.length (buffer +:+ text))
                  (buffer +:+ text)))
         (onReadError options)) s.
Proof.
  intros Hpending. unfold step. rewrite Hpending.
  assert (Hread : forall s0,
             onRead options buffer (Some text) s0
             = (process_all options
                  (frames (String.length (buffer +:+ text))
                     (buffer +:+ text)) >>
                read (remainder (String.length (buffer +:+ text))
                        (buffer +:+ text))) s0).
  { intros s0. unfold onRead, bind. rewrite drain_frames. unfold bind.
    destruct (process_all options _ s0) as [[[[]|error] s1] out1];
      cbn; rewrite ?app_nil_r; reflexivity. }
  unfold settle, bind, catch. cbn [modify]. rewrite Hread. reflexivity.
Qed.

(** A chunk that completes one frame with a payload, when no callback for
    its event throws. *)
Lemma step_one_frame (s : State) (buffer text eventData origin : string) :
  pending s = AwaitingChunk buffer ->
  frames (String.length (buffer +:+ text)) (buffer +:+ text) = [eventData] ->
  url_origin options = Some origin ->
  let parsed := parseSSEEvent eventData in
  let ev := frame_event origin parsed in
  Str.truthy (eventDataString parsed) = true ->
  inherited (eventName parsed) = false ->
  forallb (returns ev) (targets s (eventName parsed)) = true ->
  step options s (ReadResolved (Some text))
  = (set_pending
       (AwaitingChunk
          (remainder (String.length (buffer +:+ text)) (buffer +:+ text)))
       (bookkeeping parsed (set_pending NoRequest s)),
     Built ev :: calls (targets s (eventName parsed)) ev).
Proof.
  intros Hpending Hframes Horigin parsed ev Hpayload Hname Hquiet.
  rewrite (step_chunk _ _ _ Hpending), Hframes.
  cbn [process_all]. unfold settle, bind, catch. cbn [modify].
  rewrite processFrame_run. fold parsed.
  rewrite Hpayload.
  rewrite (dispatchEvent_run options origin _ _ _ _ Horigin Hname).
  fold (frame_event origin parsed). fold ev.
  rewrite targets_bookkeeping.
  change (targets (set_pending NoRequest s) (eventName parsed))
    with (targets s (eventName parsed)).
  rewrite (first_thrown_quiet _ _ Hquiet), (reached_quiet _ _ Hquiet).
  cbn. now rewrite !app_nil_r.
Qed.

End Frames.

(** ** Reasoning about actions through relations *)

Section Logic.

Context {A B : Type}.

Lemma sat_bind (R1 R2 R3 : Rel) (c : Act A) (k : A -> Act B) (s : State) :
  composes R1 R2 R3 -> included R1 R3 ->
  sat R1 c s ->
  (forall a, outcome_of (c s) = Returned a -> sat R2 (k a) (state_of (c s))) ->
  sat R3 (bind c k) s.
Proof.
  unfold sat, bind, state_of, effects_of, outcome_of.
  intros Hcomp Hincl Hc Hk.
  destruct (c s) as [[[a|error] s1] out1]; cbn in *.
  - specialize (Hk a eq_refl).
    destruct (k a s1) as [[r s2] out2]. cbn in *. eauto.
  - eauto.
Qed.

Lemma sat_catch (R1 R2 R3 : Rel) (c : Act A) (h : Thrown -> Act A)
    (s : State) :
  composes R1 R2 R3 -> included R1 R3 ->
  sat R1 c s ->
  (forall error, outcome_of (c s) = Threw error ->
                 sat R2 (h error) (state_of (c s))) ->
  sat R3 (catch c h) s.
Proof.
  unfold sat, catch, state_of, effects_of, outcome_of.
  intros Hcomp Hincl Hc Hh.
  destruct (c s) as [[[a|error] s1] out1]; cbn in *.
  - eauto.
  - specialize (Hh error eq_refl).
    destruct (h error s1) as [[r s2] out2]. cbn in *. eauto.
Qed.

Lemma sat_get (R : Rel) (k : State -> Act B) (s : State) :
  sat R (k s) s -> sat R (bind get k) s.
Proof.
  unfold sat, bind, get, state_of, effects_of.
  destruct (k s s) as [[r s2] out2]. exact (fun H => H).
Qed.

End Logic.

(** The same with one relation that is reflexive and transitive. *)
Section Closed.

Variable R : Rel.
Hypothesis R_refl : forall s, R s s [].
Hypothesis R_trans : composes R R R.

Lemma included_refl : included R R.
Proof. intros s s1 out1 H. exact H. Qed.

Lemma sat_ret {A} (a : A) (s : State) : sat R (ret a) s.
Proof. apply R_refl. Qed.

Lemma sat_throw {A} (error : Thrown) (s : State) :
  sat R (throw (A := A) error) s.
Proof. apply R_refl. Qed.

Lemma sat_seq {A B} (c : Act A) (k : A -> Act B) (s : State) :
  sat R c s -> (forall a s1, sat R (k a) s1) -> sat R (bind c k) s.
Proof.
  intros Hc Hk. apply (sat_bind R R R); auto using included_refl.
Qed.

Lemma sat_try {A} (c : Act A) (h : Thrown -> Act A) (s : State) :
  sat R c s -> (forall error s1, sat R (h error) s1) -> sat R (catch c h) s.
Proof.
  intros Hc Hh. apply (sat_catch R R R); auto using included_refl.
Qed.

(** A callback of a promise, or a method the caller calls. *)
Lemma sat_settle (c : Act unit) (s : State) :
  (forall error s1, R s1 s1 [UnhandledRejection error]) ->
  sat R c s -> R s (fst (settle c s)) (snd (settle c s)).
Proof.
  unfold sat, settle, state_of, effects_of. intros Hignore Hc.
  destruct (c s) as [[[[]|error] s1] out1]; cbn in *; [exact Hc |].
  eapply R_trans; [exact Hc | apply Hignore].
Qed.

Lemma sat_called (c : Act unit) (s : State) :
  (forall error s1, R s1 s1 [ThrownToCaller error]) ->
  sat R c s -> R s (fst (called c s)) (snd (called c s)).
Proof.
  unfold sat, called, state_of, effects_of. intros Hignore Hc.
  destruct (c s) as [[[[]|error] s1] out1]; cbn in *; [exact Hc |].
  eapply R_trans; [exact Hc | apply Hignore].
Qed.

(** A run of turns, each within the relation. *)
Lemma sat_run (options : Options) (inputs : list Input) (s : State) :
  (forall s i, In i inputs ->
               R s (fst (step options s i)) (snd (step options s i))) ->
  R s (fst (run options s inputs)) (snd (run options s inputs)).
Proof.
  revert s. induction inputs as [|i inputs IH]; intros s Hstep.
  - apply R_refl.
  - cbn [run].
    pose proof (Hstep s i (or_introl eq_refl)) as H1.
    destruct (step options s i) as [s1 out1]. cbn [fst snd] in H1.
    assert (H2 : R s1 (fst (run options s1 inputs))
                   (snd (run options s1 inputs))).
    { apply IH. intros s' i' Hin. apply Hstep. now right. }
    destruct (run options s1 inputs) as [s2 out2]. cbn [fst snd] in *.
    eapply R_trans; eassumption.
Qed.

End Closed.

(** Walks down the structure of an action: [known] closes the parts there
    are lemmas for, and [leaf] the assignments and effects. *)
Ltac sat_walk refl trans known leaf :=
  repeat first
    [ progress known
    | apply sat_get; cbn beta
    | apply (sat_seq _ trans); [ | intros ? ? ]
    | apply (sat_try _ trans); [ | intros ? ? ]
    | apply (sat_ret _ refl)
    | apply (sat_throw _ refl)
    | match goal with
      | |- sat _ (if ?b then _ else _) _ => destruct b eqn:?
      | |- sat _ (match ?x with _ => _ end) _ => destruct x eqn:?
      end
    | progress leaf ].

(** What the bookkeeping of a frame leaves alone. *)
Lemma bookkeeping_rest (parsed : ParsedEvent) (s : State) :
  isClosed (bookkeeping parsed s) = isClosed s
  /\ readyState (bookkeeping parsed s) = readyState s
  /\ retryCount (bookkeeping parsed s) = retryCount s
  /\ retryTimeout (bookkeeping parsed s) = retryTimeout s
  /\ pending (bookkeeping parsed s) = pending s
  /\ listeners (bookkeeping parsed s) = listeners s.
Proof.
  unfold bookkeeping. destruct (eventId parsed), (retry parsed); cbn; auto 10.
Qed.

(** A turn, by its cases: a promise that is not pending and a timer that is
    not set leave everything as it is; else the callback is walked down. *)
Ltac sat_turn refl trans known leaf :=
  cbn [step];
  match goal with
  | |- _ ?s _ _ =>
      try (destruct (pending s); try exact (refl s));
      try (destruct (retryTimeout s); try exact (refl s));
      try (apply (sat_settle _ trans);
           [let s1 := fresh "s" in intros ? s1; exact (refl s1) |]);
      try (apply (sat_called _ trans);
           [let s1 := fresh "s" in intros ? s1; exact (refl s1) |]);
      try exact (refl s)
  end;
  unfold onRead, onReadError, onConnectError, onResponse, onTimer,
    addEventListener, removeEventListener;
  sat_walk refl trans known leaf.

Lemma Input_eq_TimerFired (i : Input) : i = TimerFired \/ i <> TimerFired.
Proof. destruct i; (now left) || (right; discriminate). Qed.

(** ** The parser claims *)




(** C10: a data line with an empty value leaves an empty payload empty and
    adds a bare line break to a payload that is not empty. So the read loop
    takes the frame "data:\ndata: a" off the buffer "data:\ndata: a\n\n"
    and its payload is "a", and it takes "data: a\ndata:" off
    "data: a\ndata:\n\n" and its payload is "a\n". *)
Theorem C10_empty_data_value (acc : ParsedEvent) (part : string) :
  field part = Some ("data", "") ->
  eventDataString (parsePart acc part)
  = (if Str.truthy (eventDataString acc)
     then eventDataString acc +:+ Str.nl
     else "")
  /\ (let buffer := "data:" +:+ Str.nl +:+ "data: a" +:+ Str.nl +:+ Str.nl in
      frames (String.length buffer) buffer
      = ["data:" +:+ Str.nl +:+ "data: a"])
  /\ eventDataString (parseSSEEvent ("data:" +:+ Str.nl +:+ "data: a")) = "a"
  /\ (let buffer := "data: a" +:+ Str.nl +:+ "data:" +:+ Str.nl +:+ Str.nl in
      frames (String.length buffer) buffer
      = ["data: a" +:+ Str.nl +:+ "data:"])
  /\ eventDataString (parseSSEEvent ("data: a" +:+ Str.nl +:+ "data:"))
     = "a" +:+ Str.nl.
Proof.
  intros Hfield. split; [| repeat split; reflexivity].
  rewrite parsePart_field, Hfield. cbn.
  destruct (eventDataString acc) as [|c payload]; reflexivity.
Qed.

Lemma C10_empty_data_value_witness :
  field "data:   " = Some ("data", "")
  /\ eventDataString (parsePart (parseSSEEvent "data: a") "data:   ")
     = "a" +:+ Str.nl.
Proof.
  split; [reflexivity |].
  exact (proj1 (C10_empty_data_value (parseSSEEvent "data: a") "data:   "
                  eq_refl)).
Defined.

(** ** The dispatcher claims *)

(** C2, as stated, fails for two callbacks of which the first throws: the
    second is not called. *)
Lemma C2_counterexample :
  ~ C2_as_stated Sample.options Sample.two_listeners "message"
      (DataText "x") None.
Proof.
  intros H.
  specialize (H "https://api.example.com" [] (Sample.thrower 1)
                [Sample.quiet 2] (Sample.quiet 2)
                eq_refl eq_refl eq_refl (or_introl eq_refl)).
  vm_compute in H. discriminate H.
Qed.

(** C2, amended: a dispatch calls the callbacks registered for the event in
    registration order up to and with the first that throws; what that one
    throws leaves [dispatchEvent], and neither the callbacks registered
    after it nor the handler are called. When no registered callback throws,
    all of them are called, in order. *)
Theorem C2_dispatch_stops_at_first_throw
    (options : Options) (origin event : string) (data : EventData)
    (eventId : option string) (s : State) :
  url_origin options = Some origin ->
  inherited event = false ->
  let ev := event_object origin event data eventId in
  (forall before cb error after,
      registered s event = before ++ cb :: after ->
      forallb (returns ev) before = true ->
      call cb ev = Some error ->
      dispatchEvent options event data eventId s
      = (Threw error, s, Built ev :: calls (before ++ [cb]) ev))
  /\ (forallb (returns ev) (registered s event) = true ->
      effects_of (dispatchEvent options event data eventId s)
      = Built ev :: calls (registered s event) ev
        ++ calls (reached (option_list (handler_for s event)) ev) ev).
Proof.
  intros Horigin Hevent ev.
  rewrite (dispatchEvent_run options origin event data eventId s Horigin Hevent).
  fold ev. unfold targets. split.
  - intros before cb error after Hreg Hbefore Hcb. rewrite Hreg.
    rewrite <- !app_assoc. cbn [app].
    rewrite first_thrown_app, reached_app,
      (first_thrown_quiet _ _ Hbefore).
    cbn [first_thrown reached]. unfold returns at 1. rewrite Hcb.
    reflexivity.
  - intros Hquiet.
    rewrite reached_app, (first_thrown_quiet _ _ Hquiet).
    unfold effects_of, calls. cbn [snd]. now rewrite map_app.
Qed.

Lemma C2_dispatch_stops_at_first_throw_witness :
  url_origin Sample.options = Some "https://api.example.com"
  /\ inherited "message" = false
  /\ dispatchEvent Sample.options "message" (DataText "x") None
       Sample.two_listeners
     = (Threw (Error "boom" None), Sample.two_listeners,
        [Built (event_object "https://api.example.com" "message"
                  (DataText "x") None);
         Called 1 (event_object "https://api.example.com" "message"
                     (DataText "x") None)]).
Proof.
  split; [reflexivity |]. split; [reflexivity |].
  exact (proj1 (C2_dispatch_stops_at_first_throw Sample.options
                  "https://api.example.com" "message" (DataText "x") None
                  Sample.two_listeners eq_refl eq_refl)
           [] (Sample.thrower 1) (Error "boom" None) [Sample.quiet 2]
           eq_refl eq_refl eq_refl).
Defined.

(** ** The frame claims *)

(** C7: a complete frame without data field dispatches nothing: the loop
    body returns without any effect. It sets the last event id to the value
    of the last [id] line of the frame, if there is one, and the retry delay
    to the last numeric [retry] value, if there is one. *)
Theorem C7_frame_without_data
    (options : Options) (s : State) (eventData : string) :
  field_values "data" eventData = [] ->
  processFrame options eventData s
  = (Returned tt, state_of (processFrame options eventData s), [])
  /\ lastEventId (state_of (processFrame options eventData s))
     = match last (field_values "id" eventData) with
       | Some id => Some id
       | None => lastEventId s
       end
  /\ currentRetryDelay (state_of (processFrame options eventData s))
     = match directive (field_values "retry" eventData) with
       | Some delay => delay
       | None => currentRetryDelay s
       end.
Proof.
  intros Hdata.
  destruct (parseSSEEvent_spec eventData) as (_ & Hpayload & Hid & Hretry).
  rewrite processFrame_state, bookkeeping_lastEventId,
    bookkeeping_currentRetryDelay, Hid, Hretry.
  split; [| split; reflexivity].
  rewrite processFrame_run. cbn zeta. rewrite Hpayload, Hdata. reflexivity.
Qed.

Lemma C7_frame_without_data_witness :
  field_values "data"
    (": keep-alive" +:+ Str.nl +:+ "id: 7" +:+ Str.nl +:+ "retry: 500") = []
  /\ effects_of
       (processFrame Sample.options
          (": keep-alive" +:+ Str.nl +:+ "id: 7" +:+ Str.nl +:+ "retry: 500")
          Sample.opened) = []
  /\ lastEventId
       (state_of
          (processFrame Sample.options
             (": keep-alive" +:+ Str.nl +:+ "id: 7" +:+ Str.nl +:+ "retry: 500")
             Sample.opened)) = Some "7"
  /\ currentRetryDelay
       (state_of
          (processFrame Sample.options
             (": keep-alive" +:+ Str.nl +:+ "id: 7" +:+ Str.nl +:+ "retry: 500")
             Sample.opened)) = 500.
Proof.
  split; [reflexivity |].
  destruct (C7_frame_without_data Sample.options Sample.opened
              (": keep-alive" +:+ Str.nl +:+ "id: 7" +:+ Str.nl +:+ "retry: 500")
              eq_refl) as (Hrun & Hid & Hdelay).
  split; [now rewrite Hrun |]. split; [exact Hid | exact Hdelay].
Defined.

(** C6: an open connection that awaits a chunk with an empty buffer reads
    the frame "event: notice\ndata: hello\nid: 1\n\n": it dispatches one
    event, of type [notice], with the payload "hello" and the id "1". It
    then reads "data: a\ndata: b\n\n" and dispatches one event, of type
    [message], with the payload "a\nb". Each turn does nothing else than to
    build the event and to call the callbacks for it, none of which throws. *)
Theorem C6_end_to_end (options : Options) (origin : string) (s : State) :
  url_origin options = Some origin ->
  readyState s = OPEN ->
  pending s = AwaitingChunk "" ->
  let notice :=
    event_object origin "notice" (DataText "hello") (Some "1") in
  let message :=
    event_object origin "message" (DataText ("a" +:+ Str.nl +:+ "b")) None in
  forallb (returns notice) (targets s "notice") = true ->
  forallb (returns message) (targets s "message") = true ->
  let turn1 := step options s (ReadResolved (Some Sample.notice_frame)) in
  let turn2 := step options (fst turn1) (ReadResolved (Some Sample.ab_frame)) in
  snd turn1 = Built notice :: calls (targets s "notice") notice
  /\ built (snd turn1) = [notice]
  /\ snd turn2 = Built message :: calls (targets s "message") message
  /\ built (snd turn2) = [message]
  /\ lastEventId (fst turn2) = Some "1"
  /\ pending (fst turn2) = AwaitingChunk "".
Proof.
  intros Horigin _ Hpending notice message Hnotice Hmessage turn1 turn2.
  assert (H1 : turn1
               = (set_pending (AwaitingChunk "")
                    (bookkeeping
                       (parseSSEEvent
                          ("event: notice" +:+ Str.nl +:+ "data: hello"
                           +:+ Str.nl +:+ "id: 1"))
                       (set_pending NoRequest s)),
                  Built notice :: calls (targets s "notice") notice)).
  { exact (step_one_frame options s "" Sample.notice_frame _ origin
             Hpending eq_refl Horigin eq_refl eq_refl Hnotice). }
  assert (Htargets : forall event,
             targets (fst turn1) event = targets s event).
  { intros event. rewrite H1. cbn [fst].
    change (targets (set_pending (AwaitingChunk "") ?x) event)
      with (targets x event).
    now rewrite targets_bookkeeping. }
  assert (Hpending1 : pending (fst turn1) = AwaitingChunk "")
    by now rewrite H1.
  pose proof (step_one_frame options (fst turn1) "" Sample.ab_frame _ origin
                Hpending1 eq_refl Horigin eq_refl eq_refl) as H2.
  rewrite Htargets in H2. specialize (H2 Hmessage).
  change (frame_event origin
            (parseSSEEvent ("data: a" +:+ Str.nl +:+ "data: b")))
    with message in H2.
  fold turn2 in H2.
  rewrite H2, H1. cbn [fst snd built omap list_omap].
  rewrite !built_calls. auto 10.
Qed.

Lemma C6_end_to_end_witness :
  url_origin Sample.options = Some "https://api.example.com"
  /\ readyState Sample.listening = OPEN
  /\ pending Sample.listening = AwaitingChunk ""
  /\ built (snd (step Sample.options Sample.listening
                   (ReadResolved (Some Sample.notice_frame))))
     = [event_object "https://api.example.com" "notice" (DataText "hello")
          (Some "1")]
  /\ snd (step Sample.options
            (fst (step Sample.options Sample.listening
                    (ReadResolved (Some Sample.notice_frame))))
            (ReadResolved (Some Sample.ab_frame)))
     = [Built (event_object "https://api.example.com" "message"
                 (DataText ("a" +:+ Str.nl +:+ "b")) None);
        Called 2 (event_object "https://api.example.com" "message"
                    (DataText ("a" +:+ Str.nl +:+ "b")) None)].
Proof.
  destruct (C6_end_to_end Sample.options "https://api.example.com"
              Sample.listening eq_refl eq_refl eq_refl eq_refl eq_refl)
    as (_ & H1 & H2 & _).
  split; [reflexivity |]. split; [reflexivity |]. split; [reflexivity |].
  split; [exact H1 | exact H2].
Defined.


(** ** The retry policy claims *)

Section CustomRetry.

Variable options : Options.
Variable custom : Failure.t -> Z -> bool.
Hypothesis custom_given : customRetryLogic options = Some custom.
Hypothesis custom_true : forall error count, custom error count = true.

Lemma stays_open_refl (s : State) : stays_open s s [].
Proof. intros H1 H2. auto. Qed.

Lemma stays_open_trans : composes stays_open stays_open stays_open.
Proof.
  intros s s1 s2 out1 out2 H1 H2 Hc Hr.
  destruct (H1 Hc Hr) as [Hc1 Hr1]. exact (H2 Hc1 Hr1).
Qed.

Lemma stays_open_dispatchEvent (event : string) (data : EventData)
    (eventId : option string) (s : State) :
  sat stays_open (dispatchEvent options event data eventId) s.
Proof. unfold sat. rewrite dispatchEvent_state. apply stays_open_refl. Qed.

Lemma stays_open_processFrame (eventData : string) (s : State) :
  sat stays_open (processFrame options eventData) s.
Proof.
  unfold sat. rewrite processFrame_state. intros Hc Hr.
  destruct (bookkeeping_rest (parseSSEEvent eventData) s) as (-> & -> & _).
  auto.
Qed.

(** With a custom policy that always says yes, [scheduleReconnect] sets
    the timer and does not close. *)
Lemma scheduleReconnect_custom (s : State) :
  isClosed s = false ->
  scheduleReconnect options s
  = (Returned tt,
     set_retryTimeout (Some (currentRetryDelay s))
       (set_retryCount (retryCount s + 1) (set_retryTimeout None s)),
     [ClearTimeout;
      Console (InfoScheduling (retryCount s + 1) (currentRetryDelay s));
      SetTimeout (currentRetryDelay s)]).
Proof.
  intros Hopen. unfold scheduleReconnect, bind at 1. cbn [get].
  rewrite Hopen. unfold shouldRetry.
  cbn. rewrite custom_given, custom_true. reflexivity.
Qed.

Lemma stays_open_scheduleReconnect (s : State) :
  sat stays_open (scheduleReconnect options) s.
Proof.
  unfold sat. destruct (isClosed s) eqn:Hopen.
  - intros Hc. congruence.
  - rewrite (scheduleReconnect_custom s Hopen). intros _ Hr. cbn. auto.
Qed.

Ltac stays_open_known :=
  first
    [ apply stays_open_dispatchEvent
    | apply stays_open_scheduleReconnect
    | apply stays_open_processFrame ].

Ltac stays_open_leaf :=
  unfold sat, stays_open, modify, emit, read, connect, clearTimeout,
    setLastEventId, bind, ret, throw, get, state_of, effects_of,
    CLOSED, OPEN, CONNECTING;
  cbn; intros; split; (assumption || discriminate || lia).

Ltac stays_open_walk :=
  sat_walk stays_open_refl stays_open_trans
    stays_open_known stays_open_leaf.

Lemma stays_open_process_all (eventDatas : list string) (s : State) :
  sat stays_open (process_all options eventDatas) s.
Proof.
  revert s. induction eventDatas as [|eventData rest IH]; intros s;
    cbn [process_all]; [apply stays_open_refl |].
  apply (sat_seq _ stays_open_trans);
    [apply stays_open_processFrame | intros _ s1; apply IH].
Qed.

Lemma stays_open_onRead (buffer : string) (result : option string)
    (s : State) :
  sat stays_open (onRead options buffer result) s.
Proof.
  destruct result as [text|]; unfold onRead.
  - apply (sat_seq _ stays_open_trans).
    + unfold sat. rewrite drain_frames. fold (sat stays_open
        (process_all options (frames (String.length (buffer +:+ text))
                                 (buffer +:+ text)) >>
         ret (remainder (String.length (buffer +:+ text))
                (buffer +:+ text))) s).
      apply (sat_seq _ stays_open_trans);
        [apply stays_open_process_all | intros; apply stays_open_refl].
    + intros. stays_open_walk.
  - stays_open_walk.
Qed.

Lemma stays_open_onReadError (error : Thrown) (s : State) :
  sat stays_open (onReadError options error) s.
Proof. unfold onReadError. stays_open_walk. Qed.

Lemma stays_open_onConnectError (error : Thrown) (s : State) :
  sat stays_open (onConnectError options error) s.
Proof. unfold onConnectError. stays_open_walk. Qed.

Lemma stays_open_onResponse (response : Response) (s : State) :
  sat stays_open (onResponse options response) s.
Proof. unfold onResponse. stays_open_walk. Qed.

Lemma stays_open_onTimer (s : State) :
  sat stays_open (onTimer options) s.
Proof. unfold onTimer. stays_open_walk. Qed.

Lemma stays_open_listeners (s : State) (event : string) (cb : Listener) :
  sat stays_open (addEventListener event cb) s
  /\ sat stays_open (removeEventListener event cb) s.
Proof.
  unfold addEventListener, removeEventListener. split.
  - destruct (inherited event); [apply stays_open_refl |].
    unfold sat, modify. cbn. intros ? ?. cbn. auto.
  - destruct (inherited event); [apply stays_open_refl |].
    unfold sat, modify, state_of, effects_of. cbn.
    destruct (listeners s !! event) as [registered|];
      [| apply stays_open_refl].
    destruct (List.filter _ registered); intros ? ?; cbn; auto.
Qed.

(** A turn that is not a call of [close] leaves the connection open. *)
Lemma stays_open_step (s : State) (i : Input) :
  i <> CallClose ->
  stays_open s (fst (step options s i)) (snd (step options s i)).
Proof.
  intros Hclose.
  assert (Hignore : forall error s1,
             stays_open s1 s1 [UnhandledRejection error])
    by (intros; apply stays_open_refl).
  assert (Hignore' : forall error s1,
             stays_open s1 s1 [ThrownToCaller error])
    by (intros; apply stays_open_refl).
  destruct i; cbn [step]; try contradiction;
    try (destruct (pending s); try apply stays_open_refl);
    try (destruct (retryTimeout s); try apply stays_open_refl);
    try (apply (sat_settle _ stays_open_trans); [exact Hignore |]);
    try (apply (sat_called _ stays_open_trans); [exact Hignore' |]);
    try (intros ? ?; cbn; now auto).
  all: try (apply (sat_seq _ stays_open_trans);
            [stays_open_walk | intros ? ?]).
  all: try (apply (sat_try _ stays_open_trans);
            [| intros ? ?]).
  all: try apply stays_open_onResponse.
  all: try apply stays_open_onConnectError.
  all: try apply stays_open_onRead.
  all: try apply stays_open_onReadError.
  all: try apply stays_open_onTimer.
  all: try apply stays_open_listeners.
  all: stays_open_walk.
Qed.

Lemma stays_open_run (inputs : list Input) (s : State) :
  forallb (fun i => negb (is_close i)) inputs = true ->
  stays_open s (fst (run options s inputs)) (snd (run options s inputs)).
Proof.
  intros Hinputs.
  apply (sat_run _ stays_open_refl stays_open_trans).
  intros s' i Hin. apply stays_open_step.
  rewrite forallb_forall in Hinputs. specialize (Hinputs i Hin).
  intros ->. discriminate Hinputs.
Qed.

End CustomRetry.

Section CustomDecision.

Variable options : Options.
Variable custom : Failure.t -> Z -> bool.
Variable origin : string.
Hypothesis custom_given : customRetryLogic options = Some custom.
Hypothesis origin_given : url_origin options = Some origin.

(** [scheduleReconnect] asks the custom policy about the context it makes
    itself, and does what the policy says. *)
Lemma scheduleReconnect_follows (s : State) :
  isClosed s = false ->
  outcome_of (scheduleReconnect options s) = Returned tt
  /\ follows custom s (state_of (scheduleReconnect options s))
       (effects_of (scheduleReconnect options s)).
Proof.
  intros Hopen.
  unfold follows, retry_context, scheduleReconnect, shouldRetry, bind, get.
  rewrite Hopen, custom_given.
  destruct (custom _ (retryCount s)); cbn.
  - auto.
  - destruct (abortController s), (reader s); cbn; auto.
Qed.

Lemma timeouts_after_calls (callbacks : list Listener) (ev : Event.t)
    (out : list Effect) :
  timeouts (calls callbacks ev ++ out) = timeouts out.
Proof. induction callbacks as [|cb callbacks IH]; [reflexivity | exact IH]. Qed.

(** The [error] event, when the callbacks for it return. *)
Lemma error_event_returns (data : EventData) (s : State) :
  forallb (returns (event_object origin "error" data None))
    (targets s "error") = true ->
  dispatchEvent options "error" data None s
  = (Returned tt, s,
     Built (event_object origin "error" data None)
     :: calls (targets s "error") (event_object origin "error" data None)).
Proof.
  intros Hquiet.
  rewrite (dispatchEvent_run options origin "error" data None s
             origin_given eq_refl).
  now rewrite (first_thrown_quiet _ _ Hquiet), (reached_quiet _ _ Hquiet).
Qed.

Lemma onReadError_follows (error : Thrown) (s : State) :
  isClosed s = false ->
  (forall data,
      forallb (returns (event_object origin "error" data None))
        (targets s "error") = true) ->
  outcome_of (onReadError options error s) = Returned tt
  /\ follows custom s (state_of (onReadError options error s))
       (effects_of (onReadError options error s)).
Proof.
  intros Hopen Hquiet.
  destruct (scheduleReconnect_follows s Hopen) as [Hreturns Hfollows].
  unfold onReadError, bind, get. rewrite Hopen.
  rewrite (error_event_returns _ s (Hquiet _)).
  unfold outcome_of, state_of, effects_of in *.
  destruct (scheduleReconnect options s) as [[r s1] out1].
  cbn [fst snd] in *. split; [exact Hreturns |].
  unfold follows in *.
  cbn [app].
  repeat match goal with
         | |- context [timeouts (?e :: ?rest)] =>
             change (timeouts (e :: rest)) with (timeouts rest)
         end.
  now rewrite timeouts_after_calls.
Qed.

Lemma onConnectError_follows (error : Thrown) (s : State) :
  isClosed s = false ->
  (forall data,
      forallb (returns (event_object origin "error" data None))
        (targets s "error") = true) ->
  outcome_of (onConnectError options error s) = Returned tt
  /\ follows custom s (state_of (onConnectError options error s))
       (effects_of (onConnectError options error s)).
Proof.
  intros Hopen Hquiet.
  destruct (scheduleReconnect_follows s Hopen) as [Hreturns Hfollows].
  unfold onConnectError, bind, get. rewrite Hopen. cbn [emit].
  rewrite (error_event_returns _ s (Hquiet _)).
  unfold outcome_of, state_of, effects_of in *.
  destruct (scheduleReconnect options s) as [[r s1] out1].
  cbn [fst snd] in *. split; [exact Hreturns |].
  unfold follows in *.
  cbn [app].
  repeat match goal with
         | |- context [timeouts (?e :: ?rest)] =>
             change (timeouts (e :: rest)) with (timeouts rest)
         end.
  now rewrite timeouts_after_calls.
Qed.

(** Every failure turn comes to what the policy says about the context
    of [scheduleReconnect]; what failed does not reach the policy. *)
Lemma failure_follows (s : State) (i : Input) :
  fails s i = true ->
  isClosed s = false ->
  (forall data,
      forallb (returns (event_object origin "error" data None))
        (targets s "error") = true) ->
  follows custom s (fst (step options s i)) (snd (step options s i)).
Proof.
  intros Hfails Hopen Hquiet.
  assert (Hopen' : isClosed (set_pending NoRequest s) = false) by exact Hopen.
  destruct i as [response|error|[text|]|error| | | | | | | |];
    cbn [fails] in Hfails; try discriminate Hfails;
    destruct (pending s) as [| |buffer] eqn:Hpending;
    try discriminate Hfails; cbn [step]; rewrite Hpending.
  - apply negb_true_iff in Hfails.
    destruct (onConnectError_follows
                (Error ("HTTP " +:+ Str.of_Z (status response) +:+ ": "
                        +:+ statusText response) (Some (status response)))
                (set_pending NoRequest s) Hopen' Hquiet)
      as [Hreturns Hfollows].
    unfold onResponse, settle, bind, catch. cbn [modify]. rewrite Hfails.
    cbn [negb throw]. revert Hreturns Hfollows.
    unfold outcome_of, state_of, effects_of.
    destruct (onConnectError options _ (set_pending NoRequest s))
      as [[r s1] out1]. cbn [fst snd]. now intros ->.
  - destruct (onConnectError_follows error (set_pending NoRequest s)
                Hopen' Hquiet) as [Hreturns Hfollows].
    unfold settle, bind. cbn [modify]. revert Hreturns Hfollows.
    unfold outcome_of, state_of, effects_of.
    destruct (onConnectError options error (set_pending NoRequest s))
      as [[r s1] out1]. cbn [fst snd]. now intros ->.
  - destruct (scheduleReconnect_follows (set_pending NoRequest s) Hopen')
      as [Hreturns Hfollows].
    unfold onRead, settle, bind, catch. cbn [modify get].
    change (isClosed (set_pending NoRequest s)) with (isClosed s).
    rewrite Hopen. revert Hreturns Hfollows.
    unfold outcome_of, state_of, effects_of.
    destruct (scheduleReconnect options (set_pending NoRequest s))
      as [[r s1] out1]. cbn [fst snd]. now intros ->.
  - destruct (onReadError_follows error (set_pending NoRequest s)
                Hopen' Hquiet) as [Hreturns Hfollows].
    unfold settle, bind. cbn [modify]. revert Hreturns Hfollows.
    unfold outcome_of, state_of, effects_of.
    destruct (onReadError options error (set_pending NoRequest s))
      as [[r s1] out1]. cbn [fst snd]. now intros ->.
Qed.

End CustomDecision.

(** C8, on the code: with a custom retry function the policy is that
    function, and neither the maximum nor the status list is looked at;
    every failure turn of a connection whose [error] callbacks return does
    what it says (a timer with the current delay for a yes, [close] for a
    no), and if it always says yes no sequence of turns without a call of
    [close] closes the connection. But the function does not get the
    failure: what it is asked about is the context [scheduleReconnect]
    makes, the retry count and the text "Connection lost", without the
    status of the response that failed. The policy of the README's example,
    which refuses a failure with a 4xx status, is not asked about the 404:
    a timer of 3000 ms is set and the request is issued again. *)
Theorem C8_custom_policy_gets_no_failure_context
    (options : Options) (custom : Failure.t -> Z -> bool) (origin : string)
    (s : State) (i : Input) (inputs : list Input) :
  customRetryLogic options = Some custom ->
  (fails s i = true ->
   isClosed s = false ->
   url_origin options = Some origin ->
   (forall data,
       forallb (returns (event_object origin "error" data None))
         (targets s "error") = true) ->
   follows custom s (fst (step options s i)) (snd (step options s i)))
  /\ (let s0 := fst (fetchSSE Sample.refusing) in
      let turn := step Sample.refusing s0
                    (FetchResolved (Sample.response 404)) in
      Sample.refuse_4xx
        {| Failure.status := Some 404; Failure.retryCount := 0;
           Failure.lastError := "HTTP 404: status text" |} 0 = false
      /\ isClosed (fst turn) = false
      /\ retryCount (fst turn) = 1
      /\ timeouts (snd turn) = [3000]
      /\ requests
           (snd (run Sample.refusing s0
                   [FetchResolved (Sample.response 404); TimerFired]))
         = [buildFetchOptions Sample.refusing s0])
  /\ ((forall e count, custom e count = true) ->
      isClosed s = false ->
      readyState s <> CLOSED ->
      forallb (fun i => negb (is_close i)) inputs = true ->
      isClosed (fst (run options s inputs)) = false
      /\ readyState (fst (run options s inputs)) <> CLOSED).
Proof.
  intros Hcustom. split; [| split].
  - intros Hfails Hopen Horigin Hquiet.
    exact (failure_follows options custom origin Hcustom Horigin s i
             Hfails Hopen Hquiet).
  - cbn zeta. repeat split; reflexivity.
  - intros Htrue Hopen Hready Hinputs.
    exact (stays_open_run options custom Hcustom Htrue inputs s Hinputs
             Hopen Hready).
Qed.

Lemma C8_custom_policy_gets_no_failure_context_witness :
  customRetryLogic Sample.refusing = Some Sample.refuse_4xx
  /\ fails (fst (fetchSSE Sample.refusing))
       (FetchResolved (Sample.response 404)) = true
  /\ Sample.refuse_4xx (retry_context (fst (fetchSSE Sample.refusing))) 0 = true
  /\ follows Sample.refuse_4xx (fst (fetchSSE Sample.refusing))
       (fst (step Sample.refusing (fst (fetchSSE Sample.refusing))
               (FetchResolved (Sample.response 404))))
       (snd (step Sample.refusing (fst (fetchSSE Sample.refusing))
               (FetchResolved (Sample.response 404)))).
Proof.
  split; [reflexivity |]. split; [reflexivity |]. split; [reflexivity |].
  exact (proj1 (C8_custom_policy_gets_no_failure_context Sample.refusing
                  Sample.refuse_4xx "https://api.example.com"
                  (fst (fetchSSE Sample.refusing))
                  (FetchResolved (Sample.response 404)) [] eq_refl)
           eq_refl eq_refl eq_refl (fun _ => eq_refl)).
Defined.

(** C1, on the code: a response with status 404 (or 400, 401, 403, 410) to
    a connection with the default policy and no maximum does not close it.
    The policy would refuse a failure context that carries the status, but
    [scheduleReconnect] hands it a context of its own making without the
    status: the connection stays in CONNECTING with a timer of 3000 ms set,
    and issues the request again when the timer fires. *)
Theorem C1_terminal_status_is_retried :
  let s0 := fst (fetchSSE Sample.options) in
  shouldRetry Sample.options
    {| Failure.status := Some 404; Failure.retryCount := 0;
       Failure.lastError := "HTTP 404" |} s0 = false
  /\ Forall
       (fun code =>
          let turn := step Sample.options s0
                        (FetchResolved (Sample.response code)) in
          isClosed (fst turn) = false
          /\ readyState (fst turn) = CONNECTING
          /\ retryCount (fst turn) = 1
          /\ retryTimeout (fst turn) = Some 3000
          /\ timeouts (snd turn) = [3000])
       [400; 401; 403; 404; 410]
  /\ requests
       (snd (run Sample.options s0
               [FetchResolved (Sample.response 404); TimerFired]))
     = [buildFetchOptions Sample.options s0].
Proof.
  cbn zeta. split; [reflexivity |]. split.
  - repeat constructor.
  - reflexivity.
Qed.

(** ** The retry delay claim *)

Section Delay.

Variable options : Options.

Lemma timeouts_app (out1 out2 : list Effect) :
  timeouts (out1 ++ out2) = timeouts out1 ++ timeouts out2.
Proof. apply omap_app. Qed.

Lemma requests_app (out1 out2 : list Effect) :
  requests (out1 ++ out2) = requests out1 ++ requests out2.
Proof. apply omap_app. Qed.

(** A dispatch sets no timer and issues no request. *)
Lemma dispatchEvent_quiet (event : string) (data : EventData)
    (eventId : option string) (s : State) :
  timeouts (effects_of (dispatchEvent options event data eventId s)) = []
  /\ requests (effects_of (dispatchEvent options event data eventId s)) = [].
Proof.
  destruct (dispatchEvent_effects options event data eventId s)
    as [-> | (origin & callbacks & _ & ->)]; [auto |].
  cbn. now rewrite timeouts_calls, requests_calls.
Qed.

Lemma processFrame_quiet (eventData : string) (s : State) :
  timeouts (effects_of (processFrame options eventData s)) = []
  /\ requests (effects_of (processFrame options eventData s)) = [].
Proof.
  rewrite processFrame_run. cbn zeta.
  destruct (Str.truthy _); [apply dispatchEvent_quiet | auto].
Qed.

(** *** No timer is set *)

Lemma sets_no_timer_refl (s : State) : sets_no_timer s s [].
Proof. reflexivity. Qed.

Lemma sets_no_timer_trans : composes sets_no_timer sets_no_timer sets_no_timer.
Proof.
  intros s s1 s2 out1 out2 H1 H2. unfold sets_no_timer in *.
  now rewrite timeouts_app, H1, H2.
Qed.

Lemma sets_no_timer_process_all (eventDatas : list string) (s : State) :
  sat sets_no_timer (process_all options eventDatas) s.
Proof.
  revert s. induction eventDatas as [|eventData rest IH]; intros s;
    cbn [process_all]; [reflexivity |].
  apply (sat_seq _ sets_no_timer_trans);
    [apply processFrame_quiet | intros _ s1; apply IH].
Qed.

(** *** The delay is kept *)

Lemma keeps_delay_refl (s : State) : keeps_delay s s [].
Proof. split; [reflexivity | constructor]. Qed.

Lemma keeps_delay_trans : composes keeps_delay keeps_delay keeps_delay.
Proof.
  intros s s1 s2 out1 out2 [H1 F1] [H2 F2]. split; [congruence |].
  rewrite timeouts_app. apply Forall_app. split; [exact F1 |].
  rewrite H1 in F2. exact F2.
Qed.

Lemma keeps_delay_dispatchEvent (event : string) (data : EventData)
    (eventId : option string) (s : State) :
  sat keeps_delay (dispatchEvent options event data eventId) s.
Proof.
  unfold sat, keeps_delay. rewrite dispatchEvent_state.
  destruct (dispatchEvent_quiet event data eventId s) as [-> _].
  split; [reflexivity | constructor].
Qed.

Lemma keeps_delay_processFrame (eventData : string) (s : State) :
  no_directive eventData = true ->
  sat keeps_delay (processFrame options eventData) s.
Proof.
  unfold no_directive. intros Hsilent.
  unfold sat, keeps_delay. rewrite processFrame_state.
  destruct (processFrame_quiet eventData s) as [-> _].
  rewrite bookkeeping_currentRetryDelay.
  destruct (retry (parseSSEEvent eventData)); [discriminate |].
  split; [reflexivity | constructor].
Qed.

Lemma keeps_delay_process_all (eventDatas : list string) (s : State) :
  forallb no_directive eventDatas = true ->
  sat keeps_delay (process_all options eventDatas) s.
Proof.
  revert s. induction eventDatas as [|eventData rest IH]; intros s Hall;
    cbn [process_all]; [apply keeps_delay_refl |].
  cbn in Hall. apply andb_true_iff in Hall as [Hfirst Hrest].
  apply (sat_seq _ keeps_delay_trans);
    [now apply keeps_delay_processFrame | intros _ s1; now apply IH].
Qed.

Lemma keeps_delay_scheduleReconnect (s : State) :
  sat keeps_delay (scheduleReconnect options) s.
Proof.
  unfold sat, keeps_delay, scheduleReconnect, bind, get.
  destruct (isClosed s); [cbn; auto |].
  destruct (shouldRetry options _ s); cbn.
  - repeat constructor.
  - destruct (abortController s), (reader s); cbn; auto.
Qed.

Ltac keeps_delay_known :=
  first
    [ apply keeps_delay_dispatchEvent
    | apply keeps_delay_scheduleReconnect ].

Ltac keeps_delay_leaf :=
  unfold sat, keeps_delay, modify, emit, read, connect, clearTimeout,
    setLastEventId, close, bind, ret, throw, get, state_of, effects_of;
  cbn; intros;
  repeat match goal with
         | |- context [if ?b then _ else _] => destruct b; cbn
         end;
  split; (reflexivity || constructor).

Ltac keeps_delay_walk :=
  sat_walk keeps_delay_refl keeps_delay_trans
    keeps_delay_known keeps_delay_leaf.

Lemma keeps_delay_onReadError (error : Thrown) (s : State) :
  sat keeps_delay (onReadError options error) s.
Proof. unfold onReadError. keeps_delay_walk. Qed.

Lemma keeps_delay_onConnectError (error : Thrown) (s : State) :
  sat keeps_delay (onConnectError options error) s.
Proof. unfold onConnectError. keeps_delay_walk. Qed.

Lemma keeps_delay_onResponse (response : Response) (s : State) :
  sat keeps_delay (onResponse options response) s.
Proof. unfold onResponse. keeps_delay_walk. Qed.

Lemma keeps_delay_onTimer (s : State) :
  sat keeps_delay (onTimer options) s.
Proof. unfold onTimer. keeps_delay_walk. Qed.

Lemma keeps_delay_listeners (s : State) (event : string) (cb : Listener) :
  sat keeps_delay (addEventListener event cb) s
  /\ sat keeps_delay (removeEventListener event cb) s.
Proof.
  unfold addEventListener, removeEventListener. split.
  - destruct (inherited event); [apply keeps_delay_refl |].
    unfold sat, modify. cbn. split; [reflexivity | constructor].
  - destruct (inherited event); [apply keeps_delay_refl |].
    unfold sat, modify, state_of, effects_of. cbn.
    destruct (listeners s !! event) as [registered|];
      [| apply keeps_delay_refl].
    destruct (List.filter _ registered); split; (reflexivity || constructor).
Qed.

(** The loop over the frames of a chunk, and then [read()]. *)
Lemma keeps_delay_frames (eventDatas : list string) (rest : string)
    (s : State) :
  forallb no_directive eventDatas = true ->
  sat keeps_delay (process_all options eventDatas >> read rest) s.
Proof.
  intros Hall. apply (sat_seq _ keeps_delay_trans).
  - now apply keeps_delay_process_all.
  - intros _ s1. split; [reflexivity | constructor].
Qed.

(** A turn that brings no retry directive keeps the delay, and its timers
    are set with it. *)
Lemma keeps_delay_step (s : State) (i : Input) :
  silent s i = true ->
  keeps_delay s (fst (step options s i)) (snd (step options s i)).
Proof.
  intros Hsilent.
  assert (Hignore : forall error s1,
             keeps_delay s1 s1 [UnhandledRejection error])
    by (intros; apply keeps_delay_refl).
  assert (Hignore' : forall error s1,
             keeps_delay s1 s1 [ThrownToCaller error])
    by (intros; apply keeps_delay_refl).
  destruct i as [response|error|[text|]|error| | | | | | | |].
  3: { (* a chunk *)
    unfold silent, chunk_frames in Hsilent.
    destruct (pending s) as [| |buffer] eqn:Hpending;
      try (cbn [step]; rewrite Hpending; apply keeps_delay_refl).
    rewrite (step_chunk options s buffer text Hpending).
    apply (sat_settle _ keeps_delay_trans); [exact Hignore |].
    apply (sat_seq _ keeps_delay_trans); [keeps_delay_leaf | intros _ s1].
    apply (sat_try _ keeps_delay_trans);
      [now apply keeps_delay_frames | intros; apply keeps_delay_onReadError]. }
  all: cbn [step];
    try (destruct (pending s); try apply keeps_delay_refl);
    try (destruct (retryTimeout s); try apply keeps_delay_refl);
    try (apply (sat_settle _ keeps_delay_trans); [exact Hignore |]);
    try (apply (sat_called _ keeps_delay_trans); [exact Hignore' |]);
    try apply keeps_delay_refl.
  all: try (apply (sat_seq _ keeps_delay_trans);
            [keeps_delay_leaf | intros ? ?]).
  all: try (apply (sat_try _ keeps_delay_trans); [| intros ? ?]).
  all: try apply keeps_delay_onResponse.
  all: try apply keeps_delay_onConnectError.
  all: try apply keeps_delay_onReadError.
  all: try apply keeps_delay_onTimer.
  all: try apply keeps_delay_listeners.
  all: try (unfold onRead; keeps_delay_walk).
  all: keeps_delay_walk.
Qed.

Lemma keeps_delay_run (inputs : list Input) (s : State) :
  undirected options s inputs = true ->
  keeps_delay s (fst (run options s inputs)) (snd (run options s inputs)).
Proof.
  revert s. induction inputs as [|i inputs IH]; intros s Hall.
  - apply keeps_delay_refl.
  - cbn [undirected] in Hall. apply andb_true_iff in Hall as [Hi Hrest].
    cbn [run]. pose proof (keeps_delay_step s i Hi) as H1.
    destruct (step options s i) as [s1 out1]. cbn [fst snd] in *.
    specialize (IH s1 Hrest).
    destruct (run options s1 inputs) as [s2 out2]. cbn [fst snd] in *.
    exact (keeps_delay_trans _ _ _ _ _ H1 IH).
Qed.

(** *** The timers of a turn use the delay the turn ends with *)

Lemma no_timer_then_keeps_delay :
  composes sets_no_timer keeps_delay timers_use_delay.
Proof.
  intros s s1 s2 out1 out2 H1 [H2 F2]. unfold timers_use_delay.
  rewrite timeouts_app, H1, H2. exact F2.
Qed.

Lemma no_timer_then_timers_use_delay :
  composes sets_no_timer timers_use_delay timers_use_delay.
Proof.
  intros s s1 s2 out1 out2 H1 H2. unfold timers_use_delay in *.
  now rewrite timeouts_app, H1.
Qed.

Lemma no_timer_included : included sets_no_timer timers_use_delay.
Proof. intros s s1 out1 H. unfold timers_use_delay. rewrite H. constructor. Qed.

Lemma keeps_delay_included : included keeps_delay timers_use_delay.
Proof.
  intros s s1 out1 [H F]. unfold timers_use_delay. now rewrite H.
Qed.

Lemma timers_use_delay_settle (c : Act unit) (s : State) :
  sat timers_use_delay c s ->
  timers_use_delay s (fst (settle c s)) (snd (settle c s)).
Proof.
  unfold sat, settle, state_of, effects_of, timers_use_delay.
  destruct (c s) as [[[[]|error] s1] out1]; cbn; [auto |].
  intros H. rewrite timeouts_app. cbn. now rewrite app_nil_r.
Qed.

Lemma timers_use_delay_step (s : State) (i : Input) :
  timers_use_delay s (fst (step options s i)) (snd (step options s i)).
Proof.
  destruct (silent s i) eqn:Hsilent;
    [apply keeps_delay_included; now apply keeps_delay_step |].
  destruct i as [ | |[text|]| | | | | | | | |]; try discriminate Hsilent.
  unfold silent, chunk_frames in Hsilent.
  destruct (pending s) as [| |buffer] eqn:Hpending; try discriminate Hsilent.
  rewrite (step_chunk options s buffer text Hpending).
  apply timers_use_delay_settle.
  { apply (sat_bind sets_no_timer timers_use_delay timers_use_delay);
      [exact no_timer_then_timers_use_delay | exact no_timer_included
      | reflexivity | intros _ _].
    apply (sat_catch sets_no_timer keeps_delay timers_use_delay);
      [exact no_timer_then_keeps_delay | exact no_timer_included | |
       intros; apply keeps_delay_onReadError].
    apply (sat_seq _ sets_no_timer_trans);
      [apply sets_no_timer_process_all | intros; reflexivity]. }
Qed.

(** Reading a chunk whose first frame asks for the delay [d], and whose
    other frames have no directive, leaves the delay [d]: the first frame is
    processed in any case, and its delay is set before it is dispatched. *)
Lemma step_directive (s : State) (text eventData : string)
    (others : list string) (d : Z) :
  chunk_frames s text = eventData :: others ->
  retry (parseSSEEvent eventData) = Some d ->
  forallb no_directive others = true ->
  currentRetryDelay (fst (step options s (ReadResolved (Some text)))) = d.
Proof.
  unfold chunk_frames. intros Hframes Hretry Hothers.
  destruct (pending s) as [| |buffer] eqn:Hpending; try discriminate Hframes.
  rewrite (step_chunk options s buffer text Hpending), Hframes.
  assert (Hthen : composes (delay_is d) keeps_delay (delay_is d)).
  { intros s0 s1 s2 out1 out2 H1 [H2 _]. unfold delay_is in *. congruence. }
  assert (Hsame : included (delay_is d) (delay_is d))
    by (intros s0 s1 out1 H; exact H).
  assert (Hbody : forall s0,
             sat (delay_is d)
               (catch
                  (process_all options (eventData :: others) >>
                   read (remainder (String.length (buffer +:+ text))
                           (buffer +:+ text)))
                  (onReadError options)) s0).
  { intros s0.
    apply (sat_catch (delay_is d) keeps_delay (delay_is d));
      [exact Hthen | exact Hsame | | intros; apply keeps_delay_onReadError].
    apply (sat_bind (delay_is d) keeps_delay (delay_is d));
      [exact Hthen | exact Hsame | | intros; split; [reflexivity | constructor]].
    cbn [process_all].
    apply (sat_bind (delay_is d) keeps_delay (delay_is d));
      [exact Hthen | exact Hsame | |
       intros; now apply keeps_delay_process_all].
    unfold sat, delay_is.
    now rewrite processFrame_state, bookkeeping_currentRetryDelay, Hretry. }
  specialize (Hbody (set_pending NoRequest s)). revert Hbody.
  generalize (catch
                (process_all options (eventData :: others) >>
                 read (remainder (String.length (buffer +:+ text))
                         (buffer +:+ text)))
                (onReadError options)).
  intros c. unfold sat, settle, bind, state_of, effects_of, delay_is.
  cbn [modify].
  destruct (c (set_pending NoRequest s)) as [[[[]|error] s1] out1]; cbn; auto.
Qed.

End Delay.

(** ** The last event id claims *)

Section LastEventId.

Variable options : Options.

(** The [Last-Event-ID] header of a request is the last event id the
    connection holds; when it holds none, the header is what the caller's
    own headers have under that name, if anything. *)
Lemma resumption_header (s : State) :
  Fetch.headers (buildFetchOptions options s) !! "Last-Event-ID"
  = resumption options (lastEventId s).
Proof.
  unfold resumption.
  assert (Hbase : forall h : gmap string string,
             (h ∪ <["Accept" := "text/event-stream"]>
                    (<["Cache-Control" := "no-cache"]> ∅))
               !! "Last-Event-ID" = h !! "Last-Event-ID").
  { intros h. rewrite lookup_union.
    rewrite lookup_insert_ne by discriminate.
    rewrite lookup_insert_ne by discriminate.
    rewrite lookup_empty. now destruct (h !! "Last-Event-ID"). }
  unfold buildFetchOptions.
  destruct (sends_body (method options)); [destruct (body options) |];
    try destruct (header_falsy _ "Content-Type" && header_falsy _ "content-type");
    cbn [Fetch.headers];
    try (rewrite lookup_insert_ne by discriminate);
    (destruct (lastEventId s) as [id|];
     [now rewrite lookup_insert_eq | apply Hbase]).
Qed.

(** *** The id is kept *)

Lemma keeps_id_refl (s : State) : keeps_id s s [].
Proof. reflexivity. Qed.

Lemma keeps_id_trans : composes keeps_id keeps_id keeps_id.
Proof. intros s s1 s2 out1 out2 H1 H2. unfold keeps_id in *. congruence. Qed.

Lemma keeps_id_dispatchEvent (event : string) (data : EventData)
    (eventId : option string) (s : State) :
  sat keeps_id (dispatchEvent options event data eventId) s.
Proof. unfold sat, keeps_id. now rewrite dispatchEvent_state. Qed.

Ltac keeps_id_known := apply keeps_id_dispatchEvent.

Ltac keeps_id_leaf :=
  unfold sat, keeps_id, scheduleReconnect, modify, emit, read, connect,
    clearTimeout, setLastEventId, close, bind, ret, throw, get,
    state_of, effects_of;
  cbn; intros;
  repeat match goal with
         | |- context [if ?b then _ else _] => destruct b; cbn
         | |- context [match ?x with _ => _ end] => destruct x; cbn
         end;
  reflexivity.

Lemma keeps_id_onReadError (error : Thrown) (s : State) :
  sat keeps_id (onReadError options error) s.
Proof.
  unfold onReadError.
  sat_walk keeps_id_refl keeps_id_trans keeps_id_known keeps_id_leaf.
Qed.

(** A turn that neither brings a chunk nor is a call of [setLastEventId]
    keeps the last event id. *)
Lemma keeps_id_step (s : State) (i : Input) :
  match i with
  | ReadResolved (Some _) | CallSetLastEventId _ => False
  | _ => True
  end ->
  keeps_id s (fst (step options s i)) (snd (step options s i)).
Proof.
  intros Hkind.
  destruct i as [response|error|[text|]|error| | | | | | | |];
    try contradiction;
    sat_turn keeps_id_refl keeps_id_trans keeps_id_known keeps_id_leaf.
Qed.

(** *** Requests *)

Lemma no_request_refl (s : State) : no_request s s [].
Proof. reflexivity. Qed.

Lemma no_request_trans : composes no_request no_request no_request.
Proof.
  intros s s1 s2 out1 out2 H1 H2. unfold no_request in *.
  now rewrite requests_app, H1, H2.
Qed.

Lemma no_request_dispatchEvent (event : string) (data : EventData)
    (eventId : option string) (s : State) :
  sat no_request (dispatchEvent options event data eventId) s.
Proof. apply dispatchEvent_quiet. Qed.

Lemma no_request_process_all (eventDatas : list string) (s : State) :
  sat no_request (process_all options eventDatas) s.
Proof.
  revert s. induction eventDatas as [|eventData rest IH]; intros s;
    cbn [process_all]; [reflexivity |].
  apply (sat_seq _ no_request_trans);
    [apply processFrame_quiet | intros _ s1; apply IH].
Qed.

Lemma no_request_drain (turns : nat) (buffer : string) (s : State) :
  sat no_request (drain options turns buffer) s.
Proof.
  unfold sat. rewrite drain_frames.
  apply (sat_seq _ no_request_trans);
    [apply no_request_process_all | reflexivity].
Qed.

Ltac no_request_known :=
  first [ apply no_request_dispatchEvent | apply no_request_drain ].

Ltac no_request_leaf :=
  unfold sat, no_request, scheduleReconnect, modify, emit, read,
    clearTimeout, setLastEventId, close, bind, ret, throw, get,
    state_of, effects_of;
  cbn; intros;
  repeat match goal with
         | |- context [if ?b then _ else _] => destruct b; cbn
         | |- context [match ?x with _ => _ end] => destruct x; cbn
         end;
  reflexivity.

(** Only the timer makes the connection issue a request. *)
Lemma no_request_step (s : State) (i : Input) :
  i <> TimerFired ->
  no_request s (fst (step options s i)) (snd (step options s i)).
Proof.
  intros Hkind.
  destruct i as [response|error|[text|]|error| | | | | | | |];
    try contradiction;
    sat_turn no_request_refl no_request_trans no_request_known
      no_request_leaf.
Qed.

(** The timer fires: unless the connection is closed, [connect()] issues
    the request that [buildFetchOptions] builds from the state. *)
Lemma step_timer (s : State) (delay : Z) :
  retryTimeout s = Some delay ->
  isClosed s = false ->
  lastEventId (fst (step options s TimerFired)) = lastEventId s
  /\ snd (step options s TimerFired)
     = [DoFetch (url options) (buildFetchOptions options s)].
Proof.
  intros Htimer Hopen. cbn [step]. rewrite Htimer.
  unfold settle, onTimer, connect, bind, modify, get, emit. cbn.
  rewrite Hopen. cbn. split; reflexivity.
Qed.

Lemma step_timer_requests (s : State) :
  requests (snd (step options s TimerFired)) = []
  \/ requests (snd (step options s TimerFired))
     = [buildFetchOptions options (fst (step options s TimerFired))].
Proof.
  cbn [step]. destruct (retryTimeout s) as [delay|]; [| now left].
  unfold settle, onTimer, connect, bind, modify, get, emit. cbn.
  destruct (isClosed s); cbn; [now left | now right].
Qed.

(** *** The writes of a chunk *)

Lemma last_write_cons (id : option string) (eventData : string)
    (rest : list string) (s : State) :
  lastEventId s = id ->
  last_write id (eventData :: rest)
  = last_write (lastEventId (bookkeeping (parseSSEEvent eventData) s)) rest.
Proof.
  intros <-. unfold last_write. cbn [fold_left].
  now rewrite bookkeeping_lastEventId.
Qed.

Lemma last_write_kept (id : string) (eventDatas : list string) :
  last_write (Some id) eventDatas <> None.
Proof.
  revert id. induction eventDatas as [|eventData rest IH]; intros id;
    [discriminate |].
  unfold last_write in *. cbn [fold_left].
  destruct (eventId (parseSSEEvent eventData)); apply IH.
Qed.

Lemma writes_id_process_all (eventDatas : list string) (s : State) :
  sat (writes_id eventDatas) (process_all options eventDatas) s.
Proof.
  revert s. induction eventDatas as [|eventData rest IH]; intros s.
  - exists [], []. split; reflexivity.
  - unfold sat, writes_id. cbn [process_all]. unfold bind.
    pose proof (processFrame_state options eventData s) as Hstate.
    unfold state_of in Hstate.
    destruct (processFrame options eventData s) as [[[[]|error] s1] out1];
      cbn [fst snd] in Hstate; subst s1.
    + destruct (IH (bookkeeping (parseSSEEvent eventData) s))
        as (processed & rest' & -> & Hid).
      unfold state_of in *.
      destruct (process_all options _ _) as [[r s2] out2]. cbn [fst snd] in *.
      exists (eventData :: processed), rest'. split; [reflexivity |].
      now rewrite (last_write_cons _ _ _ s eq_refl).
    + exists [eventData], rest. split; [reflexivity |].
      cbn [state_of fst snd].
      now rewrite (last_write_cons _ _ _ s eq_refl).
Qed.

Lemma writes_then_keeps (eventDatas : list string) :
  composes (writes_id eventDatas) keeps_id (writes_id eventDatas).
Proof.
  intros s s1 s2 out1 out2 (processed & rest & Hsplit & Hid) Hkept.
  exists processed, rest. unfold keeps_id in Hkept. split; congruence.
Qed.

Lemma keeps_then_writes (eventDatas : list string) :
  composes keeps_id (writes_id eventDatas) (writes_id eventDatas).
Proof.
  intros s s1 s2 out1 out2 Hkept (processed & rest & Hsplit & Hid).
  exists processed, rest. unfold keeps_id in Hkept. split; congruence.
Qed.

Lemma writes_id_included (eventDatas : list string) :
  included (writes_id eventDatas) (writes_id eventDatas).
Proof. intros s s1 out1 H. exact H. Qed.

Lemma keeps_id_included (eventDatas : list string) :
  included keeps_id (writes_id eventDatas).
Proof. intros s s1 out1 H. exists [], eventDatas. split; [reflexivity | exact H]. Qed.

(** A chunk is read: the last event id is what the frames processed have
    made of it. *)
Lemma writes_id_step (s : State) (text : string) :
  writes_id (chunk_frames s text) s
    (fst (step options s (ReadResolved (Some text))))
    (snd (step options s (ReadResolved (Some text)))).
Proof.
  unfold chunk_frames.
  destruct (pending s) as [| |buffer] eqn:Hpending;
    try (cbn [step]; rewrite Hpending; exists [], []; split; reflexivity).
  rewrite (step_chunk options s buffer text Hpending).
  set (eventDatas := frames _ _). set (rest := remainder _ _).
  assert (Hbody : sat (writes_id eventDatas)
            (modify (set_pending NoRequest) >>
             catch (process_all options eventDatas >> read rest)
               (onReadError options)) s).
  { apply (sat_bind keeps_id (writes_id eventDatas) (writes_id eventDatas));
      [apply keeps_then_writes | apply keeps_id_included | reflexivity
      | intros _ _].
    apply (sat_catch (writes_id eventDatas) keeps_id (writes_id eventDatas));
      [apply writes_then_keeps | apply writes_id_included | |
       intros; apply keeps_id_onReadError].
    apply (sat_bind (writes_id eventDatas) keeps_id (writes_id eventDatas));
      [apply writes_then_keeps | apply writes_id_included
      | apply writes_id_process_all | intros; reflexivity]. }
  revert Hbody. unfold sat, settle, state_of, effects_of.
  generalize (modify (set_pending NoRequest) >>
              catch (process_all options eventDatas >> read rest)
                (onReadError options)).
  intros c. destruct (c s) as [[[[]|error] s1] out1]; cbn; auto.
Qed.

(** *** Successive reconnections *)

Lemma resumes_refl (s : State) : resumes options s s [].
Proof. split; [reflexivity | constructor]. Qed.

Lemma resumes_trans :
  composes (resumes options) (resumes options) (resumes options).
Proof.
  intros s s1 s2 out1 out2 [H1 F1] [H2 F2]. split; [congruence |].
  rewrite requests_app. apply Forall_app. split; [exact F1 |].
  rewrite H1 in F2. exact F2.
Qed.

Lemma resumes_step (s : State) (i : Input) :
  writes i = false ->
  resumes options s (fst (step options s i)) (snd (step options s i)).
Proof.
  intros Hkind.
  assert (Hkept : lastEventId (fst (step options s i)) = lastEventId s).
  { apply keeps_id_step. destruct i as [ | |[text|]| | | | | | | | |];
      (exact I || discriminate Hkind). }
  split; [exact Hkept |].
  destruct (Input_eq_TimerFired i) as [-> | Hother].
  - destruct (step_timer_requests s) as [-> | ->]; [constructor |].
    constructor; [| constructor].
    rewrite resumption_header. now rewrite Hkept.
  - rewrite (no_request_step s i Hother). constructor.
Qed.

Lemma resumes_run (s : State) (inputs : list Input) :
  forallb (fun i => negb (writes i)) inputs = true ->
  resumes options s (fst (run options s inputs)) (snd (run options s inputs)).
Proof.
  intros Hinputs. apply (sat_run _ resumes_refl resumes_trans).
  intros s' i Hin. apply resumes_step.
  rewrite forallb_forall in Hinputs. specialize (Hinputs i Hin).
  now apply negb_true_iff.
Qed.

End LastEventId.

(** ** The event's id *)

Section Deliveries.

Variable options : Options.
Variable eventDatas : list string.












End Deliveries.



(** ** The turn of a chunk *)

Section ChunkTurn.

Variable options : Options.

Lemma process_all_app (first second : list string) (s : State) :
  process_all options (first ++ second) s
  = (process_all options first >> process_all options second) s.
Proof.
  revert s. induction first as [|eventData first IH]; intros s.
  - cbn [app process_all]. unfold bind, ret.
    now destruct (process_all options second s) as [[r s1] out1].
  - cbn [app process_all]. unfold bind.
    destruct (processFrame options eventData s) as [[[[]|error] s1] out1];
      [| reflexivity].
    rewrite IH. unfold bind.
    destruct (process_all options first s1) as [[[[]|error] s2] out2];
      [| reflexivity].
    destruct (process_all options second s2) as [[r s3] out3].
    now rewrite app_assoc.
Qed.

(** The read callback by the outcome of the loop: the rest of the buffer is
    awaited on, or else the error handler of the read runs. *)
Lemma read_turn (eventDatas : list string) (rest : string) (s : State) :
  settle
    (modify (set_pending NoRequest) >>
     catch (process_all options eventDatas >> read rest)
       (onReadError options)) s
  = match process_all options eventDatas (set_pending NoRequest s) with
    | (Returned _, s1, out1) => (set_pending (AwaitingChunk rest) s1, out1)
    | (Threw error, s1, out1) =>
        let '(s2, out2) := settle (onReadError options error) s1 in
        (s2, out1 ++ out2)
    end.
Proof.
  unfold settle, bind, catch. cbn [modify].
  destruct (process_all options eventDatas (set_pending NoRequest s))
    as [[[[]|error] s1] out1].
  - cbn. now rewrite app_nil_r.
  - destruct (onReadError options error s1) as [[[[]|error'] s2] out2];
      cbn; now rewrite ?app_assoc.
Qed.

(** The frames the loop body ran for are first frames of the chunk. *)
Lemma attempted_prefix (eventDatas : list string) (s : State) :
  exists rest, eventDatas = attempted options eventDatas s ++ rest.
Proof.
  revert s. induction eventDatas as [|eventData rest IH]; intros s;
    [now exists [] |].
  cbn [attempted].
  destruct (processFrame options eventData s) as [[[[]|error] s1] out1].
  - destruct (IH s1) as [rest' Hrest]. exists rest'.
    cbn [app]. now rewrite <- Hrest.
  - now exists rest.
Qed.

(** When nothing throws, the loop body has run for every frame. *)
Lemma attempted_all (eventDatas : list string) (s : State) :
  outcome_of (process_all options eventDatas s) = Returned tt ->
  attempted options eventDatas s = eventDatas.
Proof.
  revert s. induction eventDatas as [|eventData rest IH]; intros s;
    [reflexivity |].
  cbn [process_all attempted]. unfold bind, outcome_of.
  destruct (processFrame options eventData s) as [[[[]|error] s1] out1];
    cbn [fst]; [| discriminate].
  intros Hrest. f_equal. apply IH. unfold outcome_of.
  now destruct (process_all options rest s1) as [[r s2] out2].
Qed.

(** The assignments of the frames the loop body ran for, and of no other,
    are in the state the loop ends with. *)
Lemma process_all_state (eventDatas : list string) (s : State) :
  lastEventId (state_of (process_all options eventDatas s))
  = last_write (lastEventId s) (attempted options eventDatas s)
  /\ currentRetryDelay (state_of (process_all options eventDatas s))
     = last_delay (currentRetryDelay s) (attempted options eventDatas s).
Proof.
  revert s. induction eventDatas as [|eventData rest IH]; intros s;
    [split; reflexivity |].
  cbn [process_all attempted]. unfold bind, state_of.
  pose proof (processFrame_state options eventData s) as Hstate.
  unfold state_of in Hstate.
  destruct (processFrame options eventData s) as [[[[]|error] s1] out1];
    cbn [fst snd] in Hstate; subst s1.
  - destruct (IH (bookkeeping (parseSSEEvent eventData) s)) as [Hid Hdelay].
    unfold state_of in Hid, Hdelay.
    destruct (process_all options rest _) as [[r s2] out2].
    cbn [fst snd] in *. rewrite Hid, Hdelay.
    unfold last_write, last_delay. cbn [fold_left].
    now rewrite bookkeeping_lastEventId, bookkeeping_currentRetryDelay.
  - cbn [fst snd]. unfold last_write, last_delay. cbn [fold_left].
    now rewrite bookkeeping_lastEventId, bookkeeping_currentRetryDelay.
Qed.

(** The turn of a chunk leaves the last event id and the retry delay as
    the read loop leaves them. *)
Lemma chunk_turn_state (s : State) (text : string) :
  let looped :=
    state_of (process_all options (chunk_frames s text)
                (set_pending NoRequest s)) in
  lastEventId (fst (step options s (ReadResolved (Some text))))
  = lastEventId looped
  /\ currentRetryDelay (fst (step options s (ReadResolved (Some text))))
     = currentRetryDelay looped.
Proof.
  cbn zeta. unfold chunk_frames.
  destruct (pending s) as [| |buffer] eqn:Hpending;
    try (cbn [step]; rewrite Hpending; split; reflexivity).
  rewrite (step_chunk options s buffer text Hpending), read_turn.
  unfold state_of.
  destruct (process_all options _ (set_pending NoRequest s))
    as [[[[]|error] s1] out1]; cbn [fst snd]; [split; reflexivity |].
  pose proof (keeps_id_onReadError options error s1) as Hid.
  pose proof (keeps_delay_onReadError options error s1) as [Hdelay _].
  unfold sat, keeps_id, state_of, settle in *.
  destruct (onReadError options error s1) as [[[[]|error'] s2] out2];
    cbn [fst snd] in *; auto.
Qed.

(** A chunk with a frame that asks for the delay [d]: when the loop gets
    to that frame and the frames after it have no directive, the turn
    leaves the delay [d]. *)
Lemma chunk_directive (s : State) (text eventData : string)
    (before others : list string) (d : Z) :
  chunk_frames s text = before ++ eventData :: others ->
  outcome_of (process_all options before (set_pending NoRequest s))
  = Returned tt ->
  retry (parseSSEEvent eventData) = Some d ->
  forallb no_directive others = true ->
  currentRetryDelay (fst (step options s (ReadResolved (Some text)))) = d.
Proof.
  intros Hframes Hbefore Hretry Hothers.
  destruct (chunk_turn_state s text) as [_ ->].
  destruct (process_all_state (chunk_frames s text) (set_pending NoRequest s))
    as [_ ->].
  rewrite Hframes.
  assert (Hgets : exists rest,
             attempted options (before ++ eventData :: others)
               (set_pending NoRequest s)
             = before ++ eventData :: rest
             /\ forallb no_directive rest = true).
  { revert Hbefore. generalize (set_pending NoRequest s). clear Hframes.
    induction before as [|first before IH]; intros s0 Hbefore.
    - cbn [app attempted].
      destruct (processFrame options eventData s0)
        as [[[[]|error] s1] out1].
      + destruct (attempted_prefix others s1) as [dropped Hsplit].
        exists (attempted options others s1). split; [reflexivity |].
        rewrite Hsplit, forallb_app in Hothers.
        now apply andb_prop in Hothers as [Hrun _].
      + now exists [].
    - cbn [app attempted]. cbn [process_all] in Hbefore.
      unfold bind, outcome_of in Hbefore.
      destruct (processFrame options first s0) as [[[[]|error] s1] out1];
        cbn [fst] in Hbefore; [| discriminate].
      destruct (IH s1) as (rest & -> & Hrest).
      { unfold outcome_of.
        now destruct (process_all options before s1) as [[r s2] out2]. }
      now exists rest. }
  destruct Hgets as (rest & -> & Hrest).
  unfold last_delay. rewrite fold_left_app. cbn [fold_left]. rewrite Hretry.
  clear - Hrest. induction rest as [|eventData' rest IH]; [reflexivity |].
  cbn [forallb] in Hrest. apply andb_prop in Hrest as [Hfirst Hrest].
  cbn [fold_left]. unfold no_directive in Hfirst.
  destruct (retry (parseSSEEvent eventData')); [discriminate | now apply IH].
Qed.

End ChunkTurn.

(** ** The claims about what a chunk leaves *)

(** C5: a chunk brings a frame whose last numeric retry value is [d],
    anywhere among its frames: after frames that the read loop has
    processed (so that it gets to this one), and followed perhaps by frames
    without retry directive. From then on the retry delay is [d], whatever
    delay was configured, and every timer the connection sets for a
    reconnection is set with [d]: in the turn of that frame and in all
    later turns, as long as no later frame brings another retry directive.
    Frames without a retry field, in the same chunk or in later ones, do
    not reset the delay. *)
Theorem C5_retry_directive_persists
    (options : Options) (s : State) (text eventData : string)
    (before others : list string) (d : Z) (later : list Input) :
  chunk_frames s text = before ++ eventData :: others ->
  outcome_of (process_all options before (set_pending NoRequest s))
  = Returned tt ->
  directive (field_values "retry" eventData) = Some d ->
  forallb no_directive others = true ->
  undirected options (fst (step options s (ReadResolved (Some text)))) later
  = true ->
  currentRetryDelay (fst (step options s (ReadResolved (Some text)))) = d
  /\ currentRetryDelay
       (fst (run options s (ReadResolved (Some text) :: later))) = d
  /\ Forall (fun delay => delay = d)
       (timeouts (snd (run options s (ReadResolved (Some text) :: later)))).
Proof.
  intros Hframe Hbefore Hdirective Hothers Hlater.
  destruct (parseSSEEvent_spec eventData) as (_ & _ & _ & Hretry).
  rewrite Hdirective in Hretry.
  pose proof (chunk_directive options s text eventData before others d
                Hframe Hbefore Hretry Hothers) as Hd.
  pose proof (timers_use_delay_step options s (ReadResolved (Some text)))
    as Hturn.
  pose proof (keeps_delay_run options later _ Hlater) as [Hkept Htimers].
  cbn [run]. revert Hd Hturn Hkept Htimers.
  destruct (step options s (ReadResolved (Some text))) as [s1 out1].
  cbn [fst snd].
  destruct (run options s1 later) as [s2 out2]. cbn [fst snd].
  unfold timers_use_delay. intros Hd Hturn Hkept Htimers.
  rewrite Hd in *.
  split; [reflexivity |]. split; [exact Hkept |].
  rewrite timeouts_app. apply Forall_app. auto.
Qed.

Lemma C5_retry_directive_persists_witness :
  chunk_frames Sample.configured_open Sample.keep_alive_chunk
  = [": keep-alive"] ++ "retry: 1500" :: ["data: y"]
  /\ outcome_of
       (process_all Sample.configured [": keep-alive"]
          (set_pending NoRequest Sample.configured_open)) = Returned tt
  /\ directive (field_values "retry" "retry: 1500") = Some 1500
  /\ timeouts
       (snd (run Sample.configured Sample.configured_open
               [ReadResolved (Some Sample.keep_alive_chunk);
                ReadResolved (Some ("data: x" +:+ Str.nl +:+ Str.nl));
                ReadResolved None; TimerFired;
                FetchRejected (Error "network" None); TimerFired]))
     = [1500; 1500]
  /\ Forall (fun delay => delay = 1500)
       (timeouts
          (snd (run Sample.configured Sample.configured_open
                  [ReadResolved (Some Sample.keep_alive_chunk);
                   ReadResolved (Some ("data: x" +:+ Str.nl +:+ Str.nl));
                   ReadResolved None; TimerFired;
                   FetchRejected (Error "network" None); TimerFired]))).
Proof.
  split; [reflexivity |]. split; [reflexivity |]. split; [reflexivity |].
  split; [reflexivity |].
  exact (proj2 (proj2
           (C5_retry_directive_persists Sample.configured
              Sample.configured_open Sample.keep_alive_chunk
              "retry: 1500" [": keep-alive"] ["data: y"] 1500
              [ReadResolved (Some ("data: x" +:+ Str.nl +:+ Str.nl));
               ReadResolved None; TimerFired;
               FetchRejected (Error "network" None); TimerFired]
              eq_refl eq_refl eq_refl eq_refl eq_refl))).
Defined.

(** C4: every request the connection issues in a turn carries the last
    event id it holds as [Last-Event-ID], and none of its own making when
    it holds none. The timer of a reconnection, when it fires on a
    connection that is not closed, issues exactly that request and leaves
    the id as it is. The id changes only by a write, and the last write
    wins: a call of [setLastEventId] sets it; a chunk sets it to the id of
    the last frame that has one among the frames the read loop ran its body
    for, which are all complete frames of the chunk when no callback throws
    (and else those up to and with the frame whose dispatch threw), and
    keeps it when none of them has an id; every other turn (a failed or
    ended request, a response, a timer, a close) keeps it. So over any
    number of turns without a write, every reconnection carries the same
    id. *)
Theorem C4_last_event_id_resumption (options : Options) (s : State)
    (i : Input) (inputs : list Input) :
  let after := fst (step options s i) in
  Forall
    (fun request =>
       Fetch.headers request !! "Last-Event-ID"
       = resumption options (lastEventId after))
    (requests (snd (step options s i)))
  /\ (i = TimerFired -> retryTimeout s <> None -> isClosed s = false ->
      requests (snd (step options s i)) = [buildFetchOptions options s]
      /\ lastEventId after = lastEventId s)
  /\ match i with
     | CallSetLastEventId id => lastEventId after = id
     | ReadResolved (Some text) =>
         lastEventId after
         = last_write (lastEventId s)
             (attempted options (chunk_frames s text)
                (set_pending NoRequest s))
         /\ (outcome_of
               (process_all options (chunk_frames s text)
                  (set_pending NoRequest s)) = Returned tt ->
             lastEventId after
             = last_write (lastEventId s) (chunk_frames s text))
         /\ (lastEventId s <> None -> lastEventId after <> None)
     | _ => lastEventId after = lastEventId s
     end
  /\ (forallb (fun i => negb (writes i)) inputs = true ->
      lastEventId (fst (run options s inputs)) = lastEventId s
      /\ Forall
           (fun request =>
              Fetch.headers request !! "Last-Event-ID"
              = resumption options (lastEventId s))
           (requests (snd (run options s inputs)))).
Proof.
  cbn zeta. split; [| split; [| split]].
  - destruct (Input_eq_TimerFired i) as [-> | Hother].
    + destruct (step_timer_requests options s) as [-> | ->];
        [constructor |].
      constructor; [apply resumption_header | constructor].
    + rewrite (no_request_step options s i Hother). constructor.
  - intros -> Htimer Hopen.
    destruct (retryTimeout s) as [delay|] eqn:Hdelay; [| contradiction].
    destruct (step_timer options s delay Hdelay Hopen) as [Hid ->].
    split; [reflexivity | exact Hid].
  - destruct i as [response|error|[text|]|error| | | | |id| | |];
      try (apply keeps_id_step; exact I).
    + destruct (chunk_turn_state options s text) as [Hid _].
      destruct (process_all_state options (chunk_frames s text)
                  (set_pending NoRequest s)) as [Hloop _].
      rewrite Hloop in Hid. cbn [lastEventId set_pending] in Hid.
      split; [exact Hid |]. split.
      * intros Hall. now rewrite Hid, (attempted_all options _ _ Hall).
      * rewrite Hid. destruct (lastEventId s) as [id|]; [| contradiction].
        intros _. apply last_write_kept.
    + reflexivity.
  - intros Hinputs. exact (resumes_run options s inputs Hinputs).
Qed.

Lemma C4_last_event_id_resumption_witness :
  lastEventId Sample.after_notice = Some "1"
  /\ forallb (fun i => negb (writes i))
       [ReadResolved None; TimerFired; FetchResolved (Sample.response 503);
        TimerFired; FetchRejected (Error "network" None); TimerFired]
     = true
  /\ length
       (requests
          (snd (run Sample.options Sample.after_notice
                  [ReadResolved None; TimerFired;
                   FetchResolved (Sample.response 503);
                   TimerFired; FetchRejected (Error "network" None);
                   TimerFired]))) = 3%nat
  /\ Forall
       (fun request => Fetch.headers request !! "Last-Event-ID" = Some "1")
       (requests
          (snd (run Sample.options Sample.after_notice
                  [ReadResolved None; TimerFired;
                   FetchResolved (Sample.response 503);
                   TimerFired; FetchRejected (Error "network" None);
                   TimerFired]))).
Proof.
  split; [reflexivity |]. split; [reflexivity |]. split; [reflexivity |].
  exact (proj2 (proj2 (proj2 (proj2
           (C4_last_event_id_resumption Sample.options Sample.after_notice
              TimerFired
              [ReadResolved None; TimerFired;
               FetchResolved (Sample.response 503);
               TimerFired; FetchRejected (Error "network" None);
               TimerFired]))) eq_refl)).
Defined.

(** ** The frame buffer: nothing is lost, and chunk seams do not matter *)

Section Buffer.

Lemma slice_split (k : nat) (s : string) :
  Str.slice_to k s +:+ Str.slice_from k s = s.
Proof.
  unfold Str.slice_to, Str.slice_from. revert k.
  induction s as [|c s IH]; intros [|k]; cbn; try reflexivity.
  - now rewrite substring_all.
  - f_equal. apply IH.
Qed.

Lemma substring_empty (k m : nat) : String.substring k m "" = "".
Proof. destruct k, m; reflexivity. Qed.

Lemma substring_add (s : string) (k m n : nat) :
  String.substring k (m + n) s
  = String.substring k m s +:+ String.substring (k + m) n s.
Proof.
  revert k m. induction s as [|c s IH]; intros k m.
  - now rewrite !substring_empty.
  - destruct k as [|k].
    + destruct m as [|m]; [reflexivity |].
      cbn [Nat.add String.substring String.append]. f_equal.
      exact (IH 0%nat m).
    + cbn [Nat.add String.substring]. apply IH.
Qed.

Lemma slice_from_step (k m : nat) (s : string) :
  (k + m <= String.length s)%nat ->
  Str.slice_from k s = String.substring k m s +:+ Str.slice_from (k + m) s.
Proof.
  unfold Str.slice_from. intros Hk.
  replace (String.length s - k)%nat
    with (m + (String.length s - (k + m)))%nat by lia.
  apply substring_add.
Qed.

Lemma index_found_length (pat s : string) (k : nat) :
  (0 < String.length pat)%nat ->
  String.index 0 pat s = Some k ->
  (k + String.length pat <= String.length s)%nat.
Proof.
  intros Hpat Hindex. apply String.index_correct1 in Hindex.
  pose proof (substring_length_left s k (String.length pat)) as H.
  rewrite Hindex in H. lia.
Qed.

(** A buffer with a blank line is the frame before the first blank line,
    the blank line, and the rest. *)
Lemma boundary_split (buffer : string) (boundary : nat) :
  Str.indexOf blank_line buffer = Some boundary ->
  buffer
  = Str.slice_to boundary buffer +:+ blank_line
    +:+ Str.slice_from (boundary + 2) buffer.
Proof.
  unfold Str.indexOf. intros Hindex.
  pose proof (index_found_length blank_line _ _ (Nat.lt_0_succ 1) Hindex)
    as Hlen.
  pose proof (String.index_correct1 _ _ _ _ Hindex) as Hfound.
  rewrite <- (slice_split boundary buffer) at 1. f_equal.
  rewrite (slice_from_step boundary 2 buffer Hlen).
  now rewrite <- Hfound.
Qed.

Lemma substring_of_prefix (j m k : nat) (s : string) :
  (j + m <= k)%nat ->
  String.substring j m (String.substring 0 k s) = String.substring j m s.
Proof.
  revert j m k. induction s as [|c s IH]; intros j m k Hk.
  - destruct k; reflexivity.
  - destruct k as [|k].
    + assert (j = 0%nat) by lia. assert (m = 0%nat) by lia. subst. reflexivity.
    + cbn [String.substring]. destruct j as [|j].
      * destruct m as [|m]; [reflexivity |].
        cbn [String.substring]. f_equal. apply IH. lia.
      * cbn [String.substring]. apply IH. lia.
Qed.

(** The frame before the first blank line has no blank line. *)
Lemma frame_has_no_boundary (buffer : string) (boundary : nat) :
  Str.indexOf blank_line buffer = Some boundary ->
  Str.indexOf blank_line (Str.slice_to boundary buffer) = None.
Proof.
  unfold Str.indexOf, Str.slice_to. intros Hindex.
  destruct (String.index 0 blank_line (String.substring 0 boundary buffer))
    as [j|] eqn:Hinner; [| reflexivity].
  exfalso.
  pose proof (index_found_length blank_line _ _ (Nat.lt_0_succ 1) Hinner)
    as Hlen.
  pose proof (substring_length_le buffer 0 boundary) as Hshort.
  pose proof (String.index_correct1 _ _ _ _ Hinner) as Hfound.
  rewrite substring_of_prefix in Hfound by (cbn in *; lia).
  refine (String.index_correct2 _ _ _ _ Hindex j _ _ Hfound);
    cbn in *; lia.
Qed.

(** The frames of a buffer, one turn of the loop at a time. *)
Lemma all_frames_step (buffer : string) :
  all_frames buffer
  = match Str.indexOf blank_line buffer with
    | None => []
    | Some boundary =>
        Str.slice_to boundary buffer
        :: all_frames (Str.slice_from (boundary + 2) buffer)
    end
  /\ leftover buffer
     = match Str.indexOf blank_line buffer with
       | None => buffer
       | Some boundary => leftover (Str.slice_from (boundary + 2) buffer)
       end.
Proof.
  unfold all_frames, leftover.
  destruct (frames_enough (S (String.length buffer)) buffer) as (<- & <- & _);
    [lia |].
  cbn [frames remainder]. fold blank_line.
  destruct (Str.indexOf blank_line buffer) as [boundary|] eqn:Hb; [| auto].
  pose proof (boundary_shrinks buffer boundary Hb) as Hshort.
  destruct (frames_enough (String.length buffer)
              (Str.slice_from (boundary + 2) buffer)) as (-> & -> & _);
    [lia | auto].
Qed.

Lemma buffer_induction (P : string -> Prop) :
  (forall buffer,
      (forall shorter,
          (String.length shorter < String.length buffer)%nat -> P shorter) ->
      P buffer) ->
  forall buffer, P buffer.
Proof.
  intros Hstep buffer.
  remember (String.length buffer) as n eqn:Hn.
  revert buffer Hn. induction n as [n IH] using lt_wf_ind.
  intros buffer ->. apply Hstep. intros shorter Hshorter.
  exact (IH _ Hshorter shorter eq_refl).
Qed.

Lemma framed_cons (eventData : string) (rest : list string) :
  framed (eventData :: rest) = eventData +:+ blank_line +:+ framed rest.
Proof.
  unfold framed. cbn [map]. destruct rest as [|next rest].
  - cbn [map String.concat]. now rewrite append_empty_r.
  - change (String.concat "" ((eventData +:+ blank_line) :: map _ (next :: rest)))
      with ((eventData +:+ blank_line)
            +:+ String.concat "" (map (fun e => e +:+ blank_line) (next :: rest))).
    now rewrite append_assoc.
Qed.

Lemma prefix_append (pat x y : string) :
  String.prefix pat x = true -> String.prefix pat (x +:+ y) = true.
Proof.
  revert x. induction pat as [|a pat IH]; intros x.
  - intros _. now destruct (x +:+ y).
  - destruct x as [|b x]; cbn [String.prefix String.append]; [discriminate |].
    destruct (ascii_dec a b); [apply IH | discriminate].
Qed.

Lemma prefix_append_false (pat x y : string) :
  (String.length pat <= String.length x)%nat ->
  String.prefix pat x = false -> String.prefix pat (x +:+ y) = false.
Proof.
  revert x. induction pat as [|a pat IH]; intros x Hlen.
  - now destruct x.
  - destruct x as [|b x]; cbn [String.length] in Hlen; [lia |].
    cbn [String.prefix String.append].
    destruct (ascii_dec a b); [apply IH; lia | reflexivity].
Qed.

(** The first occurrence of a pattern in a text is its first occurrence in
    the text with more text added. *)
Lemma index_append (pat x y : string) (k : nat) :
  (0 < String.length pat)%nat ->
  String.index 0 pat x = Some k ->
  String.index 0 pat (x +:+ y) = Some k.
Proof.
  intros Hpat. revert k. induction x as [|c x IH]; intros k.
  - destruct pat; [cbn in Hpat; lia | discriminate].
  - cbn [String.append String.index].
    destruct (String.prefix pat (String c x)) eqn:Hprefix.
    + intros Hk.
      change (String c (x +:+ y)) with (String c x +:+ y).
      now rewrite (prefix_append _ _ y Hprefix).
    + destruct (String.index 0 pat x) as [k'|] eqn:Hrest; [| discriminate].
      intros Hk.
      pose proof (index_found_length pat x k' Hpat Hrest) as Hlen.
      change (String c (x +:+ y)) with (String c x +:+ y).
      rewrite (prefix_append_false pat (String c x) y)
        by (exact Hprefix || (cbn [String.length]; lia)).
      now rewrite (IH k' eq_refl).
Qed.

Lemma slice_to_append_le (k : nat) (x y : string) :
  (k <= String.length x)%nat ->
  Str.slice_to k (x +:+ y) = Str.slice_to k x.
Proof.
  unfold Str.slice_to. revert k.
  induction x as [|c x IH]; intros k Hk.
  - cbn in Hk. assert (k = 0%nat) by lia. subst. now destruct y.
  - destruct k as [|k]; [reflexivity |].
    cbn [String.append String.substring]. f_equal. apply IH.
    cbn in Hk. lia.
Qed.

Lemma slice_from_append_le (j : nat) (x y : string) :
  (j <= String.length x)%nat ->
  Str.slice_from j (x +:+ y) = Str.slice_from j x +:+ y.
Proof.
  intros Hj.
  rewrite <- (slice_split j x) at 1.
  pose proof (substring_length_le x 0 j) as Hshort.
  assert (Hexact : String.length (Str.slice_to j x) = j).
  { pose proof (f_equal String.length (slice_split j x)) as Hsum.
    rewrite length_append in Hsum. unfold Str.slice_to, Str.slice_from in *.
    pose proof (substring_length_le x j (String.length x - j)). lia. }
  rewrite append_assoc. rewrite <- Hexact at 1.
  apply slice_from_append.
Qed.

(** The frames of a buffer with more text added are the frames of the
    buffer and then the frames of what it left with the text added. *)
Lemma all_frames_append (y : string) :
  forall x,
    all_frames (x +:+ y) = all_frames x ++ all_frames (leftover x +:+ y)
    /\ leftover (x +:+ y) = leftover (leftover x +:+ y).
Proof.
  apply (buffer_induction
           (fun x =>
              all_frames (x +:+ y) = all_frames x ++ all_frames (leftover x +:+ y)
              /\ leftover (x +:+ y) = leftover (leftover x +:+ y))).
  intros x IH.
  destruct (all_frames_step x) as [Hframes Hleft].
  destruct (Str.indexOf blank_line x) as [boundary|] eqn:Hb.
  - pose proof (boundary_shrinks x boundary Hb) as Hshort.
    pose proof (index_found_length blank_line x boundary (Nat.lt_0_succ 1) Hb)
      as Hlen.
    destruct (all_frames_step (x +:+ y)) as [Hframes' Hleft'].
    unfold Str.indexOf in *.
    rewrite (index_append blank_line x y boundary (Nat.lt_0_succ 1) Hb)
      in Hframes', Hleft'.
    rewrite slice_from_append_le in Hframes', Hleft' by (cbn in Hlen; lia).
    rewrite slice_to_append_le in Hframes' by (cbn in Hlen; lia).
    destruct (IH (Str.slice_from (boundary + 2) x)) as [IHf IHl]; [lia |].
    rewrite Hframes', Hleft', Hframes, Hleft, IHf, IHl. auto.
  - rewrite Hframes, Hleft. auto.
Qed.

End Buffer.

(** The frames taken off a buffer, each with its blank line, and what is
    left make up the buffer again; no frame contains a blank line and none
    is left in the rest. *)
Lemma buffer_splits (buffer : string) :
  framed (all_frames buffer) +:+ leftover buffer = buffer
  /\ Str.indexOf blank_line (leftover buffer) = None
  /\ Forall (fun eventData => Str.indexOf blank_line eventData = None)
       (all_frames buffer).
Proof.
  revert buffer.
  apply (buffer_induction
           (fun buffer =>
              framed (all_frames buffer) +:+ leftover buffer = buffer
              /\ Str.indexOf blank_line (leftover buffer) = None
              /\ Forall (fun eventData =>
                           Str.indexOf blank_line eventData = None)
                   (all_frames buffer))).
  intros buffer IH.
  destruct (all_frames_step buffer) as [-> ->].
  destruct (Str.indexOf blank_line buffer) as [boundary|] eqn:Hb.
  - pose proof (boundary_shrinks buffer boundary Hb) as Hshort.
    destruct (IH (Str.slice_from (boundary + 2) buffer))
      as (Hback & Hrest & Hall); [lia |].
    split; [| split; [exact Hrest |]].
    + rewrite framed_cons, !append_assoc, Hback.
      symmetry. exact (boundary_split buffer boundary Hb).
    + constructor; [exact (frame_has_no_boundary buffer boundary Hb) | exact Hall].
  - split; [reflexivity |]. split; [exact Hb | constructor].
Qed.

(** ** Chunks and frames *)

Section Seam.

Variable options : Options.

Lemma set_pending_same (p : Pending) (s : State) :
  pending s = p -> set_pending p s = s.
Proof. destruct s. cbn. now intros ->. Qed.

Lemma set_pending_twice (p q : Pending) (s : State) :
  set_pending p (set_pending q s) = set_pending p s.
Proof. reflexivity. Qed.

Lemma keeps_pending_refl (s : State) : keeps_pending s s [].
Proof. reflexivity. Qed.

Lemma keeps_pending_trans : composes keeps_pending keeps_pending keeps_pending.
Proof.
  intros s s1 s2 out1 out2 H1 H2. unfold keeps_pending in *. congruence.
Qed.

Lemma keeps_pending_dispatchEvent (event : string) (data : EventData)
    (eventId : option string) (s : State) :
  sat keeps_pending (dispatchEvent options event data eventId) s.
Proof. unfold sat, keeps_pending. now rewrite dispatchEvent_state. Qed.

Lemma keeps_pending_processFrame (eventData : string) (s : State) :
  sat keeps_pending (processFrame options eventData) s.
Proof.
  unfold sat, keeps_pending. rewrite processFrame_state.
  apply bookkeeping_rest.
Qed.

Lemma keeps_pending_process_all (eventDatas : list string) (s : State) :
  sat keeps_pending (process_all options eventDatas) s.
Proof.
  revert s. induction eventDatas as [|eventData rest IH]; intros s;
    cbn [process_all]; [reflexivity |].
  apply (sat_seq _ keeps_pending_trans);
    [apply keeps_pending_processFrame | intros _ s1; apply IH].
Qed.

Ltac keeps_pending_known :=
  idtac;
  match goal with
  | |- sat _ (dispatchEvent _ _ _ _) _ => apply keeps_pending_dispatchEvent
  end.

Ltac keeps_pending_leaf :=
  unfold sat, keeps_pending, scheduleReconnect, modify, emit,
    clearTimeout, setLastEventId, close, bind, ret, throw, get,
    state_of, effects_of;
  cbn; intros;
  repeat match goal with
         | |- context [if ?b then _ else _] => destruct b; cbn
         | |- context [match ?x with _ => _ end] => destruct x; cbn
         end;
  reflexivity.

(** After a failed read nothing is awaited: the loop does not read on. *)
Lemma keeps_pending_onReadError (error : Thrown) (s : State) :
  sat keeps_pending (onReadError options error) s.
Proof.
  unfold onReadError.
  sat_walk keeps_pending_refl keeps_pending_trans keeps_pending_known
    keeps_pending_leaf.
Qed.

Lemma step_chunk_frames (s : State) (buffer text : string) :
  pending s = AwaitingChunk buffer ->
  step options s (ReadResolved (Some text))
  = settle
      (modify (set_pending NoRequest) >>
       catch
         (process_all options (all_frames (buffer +:+ text)) >>
          read (leftover (buffer +:+ text)))
         (onReadError options)) s.
Proof. apply step_chunk. Qed.

End Seam.

(** Where the transport cuts the stream into chunks makes no difference:
    two chunks read one after the other leave the connection in the state,
    and have the effects, of the one chunk that is both together. *)
Theorem X_chunk_seam (options : Options) (s : State)
    (buffer text1 text2 : string) :
  pending s = AwaitingChunk buffer ->
  run options s [ReadResolved (Some text1); ReadResolved (Some text2)]
  = step options s (ReadResolved (Some (text1 +:+ text2))).
Proof.
  intros Hpending. cbn [run].
  rewrite (step_chunk_frames options s buffer (text1 +:+ text2) Hpending).
  rewrite (step_chunk_frames options s buffer text1 Hpending).
  rewrite <- append_assoc.
  destruct (all_frames_append text2 (buffer +:+ text1)) as [-> ->].
  rewrite !read_turn, process_all_app. unfold bind.
  pose proof (keeps_pending_process_all options
                (all_frames (buffer +:+ text1)) (set_pending NoRequest s))
    as Hkept.
  unfold sat, keeps_pending, state_of in Hkept.
  cbn [pending set_pending] in Hkept.
  destruct (process_all options (all_frames (buffer +:+ text1))
              (set_pending NoRequest s)) as [[[[]|error] s1] out1];
    cbn [fst snd] in Hkept.
  - rewrite (step_chunk_frames options _ (leftover (buffer +:+ text1)) text2)
      by reflexivity.
    rewrite read_turn, set_pending_twice, (set_pending_same _ _ Hkept).
    destruct (process_all options _ s1) as [[[[]|error] s2] out2].
    + now rewrite !app_nil_r.
    + destruct (settle (onReadError options error) s2) as [s3 out3].
      now rewrite !app_nil_r, app_assoc.
  - pose proof (keeps_pending_onReadError options error s1) as Hstill.
    unfold sat, keeps_pending, state_of in Hstill.
    unfold settle.
    destruct (onReadError options error s1) as [[[[]|error'] s2] out2];
      cbn [fst snd] in Hstill; cbn [step]; rewrite Hstill, Hkept;
      now rewrite !app_nil_r.
Qed.

(** A stream that arrives in two chunks, the cut inside a frame. *)
Lemma X_chunk_seam_witness :
  pending Sample.listening = AwaitingChunk ""
  /\ run Sample.options Sample.listening
       [ReadResolved (Some "data: he"); ReadResolved (Some MoreSample.seam_rest)]
     = step Sample.options Sample.listening
         (ReadResolved (Some ("data: he" +:+ MoreSample.seam_rest))).
Proof.
  split; [reflexivity |].
  exact (X_chunk_seam Sample.options Sample.listening "" "data: he"
           MoreSample.seam_rest eq_refl).
Defined.

(** The read loop loses nothing unless a callback throws. The loop is the
    loop body for each complete frame of the buffer with the chunk added,
    in order; these frames, each with the blank line that ended it, and
    the rest make up the buffer with the chunk again, no frame contains a
    blank line and none is left in the rest. When the body returns for
    every frame, the rest is what the next read is awaited with, and the
    effects of the turn are those of the frames. When the body throws, the
    frames after it are abandoned with the rest: nothing is awaited. *)
Theorem X_frames_lossless (options : Options) (s : State)
    (buffer text : string) :
  pending s = AwaitingChunk buffer ->
  let whole := buffer +:+ text in
  let s0 := set_pending NoRequest s in
  let turn := step options s (ReadResolved (Some text)) in
  drain options (String.length whole) whole s0
  = (process_all options (all_frames whole) >> ret (leftover whole)) s0
  /\ framed (all_frames whole) +:+ leftover whole = whole
  /\ Str.indexOf blank_line (leftover whole) = None
  /\ Forall (fun eventData => Str.indexOf blank_line eventData = None)
       (all_frames whole)
  /\ (outcome_of (process_all options (all_frames whole) s0) = Returned tt ->
      pending (fst turn) = AwaitingChunk (leftover whole)
      /\ snd turn = effects_of (process_all options (all_frames whole) s0))
  /\ (forall error,
         outcome_of (process_all options (all_frames whole) s0) = Threw error ->
         pending (fst turn) = NoRequest).
Proof.
  intros Hpending. cbn zeta.
  destruct (buffer_splits (buffer +:+ text)) as (Hwhole & Hrest & Hframes).
  split; [apply drain_frames |].
  split; [exact Hwhole |]. split; [exact Hrest |]. split; [exact Hframes |].
  rewrite (step_chunk_frames options s buffer text Hpending), read_turn.
  pose proof (keeps_pending_process_all options
                (all_frames (buffer +:+ text)) (set_pending NoRequest s))
    as Hkept.
  unfold sat, keeps_pending, state_of, outcome_of, effects_of in *.
  destruct (process_all options (all_frames (buffer +:+ text))
              (set_pending NoRequest s)) as [[[[]|error] s1] out1];
    cbn [fst snd] in *; (split; [| intros error']); try discriminate.
  - intros _. split; reflexivity.
  - intros _.
    pose proof (keeps_pending_onReadError options error s1) as Hstill.
    unfold sat, keeps_pending, state_of, settle in *.
    destruct (onReadError options error s1) as [[[[]|error''] s2] out2];
      cbn in *; congruence.
Qed.

Lemma X_frames_lossless_witness :
  pending Sample.listening = AwaitingChunk ""
  /\ framed (all_frames ("" +:+ MoreSample.frame_and_a_half))
     +:+ leftover ("" +:+ MoreSample.frame_and_a_half)
     = "" +:+ MoreSample.frame_and_a_half
  /\ pending
       (fst (step Sample.options Sample.listening
               (ReadResolved (Some MoreSample.frame_and_a_half))))
     = AwaitingChunk (leftover ("" +:+ MoreSample.frame_and_a_half)).
Proof.
  destruct (X_frames_lossless Sample.options Sample.listening ""
              MoreSample.frame_and_a_half eq_refl)
    as (_ & Hwhole & _ & _ & Hreturns & _).
  split; [reflexivity |]. split; [exact Hwhole |].
  exact (proj1 (Hreturns eq_refl)).
Defined.

(** ** More on the frame parser *)

Section MoreParser.

Lemma parsePart_inert (acc : ParsedEvent) (part : string) :
  significant part = false -> parsePart acc part = acc.
Proof.
  unfold significant. rewrite parsePart_field.
  destruct (field part) as [[key value]|]; [| reflexivity].
  destruct (String.eqb key "event"); [discriminate |].
  destruct (String.eqb key "data"); [discriminate |].
  destruct (String.eqb key "id"); [discriminate |].
  destruct (String.eqb key "retry"); [| reflexivity].
  destruct (Str.parseInt value); [discriminate | reflexivity].
Qed.

Lemma fold_parsePart_filter (parts : list string) (acc : ParsedEvent) :
  fold_left parsePart (List.filter significant parts) acc
  = fold_left parsePart parts acc.
Proof.
  revert acc. induction parts as [|part parts IH]; intros acc; [reflexivity |].
  cbn [List.filter fold_left].
  destruct (significant part) eqn:Hpart.
  - cbn [fold_left]. apply IH.
  - rewrite (parsePart_inert _ _ Hpart). apply IH.
Qed.

End MoreParser.

(** What the parser returns is read off the fields of the frame: the event
    name is the value of the last [event] line, or [message] without one;
    the payload is the values of the [data] lines joined by line breaks (the
    empty ones at the front left out); the id is the value of the last [id]
    line; the retry delay is the last [retry] value that reads as a number. *)
Theorem X_parse_by_fields (eventData : string) :
  eventName (parseSSEEvent eventData)
  = default "message" (last (field_values "event" eventData))
  /\ eventDataString (parseSSEEvent eventData)
     = join_data (field_values "data" eventData)
  /\ eventId (parseSSEEvent eventData) = last (field_values "id" eventData)
  /\ retry (parseSSEEvent eventData)
     = directive (field_values "retry" eventData).
Proof. exact (parseSSEEvent_spec eventData). Qed.

(** Lines that set nothing are ignored: a frame parses as the frame without
    its comment lines, its lines without colon, its lines with a field name
    the parser does not know, and its [retry] lines whose value is no
    number. *)
Theorem X_inert_lines (lines : list string) :
  Forall (fun l => no_LF l = true) lines ->
  parseSSEEvent (lines_frame lines)
  = parseSSEEvent (lines_frame (List.filter significant lines)).
Proof.
  intros Hlines.
  rewrite (parse_lines_frame lines Hlines).
  rewrite parse_lines_frame.
  - symmetry. apply fold_parsePart_filter.
  - rewrite List.Forall_forall in *. intros l Hl.
    apply List.filter_In in Hl. apply Hlines, Hl.
Qed.

Lemma X_inert_lines_witness :
  Forall (fun l => no_LF l = true) MoreSample.noisy_lines
  /\ List.filter significant MoreSample.noisy_lines = ["data: x"; "id: 4"]
  /\ parseSSEEvent (lines_frame MoreSample.noisy_lines)
     = parseSSEEvent (lines_frame ["data: x"; "id: 4"]).
Proof.
  assert (Hlines : Forall (fun l => no_LF l = true) MoreSample.noisy_lines).
  { repeat constructor. }
  split; [exact Hlines |]. split; [reflexivity |].
  exact (X_inert_lines MoreSample.noisy_lines Hlines).
Defined.

(** ** The registry of callbacks *)

Section Registry.

Variable options : Options.

Lemma set_listeners_same (s : State) : set_listeners (listeners s) s = s.
Proof. now destruct s. Qed.

Lemma set_listeners_twice (a b : gmap string (list Listener)) (s : State) :
  set_listeners a (set_listeners b s) = set_listeners a s.
Proof. reflexivity. Qed.

(** Registering and removing change the registry and nothing else. *)
Lemma addEventListener_run (event : string) (callback : Listener)
    (s : State) :
  exists entries,
    state_of (addEventListener event callback s) = set_listeners entries s
    /\ effects_of (addEventListener event callback s) = [].
Proof.
  unfold addEventListener.
  destruct (inherited event); cbn; eauto.
  exists (listeners s). now rewrite set_listeners_same.
Qed.

Lemma removeEventListener_run (event : string) (callback : Listener)
    (s : State) :
  exists entries,
    state_of (removeEventListener event callback s) = set_listeners entries s
    /\ effects_of (removeEventListener event callback s) = [].
Proof.
  unfold removeEventListener.
  destruct (inherited event); cbn.
  { exists (listeners s). now rewrite set_listeners_same. }
  destruct (listeners s !! event) as [callbacks|].
  - destruct (List.filter _ callbacks); eauto.
  - exists (listeners s). now rewrite set_listeners_same.
Qed.

Lemma keeps_entries_refl (s : State) : keeps_entries s s [].
Proof. exact (fun H => H). Qed.

Lemma keeps_entries_trans : composes keeps_entries keeps_entries keeps_entries.
Proof. intros s s1 s2 out1 out2 H1 H2 H. exact (H2 (H1 H)). Qed.

Lemma keeps_entries_dispatchEvent (event : string) (data : EventData)
    (eventId : option string) (s : State) :
  sat keeps_entries (dispatchEvent options event data eventId) s.
Proof. unfold sat, keeps_entries. now rewrite dispatchEvent_state. Qed.

Lemma keeps_entries_drain (turns : nat) (buffer : string) (s : State) :
  sat keeps_entries (drain options turns buffer) s.
Proof.
  unfold sat. rewrite drain_frames.
  apply (sat_seq _ keeps_entries_trans); [| intros; exact (fun H => H)].
  generalize (frames turns buffer). intros eventDatas. revert s.
  induction eventDatas as [|eventData rest IH]; intros s; cbn [process_all];
    [exact (fun H => H) |].
  apply (sat_seq _ keeps_entries_trans); [| intros _ s1; apply IH].
  unfold sat, keeps_entries, no_empty_entry. rewrite processFrame_state.
  destruct (bookkeeping_rest (parseSSEEvent eventData) s)
    as (_ & _ & _ & _ & _ & ->).
  exact (fun H => H).
Qed.

Lemma keeps_entries_add (event : string) (callback : Listener) (s : State) :
  sat keeps_entries (addEventListener event callback) s.
Proof.
  unfold addEventListener.
  destruct (inherited event); [exact (fun H => H) |].
  unfold sat, keeps_entries, no_empty_entry, modify. cbn.
  intros Hs other.
  destruct (decide (event = other)) as [<-|Hother].
  - rewrite lookup_insert_eq. intros [= Hnil].
    now destruct (default [] (listeners s !! event)).
  - rewrite lookup_insert_ne by exact Hother. apply Hs.
Qed.

Lemma keeps_entries_remove (event : string) (callback : Listener)
    (s : State) :
  sat keeps_entries (removeEventListener event callback) s.
Proof.
  unfold removeEventListener.
  destruct (inherited event); [exact (fun H => H) |].
  unfold sat, keeps_entries, no_empty_entry, modify. cbn.
  intros Hs other.
  destruct (listeners s !! event) as [callbacks|]; [| apply Hs].
  destruct (List.filter _ callbacks) as [|cb kept] eqn:Hkept; cbn.
  - destruct (decide (event = other)) as [<-|Hother].
    + now rewrite lookup_delete_eq.
    + rewrite lookup_delete_ne by exact Hother. apply Hs.
  - destruct (decide (event = other)) as [<-|Hother].
    + now rewrite lookup_insert_eq.
    + rewrite lookup_insert_ne by exact Hother. apply Hs.
Qed.

Ltac keeps_entries_known :=
  idtac;
  match goal with
  | |- sat _ (dispatchEvent _ _ _ _) _ => apply keeps_entries_dispatchEvent
  | |- sat _ (drain _ _ _) _ => apply keeps_entries_drain
  | |- sat _ (addEventListener _ _) _ => apply keeps_entries_add
  | |- sat _ (removeEventListener _ _) _ => apply keeps_entries_remove
  end.

Ltac keeps_entries_leaf :=
  unfold sat, keeps_entries, no_empty_entry, scheduleReconnect, modify, emit,
    read, connect, clearTimeout, setLastEventId, close, bind, ret, throw,
    get, state_of, effects_of;
  cbn; intros;
  repeat match goal with
         | |- context [if ?b then _ else _] => destruct b; cbn
         | |- context [match ?x with _ => _ end] => destruct x; cbn
         end;
  solve [ auto | now rewrite lookup_empty ].

Lemma keeps_entries_step (s : State) (i : Input) :
  keeps_entries s (fst (step options s i)) (snd (step options s i)).
Proof.
  destruct i as [response|error|[text|]|error| | | | | | | |];
    try (cbn [step fst snd]; exact (fun H => H));
    try (cbn [step]; apply (sat_called _ keeps_entries_trans);
         [intros ? s1; exact (keeps_entries_refl s1) |];
         keeps_entries_known);
    sat_turn keeps_entries_refl keeps_entries_trans keeps_entries_known
      keeps_entries_leaf.
Qed.

Lemma keeps_entries_run (s : State) (inputs : list Input) :
  no_empty_entry s -> no_empty_entry (fst (run options s inputs)).
Proof.
  apply (sat_run _ keeps_entries_refl keeps_entries_trans options inputs s).
  intros s1 i _. apply keeps_entries_step.
Qed.

Lemma initial_entries : no_empty_entry (fst (fetchSSE options)).
Proof. intros event. cbn. now rewrite lookup_empty. Qed.

End Registry.

(** Registering and removing. [addEventListener] puts the callback after
    those registered for the event, also when it is registered already.
    [removeEventListener] takes every registration of the callback for the
    event away and keeps the others in their order. Neither touches the
    callbacks of another event, and neither has any effect besides. *)
Theorem X_registration (options : Options) (s : State) (event : string)
    (callback : Listener) :
  inherited event = false ->
  let added := step options s (CallAddEventListener event callback) in
  let removed := step options s (CallRemoveEventListener event callback) in
  registered (fst added) event = registered s event ++ [callback]
  /\ registered (fst removed) event
     = List.filter (other_than callback) (registered s event)
  /\ (forall other,
         other <> event ->
         registered (fst added) other = registered s other
         /\ registered (fst removed) other = registered s other)
  /\ snd added = [] /\ snd removed = [].
Proof.
  intros Hevent. cbn [step].
  unfold called, addEventListener, removeEventListener. rewrite Hevent.
  cbn [modify fst snd]. unfold registered.
  split; [| split; [| split; [| split; [reflexivity |]]]].
  - cbn. now rewrite lookup_insert_eq.
  - destruct (listeners s !! event) as [callbacks|] eqn:Hentry; cbn;
      [| now rewrite Hentry].
    fold (other_than callback).
    destruct (List.filter (other_than callback) callbacks) as [|cb kept];
      cbn; [now rewrite lookup_delete_eq | now rewrite lookup_insert_eq].
  - intros other Hother. split.
    + cbn. now rewrite lookup_insert_ne by congruence.
    + destruct (listeners s !! event) as [callbacks|]; cbn; [| reflexivity].
      destruct (List.filter _ callbacks) as [|cb kept]; cbn;
        [now rewrite lookup_delete_ne by congruence
        | now rewrite lookup_insert_ne by congruence].
  - now destruct (listeners s !! event).
Qed.

Lemma X_registration_witness :
  inherited "message" = false
  /\ registered
       (fst (step Sample.options Sample.listening
               (CallAddEventListener "message" (Sample.quiet 2))))
       "message"
     = [Sample.quiet 2; Sample.quiet 2]
  /\ registered
       (fst (step Sample.options Sample.two_listeners
               (CallRemoveEventListener "message" (Sample.thrower 1))))
       "message"
     = [Sample.quiet 2].
Proof.
  split; [reflexivity |]. split.
  - exact (proj1 (X_registration Sample.options Sample.listening "message"
                    (Sample.quiet 2) eq_refl)).
  - exact (proj1 (proj2 (X_registration Sample.options Sample.two_listeners
                           "message" (Sample.thrower 1) eq_refl))).
Defined.

(** The registry never holds an empty array: whatever happens to a
    connection, every event name that has an entry has a callback. *)
Theorem X_registry_has_no_empty_entry (options : Options)
    (inputs : list Input) :
  no_empty_entry (fst (run options (fst (fetchSSE options)) inputs)).
Proof.
  apply keeps_entries_run, initial_entries.
Qed.

(** Registering a callback that is not registered for the event and
    removing it again leaves the connection exactly as it was, when the
    registry holds no empty array. *)
Theorem X_add_then_remove (options : Options) (s : State) (event : string)
    (callback : Listener) :
  inherited event = false ->
  no_empty_entry s ->
  forallb (other_than callback) (registered s event) = true ->
  run options s [CallAddEventListener event callback;
                 CallRemoveEventListener event callback]
  = (s, []).
Proof.
  intros Hevent Hentries Hfresh. cbn [run step].
  unfold called, addEventListener, removeEventListener. rewrite Hevent.
  cbn [modify]. cbn [listeners set_listeners].
  rewrite lookup_insert_eq.
  assert (Hkept : List.filter (other_than callback)
                    (default [] (listeners s !! event) ++ [callback])
                  = registered s event).
  { fold (registered s event). rewrite List.filter_app. cbn [List.filter].
    unfold other_than at 2. rewrite Nat.eqb_refl. cbn [negb].
    rewrite app_nil_r.
    revert Hfresh. generalize (registered s event). intros callbacks.
    induction callbacks as [|cb callbacks IH]; [reflexivity |].
    cbn [forallb List.filter]. intros [Hcb Hrest]%andb_prop.
    now rewrite Hcb, IH. }
  fold (other_than callback). rewrite Hkept. unfold registered.
  destruct (listeners s !! event) as [callbacks|] eqn:Hentry;
    cbn [default id app].
  - destruct callbacks as [|cb callbacks]; [now apply Hentries in Hentry |].
    rewrite set_listeners_twice, insert_insert_eq, (insert_id _ _ _ Hentry).
    now rewrite set_listeners_same.
  - rewrite set_listeners_twice, (delete_insert_id _ _ _ Hentry).
    now rewrite set_listeners_same.
Qed.

Lemma X_add_then_remove_witness :
  inherited "notice" = false
  /\ no_empty_entry MoreSample.registered_once
  /\ forallb (other_than (Sample.quiet 5))
       (registered MoreSample.registered_once "notice") = true
  /\ run Sample.options MoreSample.registered_once
       [CallAddEventListener "notice" (Sample.quiet 5);
        CallRemoveEventListener "notice" (Sample.quiet 5)]
     = (MoreSample.registered_once, []).
Proof.
  assert (Hentries : no_empty_entry MoreSample.registered_once).
  { exact (keeps_entries_run Sample.options (fst (fetchSSE Sample.options))
             [CallAddEventListener "message" (Sample.quiet 2)]
             (initial_entries Sample.options)). }
  split; [reflexivity |]. split; [exact Hentries |]. split; [reflexivity |].
  exact (X_add_then_remove Sample.options MoreSample.registered_once "notice"
           (Sample.quiet 5) eq_refl Hentries eq_refl).
Defined.

(** ** Closing *)

Section Closing.

Variable options : Options.

Lemma stays_closed_refl (s : State) : stays_closed s s [].
Proof. intros H. auto. Qed.

Lemma stays_closed_trans : composes stays_closed stays_closed stays_closed.
Proof.
  intros s s1 s2 out1 out2 H1 H2 Hclosed.
  destruct (H1 Hclosed) as (Hclosed1 & Hreq1 & Htime1).
  destruct (H2 Hclosed1) as (Hclosed2 & Hreq2 & Htime2).
  now rewrite requests_app, timeouts_app, Hreq1, Hreq2, Htime1, Htime2.
Qed.

Lemma stays_closed_dispatchEvent (event : string) (data : EventData)
    (eventId : option string) (s : State) :
  sat stays_closed (dispatchEvent options event data eventId) s.
Proof.
  unfold sat, stays_closed. rewrite dispatchEvent_state.
  destruct (dispatchEvent_quiet options event data eventId s). auto.
Qed.

Lemma stays_closed_process_all (eventDatas : list string) (s : State) :
  sat stays_closed (process_all options eventDatas) s.
Proof.
  revert s. induction eventDatas as [|eventData rest IH]; intros s;
    cbn [process_all]; [apply stays_closed_refl |].
  apply (sat_seq _ stays_closed_trans); [| intros _ s1; apply IH].
  unfold sat, stays_closed. rewrite processFrame_state.
  destruct (bookkeeping_rest (parseSSEEvent eventData) s) as (-> & _).
  destruct (processFrame_quiet options eventData s). auto.
Qed.

Lemma stays_closed_drain (turns : nat) (buffer : string) (s : State) :
  sat stays_closed (drain options turns buffer) s.
Proof.
  unfold sat. rewrite drain_frames.
  apply (sat_seq _ stays_closed_trans);
    [apply stays_closed_process_all | intros; apply stays_closed_refl].
Qed.

(** [scheduleReconnect] returns at once when the connection is closed. *)
Lemma stays_closed_scheduleReconnect (s : State) :
  sat stays_closed (scheduleReconnect options) s.
Proof.
  unfold sat, stays_closed, scheduleReconnect, bind, get. cbn.
  intros Hclosed. rewrite Hclosed. cbn. auto.
Qed.

(** The callback of the timer does nothing when the connection is closed. *)
Lemma stays_closed_onTimer (s : State) :
  sat stays_closed (onTimer options) s.
Proof.
  unfold sat, stays_closed, onTimer, bind, get. cbn.
  intros Hclosed. rewrite Hclosed. cbn. auto.
Qed.

Ltac stays_closed_known :=
  idtac;
  match goal with
  | |- sat _ (dispatchEvent _ _ _ _) _ => apply stays_closed_dispatchEvent
  | |- sat _ (drain _ _ _) _ => apply stays_closed_drain
  | |- sat _ (scheduleReconnect _) _ => apply stays_closed_scheduleReconnect
  end.

Ltac stays_closed_leaf :=
  unfold sat, stays_closed, modify, emit, read, connect, clearTimeout,
    setLastEventId, close, bind, ret, throw, get, state_of, effects_of;
  cbn; intros;
  try congruence;
  repeat match goal with
         | |- context [if ?b then _ else _] => destruct b; cbn
         | |- context [match ?x with _ => _ end] => destruct x; cbn
         end;
  auto.

Lemma stays_closed_step (s : State) (i : Input) :
  stays_closed s (fst (step options s i)) (snd (step options s i)).
Proof.
  destruct i as [response|error|[text|]|error| | | | | | | |];
    try (cbn [step fst snd]; intros H; now auto).
  6: { cbn [step]. destruct (retryTimeout s); [| apply stays_closed_refl].
       apply (sat_settle _ stays_closed_trans);
         [intros ? s1; apply stays_closed_refl |].
       apply (sat_seq _ stays_closed_trans);
         [stays_closed_leaf | intros _ s1; apply stays_closed_onTimer]. }
  all: sat_turn stays_closed_refl stays_closed_trans stays_closed_known
         stays_closed_leaf.
Qed.

Lemma stays_closed_run (s : State) (inputs : list Input) :
  stays_closed s (fst (run options s inputs)) (snd (run options s inputs)).
Proof.
  apply (sat_run _ stays_closed_refl stays_closed_trans).
  intros s1 i _. apply stays_closed_step.
Qed.

(** *** The state the caller sees *)

Lemma stays_shut_refl (s : State) : stays_shut s s [].
Proof. exact (fun H => H). Qed.

Lemma stays_shut_trans : composes stays_shut stays_shut stays_shut.
Proof. intros s s1 s2 out1 out2 H1 H2 H. exact (H2 (H1 H)). Qed.

Lemma stays_shut_dispatchEvent (event : string) (data : EventData)
    (eventId : option string) (s : State) :
  sat stays_shut (dispatchEvent options event data eventId) s.
Proof. unfold sat, stays_shut. now rewrite dispatchEvent_state. Qed.

Lemma stays_shut_drain (turns : nat) (buffer : string) (s : State) :
  sat stays_shut (drain options turns buffer) s.
Proof.
  unfold sat. rewrite drain_frames.
  apply (sat_seq _ stays_shut_trans); [| intros; apply stays_shut_refl].
  generalize (frames turns buffer). intros eventDatas. revert s.
  induction eventDatas as [|eventData rest IH]; intros s; cbn [process_all];
    [apply stays_shut_refl |].
  apply (sat_seq _ stays_shut_trans); [| intros _ s1; apply IH].
  unfold sat, stays_shut. rewrite processFrame_state.
  destruct (bookkeeping_rest (parseSSEEvent eventData) s) as (-> & -> & _).
  exact (fun H => H).
Qed.

Lemma stays_shut_scheduleReconnect (s : State) :
  sat stays_shut (scheduleReconnect options) s.
Proof.
  unfold sat, stays_shut, scheduleReconnect, bind, get. cbn.
  intros [Hclosed Hready]. rewrite Hclosed. cbn. auto.
Qed.

Lemma stays_shut_onTimer (s : State) : sat stays_shut (onTimer options) s.
Proof.
  unfold sat, stays_shut, onTimer, bind, get. cbn.
  intros [Hclosed Hready]. rewrite Hclosed. cbn. auto.
Qed.

Lemma stays_shut_add (event : string) (callback : Listener) (s : State) :
  sat stays_shut (addEventListener event callback) s.
Proof.
  unfold sat, stays_shut.
  destruct (addEventListener_run event callback s) as (entries & -> & _).
  exact (fun H => H).
Qed.

Lemma stays_shut_remove (event : string) (callback : Listener) (s : State) :
  sat stays_shut (removeEventListener event callback) s.
Proof.
  unfold sat, stays_shut.
  destruct (removeEventListener_run event callback s) as (entries & -> & _).
  exact (fun H => H).
Qed.

Ltac stays_shut_known :=
  idtac;
  match goal with
  | |- sat _ (dispatchEvent _ _ _ _) _ => apply stays_shut_dispatchEvent
  | |- sat _ (drain _ _ _) _ => apply stays_shut_drain
  | |- sat _ (scheduleReconnect _) _ => apply stays_shut_scheduleReconnect
  end.

Ltac stays_shut_leaf :=
  unfold sat, stays_shut, modify, emit, read, clearTimeout,
    setLastEventId, close, bind, ret, throw, get, state_of, effects_of;
  cbn; intros;
  repeat match goal with
         | |- context [if ?b then _ else _] => destruct b; cbn
         | |- context [match ?x with _ => _ end] => destruct x; cbn
         end;
  intuition congruence.

(** Only a successful response opens a closed connection again. *)
Lemma stays_shut_step (s : State) (i : Input) :
  succeeds i = false ->
  stays_shut s (fst (step options s i)) (snd (step options s i)).
Proof.
  destruct i as [response|error|[text|]|error| | | | | | | |]; intros Hi;
    try (cbn [step fst snd]; exact (fun H => H)).
  - cbn [succeeds] in Hi. cbn [step].
    destruct (pending s); try apply stays_shut_refl.
    apply (sat_settle _ stays_shut_trans);
      [intros ? s1; apply stays_shut_refl |].
    apply (sat_seq _ stays_shut_trans); [stays_shut_leaf | intros ? s1].
    apply (sat_try _ stays_shut_trans).
    + unfold onResponse. rewrite Hi. cbn [negb]. apply stays_shut_refl.
    + intros error s2. unfold onConnectError.
      sat_walk stays_shut_refl stays_shut_trans stays_shut_known
        stays_shut_leaf.
  - sat_turn stays_shut_refl stays_shut_trans stays_shut_known
      stays_shut_leaf.
  - sat_turn stays_shut_refl stays_shut_trans stays_shut_known
      stays_shut_leaf.
  - sat_turn stays_shut_refl stays_shut_trans stays_shut_known
      stays_shut_leaf.
  - sat_turn stays_shut_refl stays_shut_trans stays_shut_known
      stays_shut_leaf.
  - cbn [step]. destruct (retryTimeout s); [| apply stays_shut_refl].
    apply (sat_settle _ stays_shut_trans);
      [intros ? s1; apply stays_shut_refl |].
    apply (sat_seq _ stays_shut_trans);
      [stays_shut_leaf | intros _ s1; apply stays_shut_onTimer].
  - cbn [step]. apply (sat_called _ stays_shut_trans);
      [intros ? s1; apply stays_shut_refl | apply stays_shut_add].
  - cbn [step]. apply (sat_called _ stays_shut_trans);
      [intros ? s1; apply stays_shut_refl | apply stays_shut_remove].
  - sat_turn stays_shut_refl stays_shut_trans stays_shut_known
      stays_shut_leaf.
Qed.

Lemma stays_shut_run (s : State) (inputs : list Input) :
  forallb (fun i => negb (succeeds i)) inputs = true ->
  stays_shut s (fst (run options s inputs)) (snd (run options s inputs)).
Proof.
  intros Hinputs.
  apply (sat_run _ stays_shut_refl stays_shut_trans).
  intros s1 i Hin. apply stays_shut_step.
  rewrite forallb_forall in Hinputs. specialize (Hinputs i Hin).
  now apply negb_true_iff.
Qed.

End Closing.

(** What [close] ends, and what it does not. From any state, after a call
    of [close] the connection issues no request and sets no timer any more,
    and its closed flag stays set, whatever happens afterwards (a response
    or a chunk that still arrives, a timer that still fires, further
    calls). Its [readyState] stays 2 as long as no successful response
    arrives after the call; one that does is still taken: it makes
    [readyState] 1 again, although the flag stays set. *)
Theorem X_close_stops_reconnecting (options : Options) (s : State)
    (inputs : list Input) :
  isClosed (fst (run options s (CallClose :: inputs))) = true
  /\ requests (snd (run options s (CallClose :: inputs))) = []
  /\ timeouts (snd (run options s (CallClose :: inputs))) = []
  /\ (forallb (fun i => negb (succeeds i)) inputs = true ->
      readyState (fst (run options s (CallClose :: inputs))) = CLOSED)
  /\ (let late :=
        fst (run Sample.options (fst (fetchSSE Sample.options))
               [CallClose; FetchResolved (Sample.response 200)]) in
      isClosed late = true /\ readyState late = OPEN).
Proof.
  cbn [run].
  assert (Hclose : isClosed (fst (step options s CallClose)) = true
                   /\ readyState (fst (step options s CallClose)) = CLOSED
                   /\ requests (snd (step options s CallClose)) = []
                   /\ timeouts (snd (step options s CallClose)) = []).
  { cbn [step]. unfold called, close, clearTimeout, bind, modify, emit, get.
    cbn. destruct (abortController s), (reader s); cbn; auto. }
  destruct (step options s CallClose) as [s1 out1]. cbn [fst snd] in Hclose.
  destruct Hclose as (Hclosed & Hready & Hreq & Htime).
  pose proof (stays_closed_run options s1 inputs Hclosed) as Hrest.
  pose proof (stays_shut_run options s1 inputs) as Hshut.
  destruct (run options s1 inputs) as [s2 out2]. cbn [fst snd] in *.
  destruct Hrest as (Hclosed2 & Hreq2 & Htime2).
  rewrite requests_app, timeouts_app, Hreq, Hreq2, Htime, Htime2.
  split; [exact Hclosed2 |]. split; [reflexivity |]. split; [reflexivity |].
  split; [| split; reflexivity].
  intros Hinputs. apply (Hshut Hinputs). auto.
Qed.

Lemma X_close_stops_reconnecting_witness :
  forallb (fun i => negb (succeeds i)) MoreSample.failures = true
  /\ readyState
       (fst (run Sample.options Sample.opened
               (CallClose :: MoreSample.failures))) = CLOSED.
Proof.
  split; [reflexivity |].
  exact (proj1 (proj2 (proj2 (proj2
           (X_close_stops_reconnecting Sample.options Sample.opened
              MoreSample.failures)))) eq_refl).
Defined.

(** ** The default retry policy *)

Section Budget.

Variable options : Options.
Variable m : Z.
Hypothesis Hcustom : customRetryLogic options = None.
Hypothesis Hmax : maxRetries options = Some m.

Lemma spends_refl (s : State) : spends m s s [].
Proof. unfold spends. cbn. lia. Qed.

Lemma spends_trans : composes (spends m) (spends m) (spends m).
Proof.
  intros s s1 s2 out1 out2 H1 H2. unfold spends in *.
  rewrite requests_app, length_app. lia.
Qed.

Lemma spends_dispatchEvent (event : string) (data : EventData)
    (eventId : option string) (s : State) :
  sat (spends m) (dispatchEvent options event data eventId) s.
Proof.
  unfold sat, spends. rewrite dispatchEvent_state.
  destruct (dispatchEvent_quiet options event data eventId s) as [_ ->].
  cbn. lia.
Qed.

Lemma spends_process_all (eventDatas : list string) (s : State) :
  sat (spends m) (process_all options eventDatas) s.
Proof.
  revert s. induction eventDatas as [|eventData rest IH]; intros s;
    cbn [process_all]; [apply spends_refl |].
  apply (sat_seq _ spends_trans); [| intros _ s1; apply IH].
  unfold sat, spends, budget. rewrite processFrame_state.
  destruct (bookkeeping_rest (parseSSEEvent eventData) s)
    as (_ & _ & -> & -> & _).
  destruct (processFrame_quiet options eventData s) as [_ ->].
  cbn. lia.
Qed.

Lemma spends_drain (turns : nat) (buffer : string) (s : State) :
  sat (spends m) (drain options turns buffer) s.
Proof.
  unfold sat. rewrite drain_frames.
  apply (sat_seq _ spends_trans);
    [apply spends_process_all | intros; apply spends_refl].
Qed.

(** A retry is scheduled only while the count is below the maximum, and
    it takes one from the budget for the request its timer will issue. *)
Lemma spends_scheduleReconnect (s : State) :
  sat (spends m) (scheduleReconnect options) s.
Proof.
  unfold sat, spends, budget, scheduleReconnect, shouldRetry, close,
    clearTimeout, bind, get, modify, emit, ret, state_of, effects_of.
  rewrite Hcustom, Hmax. cbn.
  destruct (isClosed s); cbn; [destruct (retryTimeout s); lia |].
  destruct (Z.leb_spec m (retryCount s)); cbn.
  - destruct (abortController s), (reader s), (retryTimeout s); cbn; lia.
  - destruct (retryTimeout s); lia.
Qed.

Lemma spends_add (event : string) (callback : Listener) (s : State) :
  sat (spends m) (addEventListener event callback) s.
Proof.
  unfold sat, spends, budget.
  destruct (addEventListener_run event callback s) as (entries & -> & ->).
  cbn. lia.
Qed.

Lemma spends_remove (event : string) (callback : Listener) (s : State) :
  sat (spends m) (removeEventListener event callback) s.
Proof.
  unfold sat, spends, budget.
  destruct (removeEventListener_run event callback s) as (entries & -> & ->).
  cbn. lia.
Qed.

Ltac spends_known :=
  idtac;
  match goal with
  | |- sat _ (dispatchEvent _ _ _ _) _ => apply spends_dispatchEvent
  | |- sat _ (drain _ _ _) _ => apply spends_drain
  | |- sat _ (scheduleReconnect _) _ => apply spends_scheduleReconnect
  end.

Ltac spends_leaf :=
  unfold sat, spends, budget, modify, emit, read, clearTimeout,
    setLastEventId, close, bind, ret, throw, get, state_of, effects_of;
  cbn -[Z.add Z.sub Z.max Z.le Z.of_nat]; intros;
  repeat match goal with
         | |- context [if ?b then _ else _] =>
             destruct b; cbn -[Z.add Z.sub Z.max Z.le Z.of_nat]
         | |- context [match ?x with _ => _ end] =>
             destruct x; cbn -[Z.add Z.sub Z.max Z.le Z.of_nat]
         end;
  lia.

(** A turn that brings no successful response. *)
Lemma spends_step (s : State) (i : Input) :
  succeeds i = false ->
  spends m s (fst (step options s i)) (snd (step options s i)).
Proof.
  destruct i as [response|error|[text|]|error| | | | | | | |]; intros Hi;
    try (cbn [step fst snd]; unfold spends, budget; cbn; lia).
  - cbn [succeeds] in Hi. cbn [step].
    destruct (pending s); try apply spends_refl.
    apply (sat_settle _ spends_trans); [intros ? s1; apply spends_refl |].
    apply (sat_seq _ spends_trans); [spends_leaf | intros ? s1].
    apply (sat_try _ spends_trans).
    + unfold onResponse. rewrite Hi. cbn [negb]. apply spends_refl.
    + intros error s2. unfold onConnectError.
      sat_walk spends_refl spends_trans spends_known spends_leaf.
  - sat_turn spends_refl spends_trans spends_known spends_leaf.
  - sat_turn spends_refl spends_trans spends_known spends_leaf.
  - sat_turn spends_refl spends_trans spends_known spends_leaf.
  - sat_turn spends_refl spends_trans spends_known spends_leaf.
  - cbn [step]. unfold spends, budget.
    destruct (retryTimeout s) as [delay|] eqn:Htimer; cbn [fst snd];
      [| cbn; rewrite Htimer; lia].
    unfold settle, bind, modify, onTimer, connect, get, emit. cbn.
    destruct (isClosed s); cbn; lia.
  - cbn [step]. apply (sat_called _ spends_trans);
      [intros ? s1; apply spends_refl | apply spends_add].
  - cbn [step]. apply (sat_called _ spends_trans);
      [intros ? s1; apply spends_refl | apply spends_remove].
  - sat_turn spends_refl spends_trans spends_known spends_leaf.
Qed.

Lemma spends_run (s : State) (inputs : list Input) :
  forallb (fun i => negb (succeeds i)) inputs = true ->
  spends m s (fst (run options s inputs)) (snd (run options s inputs)).
Proof.
  intros Hinputs.
  revert s. induction inputs as [|i inputs IH]; intros s;
    [apply spends_refl |].
  cbn [forallb] in Hinputs. apply andb_prop in Hinputs as [Hi Hrest].
  cbn [run].
  pose proof (spends_step s i (proj1 (negb_true_iff _) Hi)) as H1.
  destruct (step options s i) as [s1 out1]. cbn [fst snd] in H1.
  pose proof (IH Hrest s1) as H2.
  destruct (run options s1 inputs) as [s2 out2]. cbn [fst snd] in *.
  exact (spends_trans _ _ _ _ _ H1 H2).
Qed.

Lemma budget_nonneg (s : State) : 0 <= budget m s.
Proof. unfold budget. destruct (retryTimeout s); lia. Qed.

End Budget.

(** The retry maximum bounds the requests. Under the default policy with a
    finite [maxRetries], a connection that never gets a successful response
    issues at most one request more than [maxRetries]: the first and one
    for each retry. *)
Theorem X_retry_budget (options : Options) (m : Z) (inputs : list Input) :
  customRetryLogic options = None ->
  maxRetries options = Some m ->
  forallb (fun i => negb (succeeds i)) inputs = true ->
  Z.of_nat
    (length
       (requests
          (snd (fetchSSE options)
           ++ snd (run options (fst (fetchSSE options)) inputs))))
  <= 1 + Z.max 0 m.
Proof.
  intros Hcustom Hmax Hinputs.
  pose proof (spends_run options m Hcustom Hmax (fst (fetchSSE options))
                inputs Hinputs) as Hrun.
  pose proof (budget_nonneg m (fst (run options (fst (fetchSSE options))
                                      inputs))) as Hleft.
  unfold spends in Hrun.
  rewrite requests_app, length_app.
  change (budget m (fst (fetchSSE options))) with (Z.max 0 (m - 0) + 0)
    in Hrun.
  change (length (requests (snd (fetchSSE options)))) with 1%nat.
  lia.
Qed.

Lemma X_retry_budget_witness :
  customRetryLogic Sample.configured = None
  /\ maxRetries Sample.configured = Some 2
  /\ Z.of_nat
       (length
          (requests
             (snd (fetchSSE Sample.configured)
              ++ snd (run Sample.configured (fst (fetchSSE Sample.configured))
                        MoreSample.failures))))
     <= 1 + Z.max 0 2.
Proof.
  split; [reflexivity |]. split; [reflexivity |].
  exact (X_retry_budget Sample.configured 2 MoreSample.failures
           eq_refl eq_refl eq_refl).
Defined.

(** ** The request *)

Section Request.

Variable options : Options.

(** The request depends on the state through the last event id only. *)
Lemma buildFetchOptions_id (s : State) :
  buildFetchOptions options s = request_with options (lastEventId s).
Proof. reflexivity. Qed.














(** The headers before the content type is looked at. *)
Lemma headers_before_body (s : State) (key : string) :
  key <> "Last-Event-ID" \/ lastEventId s = None ->
  (match lastEventId s with
   | Some id =>
       <["Last-Event-ID" := id]>
         (headers options
          ∪ <["Accept" := "text/event-stream"]>
              (<["Cache-Control" := "no-cache"]> ∅))
   | None =>
       headers options
       ∪ <["Accept" := "text/event-stream"]>
           (<["Cache-Control" := "no-cache"]> ∅)
   end) !! key
  = (headers options
     ∪ <["Accept" := "text/event-stream"]>
         (<["Cache-Control" := "no-cache"]> ∅)) !! key.
Proof.
  intros [Hkey | Hid].
  - destruct (lastEventId s); [| reflexivity].
    now rewrite lookup_insert_ne by congruence.
  - now rewrite Hid.
Qed.

End Request.


(** The caller's headers win. A header the caller gives is sent as given,
    unless it is [Last-Event-ID] and the connection holds an id, or it is
    an empty [Content-Type]. *)
Theorem X_caller_headers_win (options : Options) (s : State)
    (key value : string) :
  headers options !! key = Some value ->
  (key = "Last-Event-ID" -> lastEventId s = None) ->
  (key = "Content-Type" -> Str.truthy value = true) ->
  Fetch.headers (buildFetchOptions options s) !! key = Some value.
Proof.
  intros Hgiven Hid Htype.
  assert (Hbase : (headers options
                   ∪ <["Accept" := "text/event-stream"]>
                       (<["Cache-Control" := "no-cache"]> ∅)) !! key
                  = Some value).
  { now apply lookup_union_Some_l. }
  assert (Hbefore := headers_before_body options s key).
  rewrite Hbase in Hbefore.
  assert (Hkey : key <> "Last-Event-ID" \/ lastEventId s = None).
  { destruct (decide (key = "Last-Event-ID")); auto. }
  specialize (Hbefore Hkey).
  unfold buildFetchOptions.
  destruct (sends_body (method options)); [destruct (body options) |];
    cbn [Fetch.headers]; try exact Hbefore.
  destruct (header_falsy _ "Content-Type" && header_falsy _ "content-type")
    eqn:Hfalsy; cbn [Fetch.headers]; [| exact Hbefore].
  destruct (decide (key = "Content-Type")) as [->|Hother].
  - apply andb_prop in Hfalsy as [Hfalsy _].
    unfold header_falsy in Hfalsy. rewrite Hbefore in Hfalsy.
    rewrite (Htype eq_refl) in Hfalsy. discriminate.
  - now rewrite lookup_insert_ne by congruence.
Qed.

Lemma X_caller_headers_win_witness :
  headers MoreSample.posting !! "Accept" = Some "application/x-ndjson"
  /\ Fetch.headers (buildFetchOptions MoreSample.posting Sample.opened)
       !! "Accept" = Some "application/x-ndjson".
Proof.
  split; [reflexivity |].
  apply (X_caller_headers_win MoreSample.posting Sample.opened "Accept"
           "application/x-ndjson" eq_refl); discriminate.
Defined.

